(** * Trollibox: the MPD player adapter, the track cache and the filter engine

    A shallow embedding of [src/player/mpd/mpd.go] (connection pool,
    keepalive supervisor, sync loop, URI translation), of the [TrackCache]
    and of the filter package, together with the properties of the
    specification that concern them.

    Conventions.  Go strings are byte strings ([string]); Go maps are finite
    maps ([gmap]); a call that can return an error, panic or block returns a
    [result]; goroutines are modelled by step functions that a schedule
    interleaves. *)

From Stdlib Require Import ZArith List Ascii String Lia Permutation Sorted.
From Stdlib Require Import DecimalString DecimalN DecimalPos.
From stdpp Require Import base option list gmap strings.

Local Open Scope string_scope.
Local Open Scope list_scope.
Local Open Scope Z_scope.

(** ** Results of Go calls *)

(** The Go [error] values that occur are only tested against [nil], wrapped
    and passed on: a message is all that is kept of them.  A Go [error]
    result is an [option error] ([None] is [nil]). *)
Definition error := string.

(** A Go [(value, error)] pair of which only one side is meaningful. *)
Inductive result (A : Type) : Type :=
| Ok (a : A)
| Err (e : error).
Arguments Ok {A} a.
Arguments Err {A} e.

(** What running a piece of Go code on a state [S] leads to: it returns, it
    panics, or it waits forever (an empty channel, a lock nobody frees). *)
Inductive outcome (S A : Type) : Type :=
| Return (a : A) (s : S)
| Panic (msg : string)
| Blocked.
Arguments Return {S A} a s.
Arguments Panic {S A} msg.
Arguments Blocked {S A}.

Definition M (S A : Type) : Type := S -> outcome S A.

Definition ret {S A : Type} (a : A) : M S A := fun s => Return a s.

Definition bind {S A B : Type} (m : M S A) (k : A -> M S B) : M S B :=
  fun s =>
    match m s with
    | Return a s' => k a s'
    | Panic msg => Panic msg
    | Blocked => Blocked
    end.

Definition gets {S A : Type} (f : S -> A) : M S A := fun s => Return (f s) s.
Definition modify {S : Type} (f : S -> S) : M S unit := fun s => Return tt (f s).
Definition panic {S A : Type} (msg : string) : M S A := fun _ => Panic msg.

Notation "x <- m ;; k" := (bind m (fun x => k))
  (at level 100, m at next level, right associativity).
Notation "m ;;; k" := (bind m (fun _ => k))
  (at level 100, right associativity).

(** ** Package [strings] and [strconv] of the Go library *)

Module GoStrings.

(** [strings.HasPrefix(s, prefix)] *)
Fixpoint HasPrefix (s prefix : string) {struct prefix} : bool :=
  match prefix with
  | EmptyString => true
  | String c prefix' =>
      match s with
      | EmptyString => false
      | String d s' => if Ascii.eqb c d then HasPrefix s' prefix' else false
      end
  end.

(** [s[n:]] *)
Fixpoint slice_from (n : nat) (s : string) : string :=
  match n, s with
  | O, _ => s
  | S _, EmptyString => EmptyString
  | S n', String _ s' => slice_from n' s'
  end.

(** [strings.TrimPrefix(s, prefix)] *)
Definition TrimPrefix (s prefix : string) : string :=
  if HasPrefix s prefix then slice_from (String.length prefix) s else s.

(** [strings.Index(s, substr)]: the index of the first instance of
    [substr] in [s], or -1. *)
Fixpoint Index_from (i : Z) (s substr : string) : Z :=
  if HasPrefix s substr then i
  else match s with
       | EmptyString => -1
       | String _ s' => Index_from (i + 1) s' substr
       end.

Definition Index (s substr : string) : Z := Index_from 0 s substr.

(** [strings.Contains], as used by an unanchored literal regexp. *)
Definition Contains (s substr : string) : bool :=
  negb (Z.eqb (Index s substr) (-1)).

Lemma HasPrefix_app (p s : string) : HasPrefix (p +:+ s) p = true.
Proof.
  induction p as [|c p IH]; simpl; [reflexivity|].
  now rewrite Ascii.eqb_refl.
Qed.

Lemma slice_from_app (p s : string) :
  slice_from (String.length p) (p +:+ s) = s.
Proof. induction p as [|c p IH]; simpl; auto. Qed.

Lemma TrimPrefix_app (p s : string) : TrimPrefix (p +:+ s) p = s.
Proof. unfold TrimPrefix. now rewrite HasPrefix_app, slice_from_app. Qed.

Lemma TrimPrefix_no_prefix (p s : string) :
  HasPrefix s p = false -> TrimPrefix s p = s.
Proof. unfold TrimPrefix. now intros ->. Qed.

Lemma Index_from_lower (i : Z) (s substr : string) :
  0 <= i -> Index_from i s substr = -1 \/ i <= Index_from i s substr.
Proof.
  revert i. induction s as [|c s IH]; intros i Hi; simpl.
  - destruct (HasPrefix "" substr); [right; lia | now left].
  - destruct (HasPrefix (String c s) substr); [right; lia|].
    destruct (IH (i + 1)) as [H|H]; [lia | now left | right; lia].
Qed.

(** A string that starts with [substr] contains it. *)
Lemma HasPrefix_Index (s substr : string) :
  HasPrefix s substr = true -> Index s substr = 0.
Proof.
  unfold Index. destruct s; simpl; now intros ->.
Qed.

End GoStrings.

Module Strconv.

Inductive NumError := ErrSyntax | ErrRange.

(** The value of a decimal digit byte, as in [strconv.ParseUint]. *)
Definition digit_of (c : ascii) : option Z :=
  let n := Z.of_nat (nat_of_ascii c) in
  if (48 <=? n) && (n <=? 57) then Some (n - 48) else None.

(** [maxVal] of [ParseUint] for [bitSize = 32]. *)
Definition maxVal32 : Z := 2 ^ 32 - 1.

(** The scanning loop of [strconv.ParseUint(s, 10, 32)]: digits are read
    left to right, a byte that is no digit is a syntax error, a value above
    [maxVal32] is a range error that yields [maxVal32]. *)
Fixpoint ParseUint_loop (s : string) (n : Z) : Z * option NumError :=
  match s with
  | EmptyString => (n, None)
  | String c s' =>
      match digit_of c with
      | None => (0, Some ErrSyntax)
      | Some d =>
          let n1 := n * 10 + d in
          if n1 >? maxVal32 then (maxVal32, Some ErrRange)
          else ParseUint_loop s' n1
      end
  end.

Definition ParseUint32 (s : string) : Z * option NumError :=
  match s with
  | EmptyString => (0, Some ErrSyntax)
  | _ => ParseUint_loop s 0
  end.

(** [strconv.ParseInt(s, 10, 32)]: the value and the error.  On a range
    error the value is the nearest bound, which callers that drop the error
    still receive. *)
Definition ParseInt32 (s : string) : Z * option NumError :=
  match s with
  | EmptyString => (0, Some ErrSyntax)
  | String c0 rest =>
      let neg := Ascii.eqb c0 "-" in
      let body := if Ascii.eqb c0 "+" || neg then rest else s in
      match ParseUint32 body with
      | (_, Some ErrSyntax) => (0, Some ErrSyntax)
      | (un, _) =>
          let cutoff := 2 ^ 31 in
          if negb neg && (un >=? cutoff) then (cutoff - 1, Some ErrRange)
          else if neg && (un >? cutoff) then (- cutoff, Some ErrRange)
          else (if neg then - un else un, None)
      end
  end.

(** [strconv.FormatInt(i, 10)] *)
Definition FormatInt (i : Z) : string :=
  NilEmpty.string_of_int (Z.to_int i).

Example ParseInt32_41 : ParseInt32 "41" = (41, None).
Proof. reflexivity. Qed.
Example ParseInt32_neg : ParseInt32 "-7" = (-7, None).
Proof. reflexivity. Qed.
Example ParseInt32_junk : ParseInt32 "4x" = (0, Some ErrSyntax).
Proof. reflexivity. Qed.
Example ParseInt32_big : ParseInt32 "2147483648" = (2147483647, Some ErrRange).
Proof. reflexivity. Qed.
Example FormatInt_42 : FormatInt 42 = "42".
Proof. reflexivity. Qed.

(** The value of a digit sequence read with an accumulator. *)
Fixpoint uint_val (d : Decimal.uint) (acc : Z) : Z :=
  match d with
  | Decimal.Nil => acc
  | Decimal.D0 l => uint_val l (acc * 10 + 0)
  | Decimal.D1 l => uint_val l (acc * 10 + 1)
  | Decimal.D2 l => uint_val l (acc * 10 + 2)
  | Decimal.D3 l => uint_val l (acc * 10 + 3)
  | Decimal.D4 l => uint_val l (acc * 10 + 4)
  | Decimal.D5 l => uint_val l (acc * 10 + 5)
  | Decimal.D6 l => uint_val l (acc * 10 + 6)
  | Decimal.D7 l => uint_val l (acc * 10 + 7)
  | Decimal.D8 l => uint_val l (acc * 10 + 8)
  | Decimal.D9 l => uint_val l (acc * 10 + 9)
  end.

Lemma uint_val_ge (d : Decimal.uint) (acc : Z) : 0 <= acc -> acc <= uint_val d acc.
Proof.
  revert acc. induction d; intros acc Hacc; simpl; try lia;
    match goal with
    | |- _ <= uint_val _ ?a => specialize (IHd a); lia
    end.
Qed.

Lemma uint_val_pos (d : Decimal.uint) (acc : positive) :
  uint_val d (Z.pos acc) = Z.pos (Pos.of_uint_acc d acc).
Proof.
  revert acc. induction d; intros acc; simpl; try reflexivity;
    rewrite <- IHd; f_equal; lia.
Qed.

Lemma uint_val_zero (d : Decimal.uint) : uint_val d 0 = Z.of_N (Pos.of_uint d).
Proof.
  induction d; simpl; try reflexivity; try assumption;
    match goal with
    | |- uint_val _ ?a = _ => change a with (Z.pos (Z.to_pos a))
    end; now rewrite uint_val_pos.
Qed.

Lemma ParseUint_loop_digit (c : ascii) (k : Z) (s : string) (acc : Z) :
  digit_of c = Some k -> acc * 10 + k <= maxVal32 ->
  ParseUint_loop (String c s) acc = ParseUint_loop s (acc * 10 + k).
Proof.
  intros Hc Hk. cbn [ParseUint_loop]. rewrite Hc. cbv zeta.
  destruct (Z.gtb_spec (acc * 10 + k) maxVal32); [lia | reflexivity].
Qed.

Lemma ParseUint_loop_uint (d : Decimal.uint) (acc : Z) :
  0 <= acc -> uint_val d acc <= maxVal32 ->
  ParseUint_loop (NilEmpty.string_of_uint d) acc = (uint_val d acc, None).
Proof.
  revert acc.
  induction d; intros acc Hacc Hmax;
    cbn [NilEmpty.string_of_uint uint_val] in *; try reflexivity;
    match type of Hmax with
    | uint_val _ (_ + ?k) <= _ =>
        pose proof (uint_val_ge d (acc * 10 + k) ltac:(lia));
        rewrite (ParseUint_loop_digit _ k) by (reflexivity || lia);
        apply IHd; lia
    end.
Qed.

(** Reading back what [FormatInt] printed, within the 32-bit range. *)
Lemma ParseInt32_FormatInt (n : Z) :
  0 <= n < 2 ^ 31 -> ParseInt32 (FormatInt n) = (n, None).
Proof.
  intros Hn. unfold FormatInt.
  assert (Hval : uint_val (N.to_uint (Z.to_N n)) 0 = n).
  { rewrite uint_val_zero.
    change (Pos.of_uint ?d) with (N.of_uint d).
    rewrite DecimalN.Unsigned.of_to. lia. }
  assert (Hint : Z.to_int n = Decimal.Pos (N.to_uint (Z.to_N n))).
  { destruct n; try reflexivity. lia. }
  rewrite Hint. simpl NilEmpty.string_of_int.
  assert (Hnil : N.to_uint (Z.to_N n) <> Decimal.Nil).
  { destruct (Z.to_N n); simpl; [discriminate | apply DecimalPos.Unsigned.to_uint_nonnil]. }
  pose proof (ParseUint_loop_uint (N.to_uint (Z.to_N n)) 0 ltac:(lia)) as Hloop.
  rewrite Hval in Hloop.
  specialize (Hloop ltac:(unfold maxVal32; lia)).
  destruct (N.to_uint (Z.to_N n)) as [|d|d|d|d|d|d|d|d|d|d] eqn:E;
    [congruence|..];
    cbn [NilEmpty.string_of_uint] in *;
    unfold ParseInt32;
    repeat match goal with
      | |- context [Ascii.eqb ?a ?b] =>
          let v := eval vm_compute in (Ascii.eqb a b) in
          change (Ascii.eqb a b) with v
      end;
    cbn [orb negb andb]; unfold ParseUint32; rewrite Hloop;
    destruct (Z.geb_spec n (2 ^ 31)); (lia || reflexivity).
Qed.

End Strconv.

(** ** Package [player]: the track types

    The declarations of [Track] and [PlaylistTrack] are in package [player],
    whose type file is not among the sources; the fields are those that
    [mpd.go] and the cache read and write. *)

Module Player.

Record Track := mkTrack {
  Uri : string;
  Artist : string;
  Title : string;
  Genre : string;
  Album : string;
  AlbumArtist : string;
  AlbumDisc : string;
  AlbumTrack : string;
  HasArt : bool;
  Duration : Z                 (* [time.Duration]: nanoseconds *)
}.

(** The zero value of [Track], as [make([]Track, n)] fills a slice. *)
Definition zeroTrack : Track := mkTrack "" "" "" "" "" "" "" "" false 0.

Record PlaylistTrack := mkPlaylistTrack {
  pt_Uri : string;
  QueuedBy : string;
  Progress : Z                 (* [time.Duration]: nanoseconds *)
}.

Definition TrackUri (t : PlaylistTrack) : string := pt_Uri t.

(** [time.Second] *)
Definition Second : Z := 1000000000.

End Player.

(** ** Package [mpd] *)

Module Mpd.
Import GoStrings Strconv Player.

Definition URI_SCHEMA : string := "mpd://".

Definition uriToMpd (uri : string) : string := TrimPrefix uri URI_SCHEMA.

Definition mpdToUri (song : string) : string :=
  if Index song "://" =? -1 then URI_SCHEMA +:+ song else song.

Example mpdToUri_file : mpdToUri "a/b.mp3" = "mpd://a/b.mp3".
Proof. reflexivity. Qed.
Example mpdToUri_stream : mpdToUri "http://x/y" = "http://x/y".
Proof. reflexivity. Qed.
Example uriToMpd_file : uriToMpd "mpd://a/b.mp3" = "a/b.mp3".
Proof. reflexivity. Qed.


(** *** The daemon, as the client library shows it

    [mpd.Attrs] is a [map[string]string]; a missing key reads as [""]. *)
Abbreviation Attrs := (gmap string string).

Definition attr (a : Attrs) (k : string) : string := default "" (a !! k).

Inductive Cmd :=
| CPing | CStatus | CPlaylistInfo | CDelete | CListAllInfo | CCurrentSong
| CStickerGet | CStickerSet | CSeekID.

(** The state of the daemon that the commands of [mpd.go] read and write,
    and what goes wrong at the moment: [failing c = Some e] makes command
    [c] answer with the error [e]. *)
Record Daemon := mkDaemon {
  queue : list Attrs;                           (* the play queue *)
  status : Attrs;                               (* what [Status] reports *)
  database : string -> list Attrs;              (* [ListAllInfo(uri)] *)
  current : Attrs;                              (* [CurrentSong] *)
  stickers : gmap (string * string) string;     (* (song, name) |-> value *)
  failing : Cmd -> option error
}.

Definition set_queue (q : list Attrs) (d : Daemon) : Daemon :=
  mkDaemon q (status d) (database d) (current d) (stickers d) (failing d).
Definition set_stickers (st : gmap (string * string) string) (d : Daemon) : Daemon :=
  mkDaemon (queue d) (status d) (database d) (current d) st (failing d).

(** A connection to the daemon, [*mpd.Client] when not nil. *)
Inductive Conn := conn (id : nat).

(** *** The player *)

(** [reusableClient]: [client] is nil once the supervisor has given up;
    [expire] is the time at which the supervisor's idle timer fires, the
    local variable [expire] of [run]. *)
Record reusableClient := mkRC {
  client : option Conn;
  reset_closed : bool;         (* [close(rc.reset)] has run *)
  conn_closed : bool;          (* [rc.client.Close()] has run *)
  expire : Z
}.

(** Of the fields of [Player], the address and password of the daemon are
    part of what a dial answers ([dial] below), and [lastVolume] is used by
    the volume methods only. *)
Record Player := mkPlayer {
  clientPool : list reusableClient;   (* buffered channel: oldest first *)
  playlist : list PlaylistTrack;
  lastTrack : string;
  emitted : list string               (* the events emitted, oldest first *)
}.

(** The player together with what surrounds it: the daemon, the answer a
    dial gets at the moment, the clock and the log. *)
Record World := mkWorld {
  pl : Player;
  mpd : Daemon;
  dial : result Conn;
  now : Z;
  logged : list error
}.

Definition set_pl (p : Player) (w : World) : World :=
  mkWorld p (mpd w) (dial w) (now w) (logged w).
Definition set_mpd (d : Daemon) (w : World) : World :=
  mkWorld (pl w) d (dial w) (now w) (logged w).
Definition set_pool (pool : list reusableClient) (w : World) : World :=
  set_pl (mkPlayer pool (playlist (pl w)) (lastTrack (pl w)) (emitted (pl w))) w.
Definition set_playlist (plist : list PlaylistTrack) (w : World) : World :=
  set_pl (mkPlayer (clientPool (pl w)) plist (lastTrack (pl w)) (emitted (pl w))) w.
Definition set_lastTrack (uri : string) (w : World) : World :=
  set_pl (mkPlayer (clientPool (pl w)) (playlist (pl w)) uri (emitted (pl w))) w.
Definition add_emitted (ev : string) (w : World) : World :=
  set_pl (mkPlayer (clientPool (pl w)) (playlist (pl w)) (lastTrack (pl w))
            (emitted (pl w) ++ [ev])) w.
Definition add_logged (e : error) (w : World) : World :=
  mkWorld (pl w) (mpd w) (dial w) (now w) (logged w ++ [e]).

(** [pl.Emit(event)] *)
Definition Emit (ev : string) : M World unit := modify (add_emitted ev).

(** [if err != nil { log.Println(err) }] *)
Definition log_if_error (err : option error) : M World unit :=
  match err with
  | Some e => modify (add_logged e)
  | None => ret tt
  end.

(** *** The keepalive supervisor, [reusableClient.run]

    One step of the [select] loop.  The timer channel is ready only once
    its time has come; a supervisor that has returned takes no step. *)
Inductive sv_event :=
| Tick (ping : option error)   (* [<-pinger.C], with what [Ping] answers *)
| TimerFired                   (* [<-expire] *)
| ResetRecv.                   (* [<-rc.reset] *)

(** [rc.client.Close(); rc.client = nil; return], and the deferred
    [close(rc.reset)]. *)
Definition shut_down (rc : reusableClient) : reusableClient :=
  mkRC None true true (expire rc).

Definition run_step (expireAfter t : Z) (ev : sv_event) (rc : reusableClient)
  : option reusableClient :=
  if reset_closed rc then None
  else match ev with
       | Tick None => Some rc
       | Tick (Some _) => Some (shut_down rc)
       | TimerFired => if expire rc <=? t then Some (shut_down rc) else None
       | ResetRecv =>
           Some (mkRC (client rc) (reset_closed rc) (conn_closed rc) (t + expireAfter))
       end.

(** A run of the supervisor: the events it handles, with their times. *)
Fixpoint run_trace (expireAfter : Z) (tr : list (Z * sv_event)) (rc : reusableClient)
  : option reusableClient :=
  match tr with
  | [] => Some rc
  | (t, ev) :: tr' =>
      match run_step expireAfter t ev rc with
      | Some rc' => run_trace expireAfter tr' rc'
      | None => None
      end
  end.

(** *** The connection pool *)

(** [cap(player.clientPool)] *)
Definition poolCap : nat := 6.

(** [time.Second * 30], the argument of [rc.run] *)
Definition expireAfter : Z := 30 * Second.

Definition newClient : M World (result reusableClient) :=
  fun w =>
    match dial w with
    | Err e => Return (Err ("Error connecting to MPD: " +:+ e)) w
    | Ok c => Return (Ok (mkRC (Some c) false false (now w + expireAfter))) w
    end.

(** [<-pl.clientPool] *)
Definition recv_pool : M World reusableClient :=
  fun w =>
    match clientPool (pl w) with
    | [] => Blocked
    | rc :: rest => Return rc (set_pool rest w)
    end.

(** [pl.clientPool <- reClient] *)
Definition send_pool (rc : reusableClient) : M World unit :=
  fun w =>
    if (length (clientPool (pl w)) <? poolCap)%nat
    then Return tt (set_pool (clientPool (pl w) ++ [rc]) w)
    else Blocked.

(** [reClient.reset <- struct{}{}]: the supervisor receives and re-arms its
    timer. *)
Definition send_reset (rc : reusableClient) : M World reusableClient :=
  fun w =>
    match run_step expireAfter (now w) ResetRecv rc with
    | Some rc' => Return rc' w
    | None => Panic "send on closed channel"
    end.

(** [withMpd], for a callback that assigns a variable [V] of its caller:
    [v0] is the variable before the call, the callback returns its value
    afterwards together with its error.  The release of the connection is
    deferred only once the connection is there. *)
Definition withMpdV {V : Type} (v0 : V)
    (fn : option Conn -> M World (V * option error)) : M World (V * option error) :=
  reClient <- recv_pool ;;
  r <- match client reClient with
       | None => newClient
       | Some _ => ret (Ok reClient)
       end ;;
  match r with
  | Err e => ret (v0, Some e)
  | Ok reClient =>
      reClient <- send_reset reClient ;;
      res <- fn (client reClient) ;;
      send_pool reClient ;;;
      ret res
  end.

(** [withMpd] for a callback that assigns nothing outside. *)
Definition withMpd (fn : option Conn -> M World (option error))
  : M World (option error) :=
  res <- withMpdV tt (fun mpdc => err <- fn mpdc ;; ret (tt, err)) ;;
  ret (snd res).

(** A step of the supervisor of the connection at position [i] of the
    pool, which runs beside the callers of [withMpd]. *)
Definition supervise (i : nat) (t : Z) (ev : sv_event) (w : World) : World :=
  match clientPool (pl w) !! i with
  | Some rc =>
      match run_step expireAfter t ev rc with
      | Some rc' => set_pool (<[i := rc']> (clientPool (pl w))) w
      | None => w
      end
  | None => w
  end.

(** *** The commands of the client library

    A command on a nil client panics; a command the daemon refuses returns
    its error; otherwise it reads or changes the daemon. *)
Definition command {A : Type} (mpdc : option Conn) (c : Cmd)
    (run : Daemon -> result A * Daemon) : M World (result A) :=
  fun w =>
    match mpdc with
    | None => Panic "invalid memory address or nil pointer dereference"
    | Some _ =>
        match failing (mpd w) c with
        | Some e => Return (Err e) w
        | None => let '(r, d) := run (mpd w) in Return r (set_mpd d w)
        end
    end.

Definition Ping (mpdc : option Conn) : M World (result unit) :=
  command mpdc CPing (fun d => (Ok tt, d)).

Definition Status (mpdc : option Conn) : M World (result Attrs) :=
  command mpdc CStatus (fun d => (Ok (status d), d)).

(** [PlaylistInfo(-1, -1)]: the whole queue. *)
Definition PlaylistInfo (mpdc : option Conn) : M World (result (list Attrs)) :=
  command mpdc CPlaylistInfo (fun d => (Ok (queue d), d)).

(** [Delete(start, end)]: removes the songs at [start <= i < end], or the
    song at [start] when [end] is negative.  What the command does to the
    queue is what its callers depend on.  The daemon also renumbers the
    song playing in its status; the status it reports afterwards is not
    modelled: no caller reads the status again after [Delete] in the same
    call, and from one iteration of the sync loop to the next the status is
    the daemon's to change. *)
Definition Delete (mpdc : option Conn) (start end_ : Z) : M World (result unit) :=
  command mpdc CDelete (fun d =>
    let end' := if end_ <? 0 then start + 1 else end_ in
    if (0 <=? start) && (start <=? end') && (end' <=? Z.of_nat (length (queue d)))
    then (Ok tt, set_queue (take (Z.to_nat start) (queue d)
                              ++ drop (Z.to_nat end') (queue d)) d)
    else (Err "Bad song index", d)).

Definition ListAllInfo (mpdc : option Conn) (uri : string)
  : M World (result (list Attrs)) :=
  command mpdc CListAllInfo (fun d => (Ok (database d uri), d)).

Definition CurrentSong (mpdc : option Conn) : M World (result Attrs) :=
  command mpdc CCurrentSong (fun d => (Ok (current d), d)).

Definition StickerGet (mpdc : option Conn) (uri name : string)
  : M World (result string) :=
  command mpdc CStickerGet (fun d =>
    match stickers d !! (uri, name) with
    | Some v => (Ok v, d)
    | None => (Err "no such sticker", d)
    end).

Definition StickerSet (mpdc : option Conn) (uri name value : string)
  : M World (result unit) :=
  command mpdc CStickerSet (fun d =>
    (Ok tt, set_stickers (<[(uri, name) := value]> (stickers d)) d)).

(** [SeekID(id, time)] moves the play position, which is not part of the
    state kept here: the elapsed time that the status reports afterwards is
    not modelled, and no caller reads the status again after [SeekID] in
    the same call. *)
Definition SeekID (mpdc : option Conn) (id time : Z) : M World (result unit) :=
  command mpdc CSeekID (fun d => (Ok tt, d)).

(** *** Helpers of [mpd.go] *)

Definition statusAttrInt (status : Attrs) (attr : string) : Z * bool :=
  match status !! attr with
  | Some str =>
      match ParseInt32 str with
      | (a64, None) => (a64, true)
      | _ => (0, false)
      end
  | None => (0, false)
  end.

Definition incrementPlayCount (uri : string) (mpdc : option Conn)
  : M World (option error) :=
  if negb (HasPrefix uri URI_SCHEMA) then ret None
  else
    r <- StickerGet mpdc (uriToMpd uri) "play-count" ;;
    let playCount := match r with
                     | Ok str => fst (ParseInt32 str)
                     | Err _ => 0
                     end in
    r' <- StickerSet mpdc (uriToMpd uri) "play-count" (FormatInt (playCount + 1)) ;;
    match r' with
    | Err e => ret (Some ("Unable to set play-count: " +:+ e))
    | Ok _ => ret None
    end.

Definition Seek (progress : Z) : M World (option error) :=
  withMpd (fun mpdc =>
    r <- Status mpdc ;;
    match r with
    | Err e => ret (Some e)
    | Ok status =>
        match statusAttrInt status "songid" with
        | (_, false) => ret None
        | (id, true) =>
            r' <- SeekID mpdc id (Z.quot progress Second) ;;
            match r' with
            | Err e => ret (Some e)
            | Ok _ => ret None
            end
        end
    end).

Definition removePlayedTracks (mpdc : option Conn) : M World (option error) :=
  r <- Status mpdc ;;
  match r with
  | Err e => ret (Some e)
  | Ok status =>
      let songIndex := fst (statusAttrInt status "song") in
      if songIndex >? 0 then
        r' <- Delete mpdc 0 songIndex ;;
        match r' with
        | Err e => ret (Some e)
        | Ok _ => ret None
        end
      else ret None
  end.

(** The loop of [playlistMatchesServer]: [i] is the index of the first
    song of [songs]. *)
Fixpoint songs_match (i : nat) (songs : list Attrs) (plist : list PlaylistTrack)
  : M World bool :=
  match songs with
  | [] => ret true
  | song :: songs' =>
      match plist !! i with
      | None => panic "index out of range"
      | Some t =>
          if negb (String.eqb (mpdToUri (attr song "file")) (TrackUri t))
          then ret false
          else songs_match (S i) songs' plist
      end
  end.

Definition playlistMatchesServer (mpdc : option Conn) (plist : list PlaylistTrack)
  : M World (bool * option error) :=
  r <- PlaylistInfo mpdc ;;
  match r with
  | Err e => ret (false, Some e)
  | Ok songs =>
      if (length plist =? length songs)%nat then
        b <- songs_match 0 songs plist ;;
        ret (b, None)
      else ret (false, None)
  end.

(** [loadPlaylist]: the URIs of the queue, each a [player.Track{Uri: ...}]. *)
Definition loadPlaylist (mpdc : option Conn) : M World (result (list string)) :=
  r <- PlaylistInfo mpdc ;;
  match r with
  | Err e => ret (Err e)
  | Ok songs => ret (Ok (map (fun song => mpdToUri (attr song "file")) songs))
  end.

(** *** The sync loop and the queries

    [InterpolatePlaylistMeta] and [InterpolateMissingFields] are functions
    of package [player] that are not among the sources: they are taken as
    given. *)
Section WithPlayerPackage.

Variable InterpolatePlaylistMeta :
  list PlaylistTrack -> list string -> list PlaylistTrack.
Variable InterpolateMissingFields : Track -> Track.

(** [case "mpd-playlist"] of [mainLoop] *)
Definition on_mpd_playlist : M World unit :=
  err <- withMpd (fun mpdc =>
    plist <- gets (fun w => playlist (pl w)) ;;
    r <- playlistMatchesServer mpdc plist ;;
    match r with
    | (_, Some e) => ret (Some e)
    | (true, None) => ret None
    | (false, None) =>
        e <- removePlayedTracks mpdc ;;
        match e with
        | Some e => ret (Some e)
        | None =>
            r <- loadPlaylist mpdc ;;
            match r with
            | Err e => ret (Some e)
            | Ok newPlistIds =>
                plist <- gets (fun w => playlist (pl w)) ;;
                let newPlist := InterpolatePlaylistMeta plist newPlistIds in
                modify (set_playlist newPlist) ;;;
                Emit "playlist" ;;;
                (if (length newPlist =? 0)%nat then Emit "playlist-end" else ret tt) ;;;
                ret None
            end
        end
    end) ;;
  log_if_error err.

(** The callback of [case "playlist"] of [mainLoop] *)
Definition on_playlist_callback (mpdc : option Conn) : M World (option error) :=
  plist <- gets (fun w => playlist (pl w)) ;;
  match plist with
  | [] => ret None
  | cur :: _ =>
      last <- gets (fun w => lastTrack (pl w)) ;;
      e <- (if negb (String.eqb last "") && negb (String.eqb last (TrackUri cur))
            then
              e1 <- (if negb (Progress cur =? 0) then Seek (Progress cur)
                     else ret None) ;;
              match e1 with
              | Some e => ret (Some e)
              | None => incrementPlayCount (TrackUri cur) mpdc
              end
            else ret None) ;;
      match e with
      | Some e => ret (Some e)
      | None => modify (set_lastTrack (TrackUri cur)) ;;; ret None
      end
  end.

(** [case "playlist"] of [mainLoop] *)
Definition on_playlist : M World unit :=
  err <- withMpd on_playlist_callback ;;
  log_if_error err.

(** [case "mpd-update"] of [mainLoop] *)
Definition on_mpd_update : M World unit :=
  err <- withMpd (fun mpdc =>
    r <- Status mpdc ;;
    match r with
    | Err e => ret (Some e)
    | Ok status =>
        match status !! "updating_db" with
        | None => Emit "tracks" ;;; ret None
        | Some _ => ret None
        end
    end) ;;
  log_if_error err.

(** One iteration of the [for] loop of [mainLoop], on the event received. *)
Definition mainLoop_step (event : string) : M World unit :=
  if String.eqb event "mpd-player" then
    Emit "playstate" ;;; Emit "progress" ;;; on_mpd_playlist
  else if String.eqb event "mpd-playlist" then on_mpd_playlist
  else if String.eqb event "playlist" then on_playlist
  else if String.eqb event "mpd-mixer" then Emit "volume"
  else if String.eqb event "mpd-update" then on_mpd_update
  else ret tt.

(** The sync loop on the events it receives, in order. *)
Fixpoint mainLoop (events : list string) : M World unit :=
  match events with
  | [] => ret tt
  | event :: events' => mainLoop_step event ;;; mainLoop events'
  end.

(** [trackFromMpdSong]: the track that [*track] holds afterwards. *)
Definition trackFromMpdSong (mpdc : option Conn) (song : Attrs) (track : Track)
  : M World Track :=
  match song !! "directory" with
  | Some _ => panic "Tried to read a directory as local file"
  | None =>
      r <- StickerGet mpdc (attr song "file") "image-nchunks" ;;
      let strNum := match r with Ok str => str | Err _ => "" end in
      let hasArt := match ParseInt32 strNum with
                    | (_, None) => true
                    | _ => false
                    end in
      let timeStr := attr song "Time" in
      duration <- (if String.eqb timeStr "" then ret (Duration track)
                   else match ParseInt32 timeStr with
                        | (d, None) => ret (d * Second)
                        | (_, Some _) => panic "strconv.ParseInt: invalid syntax"
                        end) ;;
      ret (InterpolateMissingFields
             (mkTrack (mpdToUri (attr song "file")) (attr song "Artist")
                (attr song "Title") (attr song "Genre") (attr song "Album")
                (attr song "AlbumArtist") (attr song "Disc") (attr song "Track")
                hasArt duration))
  end.

(** The loop that turns songs into tracks, shared by [Tracks] and
    [TrackInfo]: [i] is the index of the first song of [songs]; a nil song
    is [None].  Returns [numDirs] and the slice. *)
Fixpoint songs_to_tracks (mpdc : option Conn) (i numDirs : nat)
    (songs : list (option Attrs)) (tracks : list Track)
  : M World (nat * list Track) :=
  match songs with
  | [] => ret (numDirs, tracks)
  | None :: songs' => songs_to_tracks mpdc (S i) numDirs songs' tracks
  | Some song :: songs' =>
      match song !! "directory" with
      | Some _ => songs_to_tracks mpdc (S i) (S numDirs) songs' tracks
      | None =>
          match tracks !! (i - numDirs)%nat with
          | None => panic "index out of range"
          | Some slot =>
              t <- trackFromMpdSong mpdc song slot ;;
              songs_to_tracks mpdc (S i) numDirs songs'
                (<[(i - numDirs)%nat := t]> tracks)
          end
      end
  end.

(** [Player.Tracks]; the slice returned is [None] when it is nil. *)
Definition Tracks : M World (option (list Track) * option error) :=
  withMpdV None (fun mpdc =>
    r <- ListAllInfo mpdc "/" ;;
    match r with
    | Err e => ret (None, Some e)
    | Ok songs =>
        res <- songs_to_tracks mpdc 0 0 (map Some songs)
                 (replicate (length songs) zeroTrack) ;;
        let '(numDirs, tracks) := res in
        ret (Some (take (length tracks - numDirs) tracks), None)
    end).

(** The first loop of [Player.TrackInfo]: the song of each identity. *)
Fixpoint lookup_songs (mpdc : option Conn) (currentTrackUri : string)
    (identities : list string) : M World (result (list (option Attrs))) :=
  match identities with
  | [] => ret (Ok [])
  | uri :: identities' =>
      r <- (if HasPrefix uri URI_SCHEMA then
              r <- ListAllInfo mpdc (uriToMpd uri) ;;
              match r with
              | Err e => ret (Err ("Unable to get info about " +:+ uri +:+ ": " +:+ e))
              | Ok s => ret (Ok (head s))
              end
            else if (Contains uri "http://" || Contains uri "https://")
                    && String.eqb currentTrackUri uri then
              r <- CurrentSong mpdc ;;
              match r with
              | Err e => ret (Err ("Unable to get info about " +:+ uri +:+ ": " +:+ e))
              | Ok song => ret (Ok (Some (<["Album" := attr song "Name"]> song)))
              end
            else ret (Ok None)) ;;
      match r with
      | Err e => ret (Err e)
      | Ok song =>
          rest <- lookup_songs mpdc currentTrackUri identities' ;;
          match rest with
          | Err e => ret (Err e)
          | Ok songs => ret (Ok (song :: songs))
          end
      end
  end.

(** [Player.TrackInfo(identities...)]; an identity is its URI, the slice
    returned is [None] when it is nil. *)
Definition TrackInfo (identities : list string)
  : M World (option (list Track) * option error) :=
  plist <- gets (fun w => playlist (pl w)) ;;
  let currentTrackUri := match plist with
                         | [] => ""
                         | cur :: _ => TrackUri cur
                         end in
  withMpdV None (fun mpdc =>
    r <- lookup_songs mpdc currentTrackUri identities ;;
    match r with
    | Err e => ret (None, Some e)
    | Ok songs =>
        res <- songs_to_tracks mpdc 0 0 songs (replicate (length songs) zeroTrack) ;;
        let '(numDirs, tracks) := res in
        ret (Some (take (length tracks - numDirs) tracks), None)
    end).

End WithPlayerPackage.

End Mpd.

(** ** Package [player]: the track cache *)

Module Cache.
Import Player.

Section WithPlayer.

(** The embedded [Player] interface: a player with a state of type [S] and
    the two methods the cache calls.  A slice is [None] when it is nil. *)
Context {S : Type}.
Variable player_Tracks : M S (option (list Track) * option error).
Variable player_TrackInfo : string -> M S (option (list Track) * option error).

(** [index] maps a URI to a pointer into [tracks]; the elements of
    [tracks] are never written after a reload, so the map holds what the
    pointers point to.  [None] is nil. *)
Record TrackCache := mkCache {
  player : S;
  tracks : option (list Track);
  index : option (gmap string Track);
  err : option error;
  emitted : list string
}.

Definition call_player {A : Type} (m : M S A) : M TrackCache A :=
  fun c =>
    match m (player c) with
    | Return a s => Return a (mkCache s (tracks c) (index c) (err c) (emitted c))
    | Panic msg => Panic msg
    | Blocked => Blocked
    end.

(** The loop of [reloadTracks]: a later track with the same URI replaces
    an earlier one. *)
Definition build_index (ts : list Track) : gmap string Track :=
  fold_left (fun idx t => <[Uri t := t]> idx) ts ∅.

Definition reloadTracks : M TrackCache unit :=
  r <- call_player player_Tracks ;;
  match r with
  | (_, Some e) =>
      modify (fun c => mkCache (player c) None None (Some e) (emitted c))
  | (ts, None) =>
      modify (fun c => mkCache (player c) ts (option_map build_index ts)
                         (err c) (emitted c))
  end.

(** [TrackCache.Tracks], run alone: taking the locks always succeeds. *)
Definition Tracks : M TrackCache (option (list Track) * option error) :=
  ts <- gets tracks ;;
  match ts with
  | None => reloadTracks
  | Some _ => ret tt
  end ;;;
  e <- gets err ;;
  match e with
  | Some e => ret (None, Some e)
  | None => ts <- gets tracks ;; ret (ts, None)
  end.

(** The loop of [TrackCache.TrackInfo]. *)
Fixpoint resolve (uris : list string) : M TrackCache (result (list Track)) :=
  match uris with
  | [] => ret (Ok [])
  | uri :: uris' =>
      idx <- gets index ;;
      r <- match idx ≫= (fun m => m !! uri) with
           | Some track => ret (Ok track)
           | None =>
               r <- call_player (player_TrackInfo uri) ;;
               match r with
               | (_, Some e) => ret (Err e)
               | (ts, None) =>
                   match default [] ts !! 0%nat with
                   | Some t => ret (Ok t)
                   | None => panic "index out of range"
                   end
               end
           end ;;
      match r with
      | Err e => ret (Err e)
      | Ok t =>
          rest <- resolve uris' ;;
          match rest with
          | Err e => ret (Err e)
          | Ok ts => ret (Ok (t :: ts))
          end
      end
  end.

(** [TrackCache.TrackInfo], run alone. *)
Definition TrackInfo (uris : list string) : M TrackCache (result (list Track)) :=
  e <- gets err ;;
  match e with
  | Some e => ret (Err e)
  | None =>
      ts <- gets tracks ;;
      match ts with
      | None => reloadTracks
      | Some _ => ret tt
      end ;;;
      resolve uris
  end.

Definition Emit (ev : string) : M TrackCache unit :=
  modify (fun c => mkCache (player c) (tracks c) (index c) (err c) (emitted c ++ [ev])).

(** The body of the loop of [TrackCache.Run], on one event of the player. *)
Definition Run_step (event : string) : M TrackCache unit :=
  if negb (String.eqb event "tracks") then Emit event
  else reloadTracks ;;; Emit event.

(** *** [Tracks] called from several goroutines

    Each caller is at one of the statements of [Tracks]; the
    [sync.RWMutex] is the number of readers and whether a writer holds it.
    A step runs the statement of one caller, if the lock lets it.  [RLock]
    is let through whenever no writer holds the lock. *)
Inductive pc :=
| AtRLock                    (* [cache.lock.RLock()] *)
| AtCheck                    (* [if cache.tracks == nil { RUnlock() ] *)
| AtLock                     (* [cache.lock.Lock()] *)
| AtReload                   (* [cache.reloadTracks(); cache.lock.Unlock()] *)
| AtRLock2                   (* [cache.lock.RLock()], the second one *)
| AtReturn                   (* the rest, and the deferred [RUnlock] *)
| Returned (r : option (list Track) * option error).

Record Shared := mkShared {
  cache : TrackCache;
  readers : nat;
  writer : bool;
  reloads : nat                (* how often [reloadTracks] has run *)
}.

(** The statement of a caller at [p]: [None] when the caller has to wait,
    has returned, or is in a player that does not return. *)
Definition caller_step (p : pc) (sh : Shared) : option (pc * Shared) :=
  match p with
  | AtRLock =>
      if writer sh then None
      else Some (AtCheck, mkShared (cache sh) (Datatypes.S (readers sh)) false (reloads sh))
  | AtCheck =>
      match tracks (cache sh) with
      | None => Some (AtLock, mkShared (cache sh) (pred (readers sh)) (writer sh) (reloads sh))
      | Some _ => Some (AtReturn, sh)
      end
  | AtLock =>
      if writer sh || negb (readers sh =? 0)%nat then None
      else Some (AtReload, mkShared (cache sh) (readers sh) true (reloads sh))
  | AtReload =>
      match reloadTracks (cache sh) with
      | Return _ c => Some (AtRLock2, mkShared c (readers sh) false (Datatypes.S (reloads sh)))
      | _ => None
      end
  | AtRLock2 =>
      if writer sh then None
      else Some (AtReturn, mkShared (cache sh) (Datatypes.S (readers sh)) false (reloads sh))
  | AtReturn =>
      let r := match err (cache sh) with
               | Some e => (None, Some e)
               | None => (tracks (cache sh), None)
               end in
      Some (Returned r, mkShared (cache sh) (pred (readers sh)) (writer sh) (reloads sh))
  | Returned _ => None
  end.

(** A schedule names the caller that runs next; a caller that cannot run
    is passed over. *)
Fixpoint run_callers (schedule : list nat) (callers : list pc) (sh : Shared)
  : list pc * Shared :=
  match schedule with
  | [] => (callers, sh)
  | i :: schedule' =>
      match callers !! i with
      | Some p =>
          match caller_step p sh with
          | Some (p', sh') => run_callers schedule' (<[i := p']> callers) sh'
          | None => run_callers schedule' callers sh
          end
      | None => run_callers schedule' callers sh
      end
  end.

End WithPlayer.

End Cache.

(** ** Package [filter] *)

Module Filter.

Record SearchMatch := mkSearchMatch {
  Start : Z;
  End_ : Z
}.

(** A nil [Matches] reads like an empty map and [AddMatch] replaces it by
    one, so nil is the empty map here. *)
Record SearchResult := mkSearchResult {
  Track : Player.Track;
  Matches : gmap string (list SearchMatch)
}.

Definition AddMatch (sr : SearchResult) (property : string) (start end_ : Z)
  : SearchResult :=
  mkSearchResult (Track sr)
    (<[property := default [] (Matches sr !! property) ++ [mkSearchMatch start end_]]>
       (Matches sr)).

(** [NumMatches]: the loop over the map adds up the lengths; the order in
    which Go visits the keys does not show in a sum.  The lengths of slices
    that exist together cannot add up to [2^63], so no wrap-around is
    written out. *)
Definition NumMatches (sr : SearchResult) : Z :=
  map_fold (fun _ prop n => n + Z.of_nat (length prop)) 0 (Matches sr).

(** [ByNumMatches.Less(a, b)] on the elements at [a] and [b]. *)
Definition less (x y : SearchResult) : bool := NumMatches x >? NumMatches y.

(** [ByNumMatches.Len], [Less] and [Swap]; an index out of range panics,
    which is [None]. *)
Definition Len (l : list SearchResult) : Z := Z.of_nat (length l).

Definition Less (l : list SearchResult) (a b : nat) : option bool :=
  match l !! a, l !! b with
  | Some x, Some y => Some (less x y)
  | _, _ => None
  end.

Definition Swap (l : list SearchResult) (a b : nat) : option (list SearchResult) :=
  match l !! a, l !! b with
  | Some x, Some y => Some (<[b := x]> (<[a := y]> l))
  | _, _ => None
  end.

(** Modelled from the spec: the call that sorts a [ByNumMatches] for
    ranking is in the API layer, which is not among the sources.  The spec
    asks for a stable sort by descending match count; this is one, driven by
    [Less] alone: [x], which stands before the elements of [l], goes behind
    exactly those that [Less] puts strictly before it. *)
Fixpoint insert_ranked (x : SearchResult) (l : list SearchResult) : list SearchResult :=
  match l with
  | [] => [x]
  | y :: l' => if less y x then y :: insert_ranked x l' else x :: y :: l'
  end.

(** Modelled from the spec: the stable sort that ranks search results (see
    [insert_ranked]). *)
Fixpoint sort_ranked (l : list SearchResult) : list SearchResult :=
  match l with
  | [] => []
  | x :: l' => insert_ranked x (sort_ranked l')
  end.

(** *** [Tracks]: the pipeline

    The producer sends the tracks one by one over the unbuffered
    [trackStream] and closes it; each of the workers receives a track,
    applies the filter and, for a keeper, sends the result over
    [matchStream]; the caller appends what it receives until [matchStream]
    is closed, which happens when all workers are done. *)
Section Pipeline.

(** [filter.Filter(track)] *)
Variable filter : Player.Track -> SearchResult * bool.

Inductive worker :=
| Receiving                        (* at [range trackStream] *)
| Sending (res : SearchResult)     (* at [matchStream <- res] *)
| Finished.                        (* past [wg.Done()] *)

Record pipeline := mkPipeline {
  trackStream : list Player.Track;    (* the tracks not yet sent *)
  workers : list worker;
  results : list SearchResult
}.

(** The next statement of a worker. *)
Definition worker_step (w : worker) (p : pipeline) : option (worker * pipeline) :=
  match w with
  | Receiving =>
      match trackStream p with
      | track :: rest =>
          let '(res, ok) := filter track in
          Some (if ok then Sending res else Receiving,
                mkPipeline rest (workers p) (results p))
      | [] => Some (Finished, p)
      end
  | Sending res =>
      Some (Receiving, mkPipeline (trackStream p) (workers p) (results p ++ [res]))
  | Finished => None
  end.

(** A step of the pipeline: worker [i] runs its next statement. *)
Definition step (i : nat) (p : pipeline) : option pipeline :=
  match workers p !! i with
  | Some w =>
      match worker_step w p with
      | Some (w', p') =>
          Some (mkPipeline (trackStream p') (<[i := w']> (workers p')) (results p'))
      | None => None
      end
  | None => None
  end.

(** A run under a schedule, which names the worker that runs next; a
    worker that is done is passed over. *)
Fixpoint run (schedule : list nat) (p : pipeline) : pipeline :=
  match schedule with
  | [] => p
  | i :: schedule' =>
      match step i p with
      | Some p' => run schedule' p'
      | None => run schedule' p
      end
  end.

Definition is_finished (w : worker) : bool :=
  match w with
  | Finished => true
  | _ => false
  end.

(** [wg.Wait()] returns and [matchStream] is closed: the caller's loop ends
    and [Tracks] returns [results]. *)
Definition finished (p : pipeline) : bool := forallb is_finished (workers p).

(** The pipeline as [Tracks] starts it, with [numCPU] workers. *)
Definition start (numCPU : nat) (tracks : list Player.Track) : pipeline :=
  mkPipeline tracks (replicate numCPU Receiving) [].

(** What the filter keeps of a list of tracks, in the order of the list. *)
Definition kept (tracks : list Player.Track) : list SearchResult :=
  omap (fun track => let '(res, ok) := filter track in
                     if ok then Some res else None) tracks.

End Pipeline.

End Filter.

(** * Properties *)

Module UriFacts.
Import GoStrings Mpd.

(** A song path without ["://"] gets the schema, which [uriToMpd] removes
    again. *)
Lemma uriToMpd_mpdToUri_plain (s : string) :
  Index s "://" = -1 -> uriToMpd (mpdToUri s) = s.
Proof.
  intros H. unfold mpdToUri. rewrite H. simpl Z.eqb. cbv iota.
  unfold uriToMpd. apply TrimPrefix_app.
Qed.

(** C10, as amended: for every song path [s] that does not itself begin
    with the schema ["mpd://"], translating it to an internal URI with
    [mpdToUri] and back with [uriToMpd] yields [s] again. *)
Theorem uriToMpd_mpdToUri (s : string) :
  HasPrefix s URI_SCHEMA = false -> uriToMpd (mpdToUri s) = s.
Proof.
  intros Hpre. unfold mpdToUri.
  destruct (Z.eqb_spec (Index s "://") (-1)) as [Hidx|Hidx].
  - unfold uriToMpd. apply TrimPrefix_app.
  - unfold uriToMpd. now apply TrimPrefix_no_prefix.
Qed.

Lemma uriToMpd_mpdToUri_witness :
  HasPrefix "http://radio/live" URI_SCHEMA = false /\
  uriToMpd (mpdToUri "http://radio/live") = "http://radio/live".
Proof.
  split; [reflexivity | apply (uriToMpd_mpdToUri "http://radio/live"); reflexivity].
Defined.

(** C10, as stated, fails on a song path that begins with the schema: the
    path is taken for an internal URI already and loses its prefix on the
    way back. *)
Lemma uriToMpd_mpdToUri_not_identity :
  uriToMpd (mpdToUri "mpd://a") <> "mpd://a".
Proof. vm_compute. discriminate. Qed.

End UriFacts.

(** ** The filter engine *)

Module FilterFacts.
Import Filter.

(** *** Ranking *)

Lemma less_spec (x y : SearchResult) :
  less x y = true <-> NumMatches y < NumMatches x.
Proof. unfold less. rewrite Z.gtb_ltb. apply Z.ltb_lt. Qed.

Lemma NumMatches_nonneg (sr : SearchResult) : 0 <= NumMatches sr.
Proof.
  unfold NumMatches.
  apply (map_fold_weak_ind (fun n _ => 0 <= n)); [lia|].
  intros k prop m n _ Hn. lia.
Qed.

(** Each [AddMatch] counts for one. *)
Lemma NumMatches_AddMatch (sr : SearchResult) (property : string) (start end_ : Z) :
  NumMatches (AddMatch sr property start end_) = NumMatches sr + 1.
Proof.
  unfold NumMatches, AddMatch. cbn [Matches].
  set (f := fun (_ : string) (prop : list SearchMatch) n => n + Z.of_nat (length prop)).
  destruct (Matches sr !! property) as [old|] eqn:Hold; cbn [default].
  - rewrite <- (insert_delete_eq (Matches sr)).
    rewrite <- (insert_delete_id (Matches sr) property old Hold) at 2.
    rewrite !map_fold_insert_L;
      [| solve [apply lookup_delete_eq | intros; unfold f; lia] ..].
    unfold f, id. rewrite length_app. cbn [length]. lia.
  - rewrite map_fold_insert_L; [| intros; unfold f; lia | exact Hold].
    unfold f. cbn [app length]. lia.
Qed.

Lemma insert_ranked_perm (x : SearchResult) (l : list SearchResult) :
  Permutation (insert_ranked x l) (x :: l).
Proof.
  induction l as [|y l IH]; cbn [insert_ranked]; [reflexivity|].
  destruct (less y x); [|reflexivity].
  rewrite IH. apply perm_swap.
Qed.

Lemma sort_ranked_perm (l : list SearchResult) : Permutation (sort_ranked l) l.
Proof.
  induction l as [|x l IH]; cbn [sort_ranked]; [reflexivity|].
  rewrite insert_ranked_perm. now constructor.
Qed.

Definition descending (x y : SearchResult) : Prop := NumMatches x >= NumMatches y.

Lemma insert_ranked_sorted (x : SearchResult) (l : list SearchResult) :
  StronglySorted descending l -> StronglySorted descending (insert_ranked x l).
Proof.
  induction 1 as [|y l Hl IH Hy]; cbn [insert_ranked].
  - repeat constructor.
  - destruct (less y x) eqn:Hless.
    + apply less_spec in Hless. constructor; [exact IH|].
      rewrite List.Forall_forall. intros z Hz.
      apply (Permutation_in _ (insert_ranked_perm x l)) in Hz.
      destruct Hz as [<-|Hz]; [unfold descending; lia|].
      rewrite List.Forall_forall in Hy. now apply Hy.
    + assert (Hxy : NumMatches y <= NumMatches x).
      { destruct (Z.le_gt_cases (NumMatches y) (NumMatches x)) as [H|H]; [exact H|].
        apply less_spec in H. congruence. }
      constructor; [now constructor|].
      constructor; [unfold descending; lia|].
      eapply List.Forall_impl; [|exact Hy].
      intros z Hz. unfold descending in *. lia.
Qed.

Lemma sort_ranked_sorted (l : list SearchResult) :
  StronglySorted descending (sort_ranked l).
Proof.
  induction l as [|x l IH]; cbn [sort_ranked]; [constructor|].
  now apply insert_ranked_sorted.
Qed.

(** The results with [k] matches, in the order of the list. *)
Definition with_count (k : Z) (l : list SearchResult) : list SearchResult :=
  List.filter (fun r => NumMatches r =? k) l.

Lemma insert_ranked_with_count (k : Z) (x : SearchResult) (l : list SearchResult) :
  with_count k (insert_ranked x l) = with_count k (x :: l).
Proof.
  induction l as [|y l IH]; cbn [insert_ranked]; [reflexivity|].
  destruct (less y x) eqn:Hless; [|reflexivity].
  apply less_spec in Hless.
  unfold with_count in *. cbn [List.filter] in *. rewrite IH.
  destruct (Z.eqb_spec (NumMatches y) k), (Z.eqb_spec (NumMatches x) k);
    (lia || reflexivity).
Qed.

Lemma sort_ranked_with_count (k : Z) (l : list SearchResult) :
  with_count k (sort_ranked l) = with_count k l.
Proof.
  induction l as [|x l IH]; cbn [sort_ranked]; [reflexivity|].
  rewrite insert_ranked_with_count. unfold with_count in *.
  cbn [List.filter]. now rewrite IH.
Qed.

(** C7: the total match count of a result is the sum of the lengths of its
    match lists over all matched properties; ranking a list of results
    rearranges it into descending order of total match count, and results
    with equal counts keep the order they had in the list (the sort is
    stable). *)
Theorem sort_ranked_stable_descending (l : list SearchResult) :
  (forall r : SearchResult,
      NumMatches r
      = foldr (fun kv n => n + Z.of_nat (length (snd kv))) 0 (map_to_list (Matches r)))
  /\ Permutation (sort_ranked l) l
  /\ StronglySorted (fun x y => NumMatches x >= NumMatches y) (sort_ranked l)
  /\ (forall k : Z,
         List.filter (fun r => NumMatches r =? k) (sort_ranked l)
         = List.filter (fun r => NumMatches r =? k) l).
Proof.
  split; [|split; [|split]].
  - intros r. unfold NumMatches. rewrite map_fold_foldr.
    induction (map_to_list (Matches r)) as [|[key prop] kvs IH]; cbn; [reflexivity|].
    now rewrite IH.
  - apply sort_ranked_perm.
  - exact (sort_ranked_sorted l).
  - intros k. apply sort_ranked_with_count.
Qed.

End FilterFacts.

Module PipelineFacts.
Import Filter.

Section WithFilter.

Variable filter : Player.Track -> SearchResult * bool.

Abbreviation step := (step filter).
Abbreviation run := (run filter).
Abbreviation kept := (kept filter).

(** The result a worker is about to send. *)
Definition holding (w : worker) : list SearchResult :=
  match w with
  | Sending res => [res]
  | _ => []
  end.

Definition held (ws : list worker) : list SearchResult := ws ≫= holding.

(** Everything the filter keeps is in exactly one place: received by the
    caller, in the hands of a worker, or still to be sent by the producer. *)
Definition accounted (tracks : list Player.Track) (p : pipeline) : Prop :=
  Permutation (results p ++ held (workers p) ++ kept (trackStream p)) (kept tracks).

(** A worker is done only after the producer has closed [trackStream]. *)
Definition drained (p : pipeline) : Prop :=
  trackStream p = [] \/ Forall (fun w => w <> Finished) (workers p).

Lemma held_insert (ws : list worker) (i : nat) (w w' : worker) :
  ws !! i = Some w ->
  exists l1 l2,
    held ws = l1 ++ holding w ++ l2 /\
    held (<[i := w']> ws) = l1 ++ holding w' ++ l2.
Proof.
  intros Hi.
  exists (held (take i ws)), (held (drop (S i) ws)).
  pose proof (take_drop_middle ws i w Hi) as Hmid.
  split.
  - rewrite <- Hmid at 1. unfold held. now rewrite bind_app, bind_cons.
  - rewrite insert_take_drop by (eapply lookup_lt_Some; eauto).
    unfold held. now rewrite bind_app, bind_cons.
Qed.

Lemma kept_cons (track : Player.Track) (rest : list Player.Track) :
  kept (track :: rest)
  = (if snd (filter track) then [fst (filter track)] else []) ++ kept rest.
Proof.
  unfold Filter.kept. cbn [omap list_omap].
  destruct (filter track) as [res [|]]; reflexivity.
Qed.

Lemma step_accounted (tracks : list Player.Track) (i : nat) (p p' : pipeline) :
  step i p = Some p' -> accounted tracks p -> accounted tracks p'.
Proof.
  unfold Filter.step, accounted.
  destruct (workers p !! i) as [w|] eqn:Hw; [|discriminate].
  destruct w as [|res|]; cbn [worker_step].
  - destruct (trackStream p) as [|track rest] eqn:Hts.
    + intros [= <-]. cbn [trackStream workers results].
      destruct (held_insert _ _ _ Finished Hw) as (l1 & l2 & -> & ->).
      now rewrite Hts.
    + rewrite kept_cons.
      destruct (filter track) as [res ok]. intros [= <-].
      cbn [trackStream workers results fst snd].
      destruct (held_insert _ _ _ (if ok then Sending res else Receiving) Hw)
        as (l1 & l2 & -> & ->).
      intros <-. destruct ok; cbn [holding app].
      * apply Permutation_app_head. rewrite <- !app_assoc. cbn [app].
        apply Permutation_app_head.
        solve [apply Permutation_middle | symmetry; apply Permutation_middle].
      * reflexivity.
  - intros [= <-]. cbn [trackStream workers results].
    destruct (held_insert _ _ _ Receiving Hw) as (l1 & l2 & -> & ->).
    intros <-. cbn [holding app]. rewrite <- !app_assoc. cbn [app].
    apply Permutation_app_head.
        solve [apply Permutation_middle | symmetry; apply Permutation_middle].
  - discriminate.
Qed.

Lemma step_drained (i : nat) (p p' : pipeline) :
  step i p = Some p' -> drained p -> drained p'.
Proof.
  unfold Filter.step, drained.
  destruct (workers p !! i) as [w|] eqn:Hw; [|discriminate].
  destruct w as [|res|]; cbn [worker_step].
  - destruct (trackStream p) as [|track rest] eqn:Hts.
    + intros [= <-] _. now left.
    + destruct (filter track) as [res ok]. intros [= <-] [Hnil|Hall]; [discriminate|].
      right. cbn [workers]. apply Forall_insert; [exact Hall|].
      destruct ok; discriminate.
  - intros [= <-] [Hnil|Hall]; [now left|].
    right. cbn [workers]. apply Forall_insert; [exact Hall | discriminate].
  - discriminate.
Qed.

Lemma step_length (i : nat) (p p' : pipeline) :
  step i p = Some p' -> length (workers p') = length (workers p).
Proof.
  unfold Filter.step.
  destruct (workers p !! i) as [w|]; [|discriminate].
  destruct (worker_step filter w p) as [[w' p'']|] eqn:Hstep; [|discriminate].
  intros [= <-]. cbn [workers]. rewrite length_insert.
  destruct w; cbn [worker_step] in Hstep.
  - destruct (trackStream p); [now injection Hstep as <- <-|].
    destruct (filter t). now injection Hstep as <- <-.
  - now injection Hstep as <- <-.
  - discriminate.
Qed.

Lemma run_invariant (tracks : list Player.Track) (schedule : list nat) (p : pipeline) :
  accounted tracks p -> drained p ->
  accounted tracks (run schedule p) /\ drained (run schedule p)
  /\ length (workers (run schedule p)) = length (workers p).
Proof.
  revert p. induction schedule as [|i schedule IH]; intros p Hacc Hdr; cbn [Filter.run].
  - auto.
  - destruct (step i p) as [p'|] eqn:Hstep; [|now apply IH].
    destruct (IH p' (step_accounted _ _ _ _ Hstep Hacc) (step_drained _ _ _ Hstep Hdr))
      as (H1 & H2 & H3).
    rewrite (step_length _ _ _ Hstep) in H3. auto.
Qed.

Lemma start_accounted (numCPU : nat) (tracks : list Player.Track) :
  accounted tracks (start numCPU tracks).
Proof.
  unfold accounted, Filter.start. cbn [results workers trackStream app].
  assert (H : held (replicate numCPU Receiving) = []).
  { induction numCPU as [|n IH]; [reflexivity|].
    cbn [replicate]. unfold held in *. now rewrite bind_cons, IH. }
  now rewrite H.
Qed.

Lemma start_drained (numCPU : nat) (tracks : list Player.Track) :
  drained (start numCPU tracks).
Proof.
  right. cbn [Filter.start workers].
  apply Forall_replicate. discriminate.
Qed.

Lemma finished_held (ws : list worker) :
  forallb is_finished ws = true -> held ws = [] /\ Forall (fun w => w = Finished) ws.
Proof.
  induction ws as [|w ws IH]; cbn [forallb]; [now split|].
  intros [Hw Hws]%andb_true_iff. destruct (IH Hws) as [IH1 IH2].
  destruct w; try discriminate. split.
  - unfold held in *. now rewrite bind_cons, IH1.
  - now constructor.
Qed.

(** Partial correctness: when [Tracks] returns, the results are what the
    filter keeps, up to order. *)
Lemma finished_results (numCPU : nat) (tracks : list Player.Track) (schedule : list nat) :
  (0 < numCPU)%nat ->
  finished (run schedule (start numCPU tracks)) = true ->
  Permutation (results (run schedule (start numCPU tracks))) (kept tracks).
Proof.
  intros Hcpu Hfin.
  destruct (run_invariant tracks schedule (start numCPU tracks)
              (start_accounted _ _) (start_drained _ _)) as (Hacc & Hdr & Hlen).
  set (p := run schedule (start numCPU tracks)) in *.
  destruct (finished_held _ Hfin) as [Hheld Hall].
  assert (Hts : trackStream p = []).
  { destruct Hdr as [H|H]; [exact H|].
    cbn [Filter.start workers] in Hlen. rewrite length_replicate in Hlen.
    destruct (workers p) as [|w ws]; [cbn in Hlen; lia|].
    inversion H; inversion Hall; subst. congruence. }
  unfold accounted in Hacc. rewrite Hheld, Hts in Hacc.
  cbn [app] in Hacc. unfold Filter.kept in Hacc at 1. cbn in Hacc.
  now rewrite app_nil_r in Hacc.
Qed.

(** Progress: what is left to do, counted so that every step uses up some
    of it. *)
Definition weight (w : worker) : nat :=
  match w with
  | Receiving => 1
  | Sending _ => 2
  | Finished => 0
  end.

Definition work_left (p : pipeline) : nat :=
  2 * length (trackStream p) + sum_list_with weight (workers p).

Lemma weight_insert (ws : list worker) (i : nat) (w w' : worker) :
  ws !! i = Some w ->
  (sum_list_with weight (<[i := w']> ws) + weight w
   = sum_list_with weight ws + weight w')%nat.
Proof.
  intros Hi.
  rewrite insert_take_drop by (eapply lookup_lt_Some; eauto).
  rewrite <- (take_drop_middle ws i w Hi) at 3.
  rewrite !sum_list_with_app. cbn [sum_list_with]. lia.
Qed.

Lemma step_work_left (i : nat) (p p' : pipeline) :
  step i p = Some p' -> (work_left p' < work_left p)%nat.
Proof.
  unfold Filter.step, work_left.
  destruct (workers p !! i) as [w|] eqn:Hw; [|discriminate].
  destruct w as [|res|]; cbn [worker_step].
  - destruct (trackStream p) as [|track rest] eqn:Hts.
    + intros [= <-]. cbn [trackStream workers]. rewrite Hts.
      pose proof (weight_insert _ _ _ Finished Hw). cbn [weight] in *. lia.
    + destruct (filter track) as [res ok]. intros [= <-].
      cbn [trackStream workers length].
      pose proof (weight_insert _ _ _ (if ok then Sending res else Receiving) Hw).
      destruct ok; cbn [weight] in *; lia.
  - intros [= <-]. cbn [trackStream workers].
    pose proof (weight_insert _ _ _ Receiving Hw). cbn [weight] in *. lia.
  - discriminate.
Qed.

(** No deadlock: while some worker is not done, some worker can run. *)
Lemma unfinished_step (p : pipeline) :
  finished p = false -> exists i p', step i p = Some p'.
Proof.
  unfold finished, Filter.step.
  generalize (workers p) at 1 2 as ws.
  induction ws as [|w ws IH]; cbn [forallb]; [discriminate|].
  intros Hfin. destruct w as [|res|].
  - exists 0%nat. cbn [lookup list_lookup worker_step].
    destruct (trackStream p); [eauto|]. destruct (filter t); eauto.
  - exists 0%nat. cbn [lookup list_lookup worker_step]. eauto.
  - cbn [is_finished andb] in Hfin. destruct (IH Hfin) as (i & p' & Hi).
    exists (S i). cbn [lookup list_lookup].
    destruct (ws !! i) as [w|]; [|discriminate].
    destruct (worker_step filter w p) as [[w' p'']|]; [eauto | discriminate].
Qed.

(** Termination: from every state of the pipeline some schedule, of at
    most [work_left] steps, leads to the end. *)
Lemma run_finishes (p : pipeline) :
  exists schedule,
    (length schedule <= work_left p)%nat /\ finished (run schedule p) = true.
Proof.
  remember (work_left p) as n eqn:Hn.
  revert p Hn. induction n as [n IH] using lt_wf_ind. intros p Hn.
  destruct (finished p) eqn:Hfin.
  - exists []. split; [cbn; lia | exact Hfin].
  - destruct (unfinished_step p Hfin) as (i & p' & Hstep).
    pose proof (step_work_left _ _ _ Hstep) as Hlt.
    destruct (IH (work_left p') ltac:(lia) p' eq_refl) as (schedule & Hlen & Hdone).
    exists (i :: schedule). cbn [Filter.run length]. rewrite Hstep.
    split; [lia | exact Hdone].
Qed.

(** Two runs that end, with any numbers of workers and any schedules,
    return the same results up to order. *)
Lemma finished_results_any_workers (n1 n2 : nat) (tracks : list Player.Track)
    (schedule1 schedule2 : list nat) :
  (0 < n1)%nat -> (0 < n2)%nat ->
  finished (run schedule1 (Filter.start n1 tracks)) = true ->
  finished (run schedule2 (Filter.start n2 tracks)) = true ->
  Permutation (results (run schedule1 (Filter.start n1 tracks)))
    (results (run schedule2 (Filter.start n2 tracks))).
Proof.
  intros H1 H2 Hf1 Hf2.
  rewrite (finished_results n1 tracks schedule1 H1 Hf1).
  symmetry. now apply finished_results.
Qed.

(** C5: with at least one worker, [Tracks] returns under some schedule of
    its goroutines, and under every schedule under which it returns the
    list of results is, as a multiset, what the filter keeps of the
    catalogue, one result per track kept: the same for every number of
    workers and every interleaving. *)
Theorem Tracks_results (numCPU : nat) (tracks : list Player.Track) :
  (0 < numCPU)%nat ->
  (exists schedule, finished (run schedule (Filter.start numCPU tracks)) = true)
  /\ (forall schedule,
         finished (run schedule (Filter.start numCPU tracks)) = true ->
         Permutation (results (run schedule (Filter.start numCPU tracks)))
           (kept tracks)).
Proof.
  intros Hcpu. split.
  - destruct (run_finishes (Filter.start numCPU tracks)) as (schedule & _ & H).
    now exists schedule.
  - intros schedule. now apply finished_results.
Qed.

End WithFilter.

End PipelineFacts.

Module PipelineExample.
Import Player Filter.

(** The catalogue of the specification's example and a filter on the
    title, which keeps the tracks whose title starts with "Blue". *)
Definition track (uri title : string) : Player.Track :=
  mkTrack uri "" title "" "" "" "" "" false 0.

Definition catalogue : list Player.Track :=
  [track "a" "Blue Moon"; track "b" "Red Sun"; track "c" "Blue Sky"].

Definition blue (t : Player.Track) : SearchResult * bool :=
  if GoStrings.HasPrefix (Title t) "Blue"
  then (AddMatch (mkSearchResult t ∅) "title" 0 4, true)
  else (mkSearchResult t ∅, false).

Lemma Tracks_results_witness :
  (0 < 2)%nat /\
  (exists schedule, finished (run blue schedule (start 2 catalogue)) = true)
  /\ (forall schedule,
         finished (run blue schedule (start 2 catalogue)) = true ->
         Permutation (results (run blue schedule (start 2 catalogue)))
           (kept blue catalogue)).
Proof.
  split; [lia | apply (PipelineFacts.Tracks_results blue 2 catalogue); lia].
Defined.

Definition uris (l : list SearchResult) : list string :=
  map (fun r => Uri (Track r)) l.

(** One worker returns the keepers in catalogue order. *)
Example one_worker :
  let p := run blue [0; 0; 0; 0; 0; 0]%nat (start 1 catalogue) in
  finished p = true /\ uris (results p) = ["a"; "c"].
Proof. split; vm_compute; reflexivity. Qed.

(** Two workers may return them the other way round: worker 0 takes "a",
    worker 1 takes "b" and "c" and hands its result over first. *)
Example two_workers :
  let p := run blue [0; 1; 1; 1; 0; 0; 1]%nat (start 2 catalogue) in
  finished p = true /\ uris (results p) = ["c"; "a"].
Proof. split; vm_compute; reflexivity. Qed.

(** Each keeper has one match, at offsets 0 to 4 of the title; ranking
    leaves the two, which tie, in the order of the list it is given. *)
Example ranking_ties :
  map NumMatches (kept blue catalogue) = [1; 1]
  /\ uris (sort_ranked (kept blue catalogue)) = ["a"; "c"]
  /\ uris (sort_ranked
             (results (run blue [0; 1; 1; 1; 0; 0; 1]%nat (start 2 catalogue))))
     = ["c"; "a"].
Proof. repeat split; vm_compute; reflexivity. Qed.

End PipelineExample.

(** ** The connection pool and its supervisors *)

Lemma bind_Return {S A B : Type} (m : M S A) (k : A -> M S B) (s s' : S) (b : B) :
  bind m k s = Return b s' ->
  exists a s1, m s = Return a s1 /\ k a s1 = Return b s'.
Proof.
  unfold bind. destruct (m s) as [a s1| |]; [eauto | discriminate | discriminate].
Qed.

(** A computation that returns hands its result on. *)
Lemma bind_runs {S A B : Type} (m : M S A) (k : A -> M S B) (s s' : S) (a : A) :
  m s = Return a s' -> (x <- m ;; k x) s = k a s'.
Proof. intros H. unfold bind. now rewrite H. Qed.

(** Inversion of a monadic computation that returned. *)
Ltac return_inj H :=
  first [ injection H as <- <- | injection H as <- ].

Ltac minv :=
  repeat match goal with
    | H : bind _ _ _ = Return _ _ |- _ =>
        let a := fresh "a" in
        let s := fresh "s" in
        let Ha := fresh "Hm" in
        apply bind_Return in H; destruct H as (a & s & Ha & H)
    | H : ret _ _ = Return _ _ |- _ => unfold ret in H; return_inj H
    | H : gets _ _ = Return _ _ |- _ => unfold gets in H; return_inj H
    | H : modify _ _ = Return _ _ |- _ => unfold modify in H; return_inj H
    | H : panic _ _ = Return _ _ |- _ => discriminate H
    | H : Return _ _ = Return _ _ |- _ => return_inj H
    end.

Module SupervisorFacts.
Import Player Mpd.

(** The supervisor has closed the connection, marked it dead and
    returned. *)
Definition has_shut_down (rc : reusableClient) : Prop :=
  client rc = None /\ conn_closed rc = true /\ reset_closed rc = true.

(** Every event of the run comes before the timer would fire, where each
    reset re-arms the timer [expireAfter] after its own time: the
    connection keeps being used within the expiry period. *)
Fixpoint in_use (expireAfter deadline : Z) (tr : list (Z * sv_event)) : Prop :=
  match tr with
  | [] => True
  | (t, ev) :: tr' =>
      t < deadline /\
      in_use expireAfter
        (match ev with ResetRecv => t + expireAfter | _ => deadline end) tr'
  end.

Definition ping_failed (ev : sv_event) : Prop :=
  match ev with
  | Tick (Some _) => True
  | _ => False
  end.

Lemma shut_down_has_shut_down (rc : reusableClient) : has_shut_down (shut_down rc).
Proof. repeat split. Qed.

Lemma run_step_has_shut_down (expireAfter t : Z) (ev : sv_event) (rc : reusableClient) :
  has_shut_down rc -> run_step expireAfter t ev rc = None.
Proof. intros (_ & _ & H). unfold run_step. now rewrite H. Qed.

Lemma run_trace_has_shut_down (expireAfter : Z) (tr : list (Z * sv_event))
    (rc : reusableClient) :
  has_shut_down rc -> tr <> [] -> run_trace expireAfter tr rc = None.
Proof.
  intros Hrc Htr. destruct tr as [|[t ev] tr]; [congruence|].
  cbn [run_trace]. now rewrite run_step_has_shut_down.
Qed.

Lemma run_trace_in_use (expireAfter : Z) (tr : list (Z * sv_event))
    (rc rc' : reusableClient) :
  reset_closed rc = false ->
  in_use expireAfter (expire rc) tr ->
  Forall (fun e => ~ ping_failed (snd e)) tr ->
  run_trace expireAfter tr rc = Some rc' ->
  client rc' = client rc /\ conn_closed rc' = conn_closed rc
  /\ reset_closed rc' = false
  /\ Forall (fun e => snd e <> TimerFired) tr.
Proof.
  revert rc. induction tr as [|[t ev] tr IH]; intros rc Hrun Huse Hping; cbn [run_trace].
  - intros [= <-]. auto.
  - destruct Huse as [Ht Huse]. inversion Hping as [|? ? Hev Hping']; subst.
    cbn [snd] in Hev. unfold run_step. rewrite Hrun.
    destruct ev as [[e|]| |].
    + now destruct Hev.
    + intros H. destruct (IH rc Hrun Huse Hping' H) as (H1 & H2 & H3 & H4).
      repeat split; auto; try discriminate.
    + destruct (Z.leb_spec (expire rc) t); [lia | discriminate].
    + intros H.
      apply IH in H; [|reflexivity | exact Huse | exact Hping'].
      destruct H as (H1 & H2 & H3 & H4).
      repeat split; auto; try discriminate.
Qed.

(** C8: while the supervisor of a pooled connection runs, a failed ping,
    and the idle timer once its time has come, close the connection, mark
    it dead (client nil) and end the supervisor, closing the reset channel;
    a supervisor that has ended takes no further step; a reset re-arms the
    idle timer, so that in a run in which every event comes within the
    expiry period after the last reset and no ping fails, the timer never
    fires and the connection stays alive. *)
Theorem supervisor_keepalive (expireAfter : Z) (rc : reusableClient) :
  reset_closed rc = false ->
  (forall t e, exists rc',
      run_step expireAfter t (Tick (Some e)) rc = Some rc' /\ has_shut_down rc')
  /\ (forall t, expire rc <= t -> exists rc',
         run_step expireAfter t TimerFired rc = Some rc' /\ has_shut_down rc')
  /\ (forall rc', has_shut_down rc' ->
         forall t ev, run_step expireAfter t ev rc' = None)
  /\ (forall t, exists rc',
         run_step expireAfter t ResetRecv rc = Some rc'
         /\ expire rc' = t + expireAfter
         /\ client rc' = client rc /\ reset_closed rc' = false)
  /\ (forall tr rc',
         in_use expireAfter (expire rc) tr ->
         Forall (fun e => ~ ping_failed (snd e)) tr ->
         run_trace expireAfter tr rc = Some rc' ->
         client rc' = client rc /\ reset_closed rc' = false
         /\ Forall (fun e => snd e <> TimerFired) tr).
Proof.
  intros Hrun. repeat split.
  - intros t e. exists (shut_down rc). unfold run_step. rewrite Hrun.
    split; [reflexivity | apply shut_down_has_shut_down].
  - intros t Ht. exists (shut_down rc). unfold run_step. rewrite Hrun.
    destruct (Z.leb_spec (expire rc) t); [|lia].
    split; [reflexivity | apply shut_down_has_shut_down].
  - intros rc' Hrc' t ev. now apply run_step_has_shut_down.
  - intros t. eexists. unfold run_step. rewrite Hrun.
    split; [reflexivity|]. cbn. auto.
  - eapply run_trace_in_use; eauto.
  - eapply run_trace_in_use; eauto.
  - eapply run_trace_in_use; eauto.
Qed.

(** A connection used at times 10, 35 and 60 with an expiry period of 30:
    the timer, first set for time 30, never gets to fire. *)
Definition rc_fresh : reusableClient := mkRC (Some (conn 0)) false false 30.

Definition uses : list (Z * sv_event) :=
  [(4, Tick None); (10, ResetRecv); (35, ResetRecv); (60, ResetRecv)].

Lemma supervisor_keepalive_witness :
  reset_closed rc_fresh = false
  /\ in_use 30 (expire rc_fresh) uses
  /\ (exists rc', run_step 30 12 (Tick (Some "EOF")) rc_fresh = Some rc'
                  /\ has_shut_down rc')
  /\ (forall rc', run_trace 30 uses rc_fresh = Some rc' ->
                  client rc' = Some (conn 0) /\ reset_closed rc' = false
                  /\ Forall (fun e => snd e <> TimerFired) uses).
Proof.
  assert (Huse : in_use 30 (expire rc_fresh) uses) by (cbn; lia).
  pose proof (supervisor_keepalive 30 rc_fresh eq_refl) as (H1 & _ & _ & _ & H5).
  split; [reflexivity|]. split; [exact Huse|]. split; [apply H1|].
  intros rc' Hrc'. apply (H5 uses rc' Huse); [|exact Hrc'].
  repeat constructor; cbn; tauto.
Defined.

Example uses_run :
  run_trace 30 uses rc_fresh = Some (mkRC (Some (conn 0)) false false 90).
Proof. reflexivity. Qed.

(** Without the use at time 35 the timer set at time 10 fires at 40. *)
Example idle_expires :
  run_trace 30 [(10, ResetRecv); (40, TimerFired)] rc_fresh
  = Some (mkRC None true true 40).
Proof. reflexivity. Qed.

End SupervisorFacts.

Module PoolFacts.
Import Player Mpd.

(** What taking [rc] from the pool leads to, before the callback runs. *)
Inductive acquired :=
| AcqConn (c : Conn) (rc' : reusableClient)   (* a live connection, re-armed *)
| AcqErr (e : error)                          (* the dial failed *)
| AcqPanic.                                   (* a live client whose supervisor is gone *)

Definition acquire (rc : reusableClient) (w : World) : acquired :=
  match client rc with
  | None =>
      match dial w with
      | Err e => AcqErr ("Error connecting to MPD: " +:+ e)
      | Ok c => AcqConn c (mkRC (Some c) false false (now w + expireAfter))
      end
  | Some c =>
      if reset_closed rc then AcqPanic
      else AcqConn c (mkRC (Some c) false (conn_closed rc) (now w + expireAfter))
  end.

(** [withMpd] in one piece: the callback runs at most once, on a live
    connection, after a dead one has been replaced. *)
Lemma withMpdV_acquire {V : Type} (v0 : V)
    (fn : option Conn -> M World (V * option error)) (w : World) :
  withMpdV v0 fn w =
  match clientPool (pl w) with
  | [] => Blocked
  | rc :: rest =>
      match acquire rc w with
      | AcqErr e => Return (v0, Some e) (set_pool rest w)
      | AcqPanic => Panic "send on closed channel"
      | AcqConn c rc' =>
          (res <- fn (Some c) ;; send_pool rc' ;;; ret res) (set_pool rest w)
      end
  end.
Proof.
  unfold withMpdV, bind at 1, recv_pool.
  destruct (clientPool (pl w)) as [|rc rest]; [reflexivity|].
  unfold acquire, bind at 1.
  destruct (client rc) as [c|] eqn:Hc.
  - unfold ret at 1, bind at 1, send_reset, run_step. cbn [now set_pool set_pl].
    destruct (reset_closed rc); [reflexivity|]. cbn [client]. now rewrite Hc.
  - unfold newClient. cbn [dial set_pool set_pl now].
    destruct (dial w) as [c|e]; [|reflexivity].
    unfold bind at 1, send_reset, run_step. cbn [reset_closed client now]. reflexivity.
Qed.

Lemma acquire_live (rc : reusableClient) (w : World) (c : Conn) (rc' : reusableClient) :
  acquire rc w = AcqConn c rc' ->
  client rc' = Some c /\ reset_closed rc' = false
  /\ expire rc' = now w + expireAfter
  /\ (client rc = Some c \/ (client rc = None /\ dial w = Ok c)).
Proof.
  unfold acquire. destruct (client rc) as [c0|].
  - destruct (reset_closed rc); [discriminate|]. intros [= <- <-]. cbn. tauto.
  - destruct (dial w) as [c0|e]; [|discriminate]. intros [= <- <-]. cbn. tauto.
Qed.

(** The acquisition fails exactly when the connection taken is dead and
    the dial fails. *)
Lemma acquire_error (rc : reusableClient) (w : World) :
  (exists e, acquire rc w = AcqErr e) <->
  client rc = None /\ exists e, dial w = Err e.
Proof.
  unfold acquire. split.
  - intros [e He]. destruct (client rc).
    + destruct (reset_closed rc); discriminate.
    + destruct (dial w) as [|e0]; [discriminate | eauto].
  - intros [-> [e ->]]. eauto.
Qed.

Definition pool_size (w : World) : nat := length (clientPool (pl w)).

(** The pool never holds more than its capacity. *)
Lemma withMpdV_capacity {V : Type} (v0 : V)
    (fn : option Conn -> M World (V * option error)) (w w' : World)
    (res : V * option error) :
  (pool_size w <= poolCap)%nat ->
  withMpdV v0 fn w = Return res w' ->
  (pool_size w' <= poolCap)%nat.
Proof.
  intros Hcap. rewrite withMpdV_acquire. unfold pool_size in *.
  destruct (clientPool (pl w)) as [|rc rest]; [discriminate|].
  destruct (acquire rc w) as [c rc'|e|]; [| |discriminate].
  - intros H. minv. unfold send_pool in Hm0.
    destruct (length (clientPool (pl s)) <? poolCap)%nat eqn:Hlt; [|discriminate].
    apply Nat.ltb_lt in Hlt. injection Hm0 as _ <-.
    cbn [set_pool set_pl pl clientPool]. rewrite length_app. cbn [length]. lia.
  - intros [= _ <-]. cbn [set_pool set_pl pl clientPool length] in *. lia.
Qed.

(** A callback that does not put connections into the pool. *)
Definition keeps_pool {V : Type} (fn : option Conn -> M World (V * option error)) : Prop :=
  forall mpdc w res w', fn mpdc w = Return res w' -> (pool_size w' <= pool_size w)%nat.

(** No call of [withMpd] makes the pool larger than it found it: a slot
    that a failed acquisition has emptied stays empty. *)
Lemma withMpdV_never_refills {V : Type} (v0 : V)
    (fn : option Conn -> M World (V * option error)) (w w' : World)
    (res : V * option error) :
  keeps_pool fn ->
  withMpdV v0 fn w = Return res w' ->
  (pool_size w' <= pool_size w)%nat.
Proof.
  intros Hfn. rewrite withMpdV_acquire. unfold pool_size in *.
  destruct (clientPool (pl w)) as [|rc rest] eqn:Hpool; [discriminate|].
  destruct (acquire rc w) as [c rc'|e|]; [| |discriminate].
  - intros H. minv. apply Hfn in Hm. unfold send_pool in Hm0.
    destruct (length (clientPool (pl s)) <? poolCap)%nat; [|discriminate].
    injection Hm0 as _ <-. unfold pool_size in Hm.
    cbn [set_pool set_pl pl clientPool] in *. rewrite length_app. cbn [length]. lia.
  - intros [= _ <-]. cbn [set_pool set_pl pl clientPool length]. lia.
Qed.

(** The failed acquisition itself takes a slot away. *)
Lemma withMpdV_dial_error {V : Type} (v0 : V)
    (fn : option Conn -> M World (V * option error)) (w : World)
    (rc : reusableClient) (rest : list reusableClient) (e : error) :
  clientPool (pl w) = rc :: rest -> client rc = None -> dial w = Err e ->
  withMpdV v0 fn w
  = Return (v0, Some ("Error connecting to MPD: " +:+ e)) (set_pool rest w).
Proof.
  intros Hpool Hrc Hdial. rewrite withMpdV_acquire, Hpool.
  unfold acquire. now rewrite Hrc, Hdial.
Qed.

(** *** The pool after a failed dial *)

Definition live (id : nat) : reusableClient := mkRC (Some (conn id)) false false 30.
Definition dead : reusableClient := mkRC None true true 30.

Definition quiet : Daemon := mkDaemon [] ∅ (fun _ => []) ∅ ∅ (fun _ => None).

(** A full pool whose oldest connection has died, while the daemon refuses
    connections. *)
Definition world_refusing : World :=
  mkWorld (mkPlayer [dead; live 1; live 2; live 3; live 4; live 5] [] "" [])
    quiet (Err "connection refused") 40 [].

(** The daemon accepts connections again. *)
Definition redial (w : World) : World :=
  mkWorld (pl w) (mpd w) (Ok (conn 7)) 50 (logged w).

(** The callback of [Available]. *)
Definition ping (mpdc : option Conn) : M World (option error) :=
  r <- Ping mpdc ;;
  match r with
  | Err e => ret (Some e)
  | Ok _ => ret None
  end.

(** C1 fails on the code: an acquisition whose dial fails returns the
    error and leaves five connections in the pool of six, and the next
    acquisition, which succeeds, leaves five again: the slot is not filled
    by the next successful acquisition. *)
Theorem withMpd_loses_slot :
  exists w1 w2,
    withMpd ping world_refusing
    = Return (Some "Error connecting to MPD: connection refused") w1
    /\ pool_size world_refusing = 6%nat /\ pool_size w1 = 5%nat
    /\ withMpd ping (redial w1) = Return None w2
    /\ pool_size w2 = 5%nat.
Proof.
  eexists. eexists. repeat split; reflexivity.
Qed.

(** A ping of the oldest connection fails; the acquisition that follows
    dials a replacement and runs the callback on it, and the pool is full
    again afterwards. *)
Definition world_full : World :=
  mkWorld (mkPlayer [live 0; live 1; live 2; live 3; live 4; live 5] [] "" [])
    quiet (Ok (conn 7)) 40 [].

Example acquire_after_ping_failure :
  let w := supervise 0 44 (Tick (Some "EOF")) world_full in
  clientPool (pl w) !! 0%nat = Some (mkRC None true true 30)
  /\ exists w', withMpd ping w = Return None w'
                /\ clientPool (pl w')
                   = [live 1; live 2; live 3; live 4; live 5;
                      mkRC (Some (conn 7)) false false (40 + expireAfter)].
Proof. split; [reflexivity|]. eexists. split; reflexivity. Qed.

(** Six failed acquisitions empty the pool; from then on [withMpd] waits
    for a connection that never comes, whatever the daemon answers. *)
Definition world_all_dead : World :=
  mkWorld (mkPlayer [dead; dead; dead; dead; dead; dead] [] "" [])
    quiet (Err "connection refused") 40 [].

Example withMpd_blocks_when_drained :
  exists w6,
    (withMpd ping ;;; withMpd ping ;;; withMpd ping ;;;
     withMpd ping ;;; withMpd ping ;;; withMpd ping) world_all_dead
    = Return (Some "Error connecting to MPD: connection refused") w6
    /\ pool_size w6 = 0%nat
    /\ withMpd ping (redial w6) = Blocked.
Proof. eexists. repeat split; reflexivity. Qed.

End PoolFacts.

(** ** The sync loop *)

Module SyncFacts.
Import GoStrings Strconv Player Mpd PoolFacts.

(** Nothing but the pool differs. *)
Definition same_but_pool (w w' : World) : Prop :=
  mpd w' = mpd w /\ playlist (pl w') = playlist (pl w)
  /\ lastTrack (pl w') = lastTrack (pl w) /\ emitted (pl w') = emitted (pl w)
  /\ logged w' = logged w /\ dial w' = dial w /\ now w' = now w.

Lemma same_but_pool_refl (w : World) : same_but_pool w w.
Proof. repeat split. Qed.

Lemma same_but_pool_trans (w1 w2 w3 : World) :
  same_but_pool w1 w2 -> same_but_pool w2 w3 -> same_but_pool w1 w3.
Proof. unfold same_but_pool. intuition congruence. Qed.

Lemma same_but_pool_set_pool (pool : list reusableClient) (w : World) :
  same_but_pool w (set_pool pool w).
Proof. repeat split. Qed.

Lemma set_mpd_same (w : World) : set_mpd (mpd w) w = w.
Proof. now destruct w. Qed.

(** A command that returned either was refused, or ran. *)
Lemma command_Return {A : Type} (mpdc : option Conn) (c : Cmd)
    (run : Daemon -> result A * Daemon) (w w' : World) (r : result A) :
  command mpdc c run w = Return r w' ->
  (exists e, failing (mpd w) c = Some e /\ r = Err e /\ w' = w)
  \/ (failing (mpd w) c = None /\ r = fst (run (mpd w))
      /\ w' = set_mpd (snd (run (mpd w))) w).
Proof.
  unfold command. destruct mpdc; [|discriminate].
  destruct (failing (mpd w) c) as [e|].
  - intros [= <- <-]. left. eauto.
  - destruct (run (mpd w)) as [r0 d]. intros [= <- <-]. right. auto.
Qed.

(** A command that reads only. *)
Lemma query_Return {A : Type} (mpdc : option Conn) (c : Cmd) (f : Daemon -> result A)
    (w w' : World) (r : result A) :
  command mpdc c (fun d => (f d, d)) w = Return r w' ->
  w' = w /\ (r = f (mpd w) \/ exists e, failing (mpd w) c = Some e /\ r = Err e).
Proof.
  intros H. apply command_Return in H as [(e & He & -> & ->)|(Hf & -> & ->)].
  - eauto.
  - cbn [fst snd]. rewrite set_mpd_same. auto.
Qed.

Definition song_uri (song : Attrs) : string := mpdToUri (attr song "file").

Lemma songs_match_spec (songs : list Attrs) (plist : list PlaylistTrack) (i : nat)
    (w : World) :
  (i + length songs <= length plist)%nat ->
  exists b, songs_match i songs plist w = Return b w
            /\ (b = true <->
                map song_uri songs = map TrackUri (take (length songs) (drop i plist))).
Proof.
  revert i. induction songs as [|song songs IH]; intros i Hlen; cbn [songs_match length] in *.
  - exists true. split; [reflexivity|]. now rewrite take_0.
  - destruct (plist !! i) as [t|] eqn:Ht.
    2:{ apply lookup_ge_None in Ht. lia. }
    rewrite (drop_S _ _ _ Ht). cbn [take map].
    destruct (String.eqb_spec (mpdToUri (attr song "file")) (TrackUri t)) as [Heq|Hne];
      cbn [negb].
    + destruct (IH (S i) ltac:(lia)) as (b & Hb & Hiff).
      exists b. split; [exact Hb|]. rewrite Hiff. unfold song_uri at 2.
      rewrite Heq. split; [congruence | now intros [= ->]].
    + exists false. split; [reflexivity|]. unfold song_uri at 1.
      split; [discriminate | now intros [= ? _]].
Qed.

(** The daemon's queue and the local playlist have the same length and the
    same URI at each position. *)
Definition in_sync (w : World) (plist : list PlaylistTrack) : Prop :=
  map song_uri (queue (mpd w)) = map TrackUri plist.

Lemma playlistMatchesServer_spec (c : Conn) (plist : list PlaylistTrack) (w : World) :
  exists b err,
    playlistMatchesServer (Some c) plist w = Return (b, err) w
    /\ err = failing (mpd w) CPlaylistInfo
    /\ (b = true <-> failing (mpd w) CPlaylistInfo = None /\ in_sync w plist).
Proof.
  unfold playlistMatchesServer, PlaylistInfo, command, bind, in_sync.
  destruct (failing (mpd w) CPlaylistInfo) as [e|].
  - exists false, (Some e). cbn. split; [reflexivity|]. split; [reflexivity|].
    split; [discriminate | now intros [? _]].
  - rewrite set_mpd_same.
    destruct (Nat.eqb_spec (length plist) (length (queue (mpd w)))) as [Hlen|Hlen].
    + destruct (songs_match_spec (queue (mpd w)) plist 0 w ltac:(lia)) as (b & -> & Hb).
      exists b, None. split; [reflexivity|]. split; [reflexivity|].
      rewrite Hb, drop_0, <- Hlen, firstn_all. tauto.
    + exists false, None. split; [reflexivity|]. split; [reflexivity|].
      split; [discriminate|]. intros [_ Hmap]. apply (f_equal length) in Hmap.
      rewrite !length_map in Hmap. congruence.
Qed.

Section WithPlayerPackage.

Variable InterpolatePlaylistMeta :
  list PlaylistTrack -> list string -> list PlaylistTrack.

Abbreviation on_mpd_playlist := (on_mpd_playlist InterpolatePlaylistMeta).
Abbreviation mainLoop_step := (mainLoop_step InterpolatePlaylistMeta).

(** When the playlist is in sync, the handler of a playlist notification
    changes nothing but the pool, or logs the error of the acquisition. *)
Lemma on_mpd_playlist_in_sync (w w' : World) :
  failing (mpd w) CPlaylistInfo = None -> in_sync w (playlist (pl w)) ->
  on_mpd_playlist w = Return tt w' ->
  mpd w' = mpd w /\ playlist (pl w') = playlist (pl w)
  /\ lastTrack (pl w') = lastTrack (pl w) /\ emitted (pl w') = emitted (pl w).
Proof.
  intros Hfail Hsync. unfold Mpd.on_mpd_playlist, withMpd. intros H. minv.
  rewrite withMpdV_acquire in Hm0.
  destruct (clientPool (pl w)) as [|rc rest]; [discriminate|].
  destruct (acquire rc w) as [c rc'|e|]; [| |discriminate].
  - minv.
    destruct (playlistMatchesServer_spec c (playlist (pl w)) (set_pool rest w))
      as (b & err & Hpms & Herr & Hb).
    match goal with
    | Hp : playlistMatchesServer _ _ _ = Return _ _ |- _ =>
        rewrite Hpms in Hp; injection Hp as <- <-
    end.
    cbn [set_pool set_pl mpd pl playlist] in Herr, Hb. rewrite Hfail in Herr, Hb. subst err.
    replace b with true in * by (symmetry; apply Hb; auto).
    minv.
    match goal with
    | Hs : send_pool _ _ = Return _ _ |- _ =>
        unfold send_pool in Hs;
        destruct (length (clientPool (pl (set_pool rest w))) <? poolCap)%nat;
        [injection Hs as _ <- | discriminate Hs]
    end.
    cbn in H. injection H as <-. cbn. auto.
  - match goal with
    | Hr : Return _ _ = Return _ _ |- _ => injection Hr as <- <-
    end.
    cbn in H. injection H as <-. cbn. auto.
Qed.

(** C3: on the queue fetched from the daemon, [playlistMatchesServer]
    returns true if and only if the queue and the local playlist have the
    same length and the same URI at each position; and when that is so, an
    iteration of the sync loop on a playlist-changed notification (or on a
    player notification, which falls through to it) leaves the local
    playlist as it is and emits neither "playlist" nor "playlist-end". *)
Theorem playlist_notification_in_sync (w : World) :
  failing (mpd w) CPlaylistInfo = None ->
  (forall c plist, exists b,
      playlistMatchesServer (Some c) plist w = Return (b, None) w
      /\ (b = true <->
          length (queue (mpd w)) = length plist
          /\ forall i song t,
               queue (mpd w) !! i = Some song -> plist !! i = Some t ->
               mpdToUri (attr song "file") = TrackUri t))
  /\ (forall event w',
         event = "mpd-playlist" \/ event = "mpd-player" ->
         (forall c, playlistMatchesServer (Some c) (playlist (pl w)) w
                    = Return (true, None) w) ->
         mainLoop_step event w = Return tt w' ->
         playlist (pl w') = playlist (pl w)
         /\ exists new, emitted (pl w') = emitted (pl w) ++ new
                        /\ ~ In "playlist" new /\ ~ In "playlist-end" new).
Proof.
  intros Hfail. split.
  - intros c plist.
    destruct (playlistMatchesServer_spec c plist w) as (b & err & H & Herr & Hb).
    rewrite Hfail in Herr. subst err.
    exists b. split; [exact H|]. rewrite Hb. unfold in_sync.
    split.
    + intros [_ Hs]. split.
      * apply (f_equal length) in Hs. now rewrite !length_map in Hs.
      * intros i song t Hsong Ht.
        apply (f_equal (fun l => l !! i)) in Hs.
        rewrite !list_lookup_fmap, Hsong, Ht in Hs. now injection Hs.
    + intros [Hlen Hs]. split; [exact Hfail|]. apply list_eq. intros i.
      rewrite !list_lookup_fmap.
      destruct (queue (mpd w) !! i) as [song|] eqn:Hsong;
        destruct (plist !! i) as [t|] eqn:Ht; cbn.
      * f_equal. now apply (Hs i).
      * apply lookup_ge_None in Ht. apply lookup_lt_Some in Hsong. lia.
      * apply lookup_ge_None in Hsong. apply lookup_lt_Some in Ht. lia.
      * reflexivity.
  - intros event w' Hev Htrue Hstep.
    assert (Hsync : in_sync w (playlist (pl w))).
    { destruct (playlistMatchesServer_spec (conn 0) (playlist (pl w)) w)
        as (b & err & H & _ & Hb).
      rewrite (Htrue (conn 0)) in H. injection H as <- _. now apply Hb. }
    destruct Hev as [-> | ->]; cbn in Hstep.
    + apply on_mpd_playlist_in_sync in Hstep as (_ & Hp & _ & He); auto.
      split; [exact Hp|]. exists []. rewrite app_nil_r. auto.
    + unfold Emit in Hstep. minv.
      apply on_mpd_playlist_in_sync in Hstep as (_ & Hp & _ & He); auto.
      split; [exact Hp|]. exists ["playstate"; "progress"].
      cbn in He |- *. rewrite He, <- app_assoc. cbn.
      split; [reflexivity|]. split; intros [H|[H|[]]]; discriminate.
Qed.

End WithPlayerPackage.

(** *** Play counts *)

(** A callback that changes nothing but the pool. *)
Definition frames {V : Type} (fn : option Conn -> M World (V * option error)) : Prop :=
  forall c w res w', fn (Some c) w = Return res w' -> same_but_pool w w'.

Lemma withMpdV_frame {V : Type} (v0 : V)
    (fn : option Conn -> M World (V * option error)) (w w' : World)
    (res : V * option error) :
  frames fn -> withMpdV v0 fn w = Return res w' -> same_but_pool w w'.
Proof.
  intros Hfn. rewrite withMpdV_acquire.
  destruct (clientPool (pl w)) as [|rc rest]; [discriminate|].
  destruct (acquire rc w) as [c rc'|e|]; [| |discriminate].
  - intros H. minv.
    match goal with
    | Hf : fn _ _ = Return _ _, Hs : send_pool _ _ = Return _ _ |- _ =>
        apply Hfn in Hf; unfold send_pool in Hs;
        destruct (_ <? _)%nat; [injection Hs as _ <- | discriminate Hs];
        eapply same_but_pool_trans; [apply same_but_pool_set_pool|];
        eapply same_but_pool_trans; [exact Hf | apply same_but_pool_set_pool]
    end.
  - intros [= _ <-]. apply same_but_pool_set_pool.
Qed.

Lemma Seek_frame (progress : Z) (w w' : World) (e : option error) :
  Seek progress w = Return e w' -> same_but_pool w w'.
Proof.
  unfold Seek, withMpd. intros H. minv.
  match goal with
  | Hw : withMpdV _ _ _ = Return _ _ |- _ =>
      apply withMpdV_frame in Hw; [exact Hw|]
  end.
  clear. intros c w res w' H. minv.
  match goal with
  | Hs : Status _ _ = Return ?r _ |- _ =>
      unfold Status in Hs; apply query_Return in Hs as [-> _]; destruct r as [status|e]
  end; [|minv; apply same_but_pool_refl].
  destruct (statusAttrInt status "songid") as [id [|]];
    [|minv; apply same_but_pool_refl].
  minv.
  match goal with
  | Hs : SeekID _ _ _ _ = Return ?r _ |- _ =>
      unfold SeekID in Hs; apply query_Return in Hs as [-> _]; destruct r
  end; minv; apply same_but_pool_refl.
Qed.

(** The persisted play count of a URI, as [strconv.ParseInt] reads it back;
    0 when there is no sticker. *)
Definition play_count (d : Daemon) (uri : string) : Z :=
  match stickers d !! (uriToMpd uri, "play-count") with
  | Some str => fst (ParseInt32 str)
  | None => 0
  end.

Definition count_key (uri : string) : string * string := (uriToMpd uri, "play-count").

(** The count that [incrementPlayCount] starts from: 0 when the sticker
    cannot be read. *)
Definition read_count (d : Daemon) (uri : string) : Z :=
  match failing d CStickerGet with
  | Some _ => 0
  | None => play_count d uri
  end.

Definition counted (uri : string) (w : World) : World :=
  set_mpd (set_stickers
             (<[count_key uri := FormatInt (read_count (mpd w) uri + 1)]>
                (stickers (mpd w))) (mpd w)) w.

Lemma incrementPlayCount_Return (uri : string) (c : Conn) (w w' : World)
    (e : option error) :
  incrementPlayCount uri (Some c) w = Return e w' ->
  (HasPrefix uri URI_SCHEMA = false /\ e = None /\ w' = w)
  \/ (HasPrefix uri URI_SCHEMA = true /\ e <> None /\ w' = w)
  \/ (HasPrefix uri URI_SCHEMA = true /\ e = None /\ w' = counted uri w).
Proof.
  unfold incrementPlayCount.
  destruct (HasPrefix uri URI_SCHEMA); cbn [negb]; [|intros H; minv; auto].
  intros H. minv.
  match goal with
  | Hg : StickerGet _ _ _ _ = Return ?r ?s |- _ =>
      assert (Hs : s = w /\ match r with
                            | Ok str => fst (ParseInt32 str)
                            | Err _ => 0
                            end = read_count (mpd w) uri);
      [|clear Hg; destruct Hs as [-> Hcount]]
  end.
  { unfold StickerGet, command in *. unfold read_count, play_count.
    destruct (failing (mpd w) CStickerGet).
    - minv. auto.
    - destruct (stickers (mpd w) !! (uriToMpd uri, "play-count"));
        minv; rewrite set_mpd_same; auto. }
  rewrite Hcount in *.
  match goal with
  | Hs : StickerSet _ _ _ _ _ = Return ?r _ |- _ =>
      unfold StickerSet in Hs;
      apply command_Return in Hs as [(es & Hes & -> & ->)|(Hes & -> & ->)]
  end; minv.
  - right. left. repeat split. discriminate.
  - cbn [fst snd] in H. minv. right. right. split; [reflexivity|]. split; reflexivity.
Qed.

(** The head of the playlist is a track other than the one observed
    last. *)
Definition head_changed (w : World) (cur : PlaylistTrack) : bool :=
  negb (String.eqb (lastTrack (pl w)) "")
  && negb (String.eqb (lastTrack (pl w)) (TrackUri cur)).

Lemma on_playlist_callback_Return (c : Conn) (w w2 : World) (e : option error) :
  on_playlist_callback (Some c) w = Return e w2 ->
  match playlist (pl w) with
  | [] => e = None /\ w2 = w
  | cur :: _ =>
      if head_changed w cur then
        exists w1, same_but_pool w w1 /\ clientPool (pl w2) = clientPool (pl w1) /\
          ((e <> None /\ w2 = w1)
           \/ (e = None /\ HasPrefix (TrackUri cur) URI_SCHEMA = false
               /\ w2 = set_lastTrack (TrackUri cur) w1)
           \/ (e = None /\ HasPrefix (TrackUri cur) URI_SCHEMA = true
               /\ w2 = set_lastTrack (TrackUri cur) (counted (TrackUri cur) w1)))
      else e = None /\ w2 = set_lastTrack (TrackUri cur) w
  end.
Proof.
  unfold on_playlist_callback, head_changed. intros H. minv.
  destruct (playlist (pl w)) as [|cur rest]; [minv; auto|].
  minv.
  destruct (negb (lastTrack (pl w) =? "")%string
            && negb (lastTrack (pl w) =? TrackUri cur)%string).
  2:{ minv. auto. }
  minv.
  match goal with
  | Hs : (if negb (Progress cur =? 0) then _ else _) w = Return ?e1 ?w1 |- _ =>
      assert (Hw1 : same_but_pool w w1);
      [destruct (negb (Progress cur =? 0));
       [eapply Seek_frame; exact Hs | minv; apply same_but_pool_refl]
      | clear Hs; exists w1; split; [exact Hw1|]; destruct e1 as [e1|] ]
  end.
  - minv. split; [reflexivity|]. left. split; [discriminate | reflexivity].
  - match goal with
    | Hi : incrementPlayCount _ _ _ = Return _ _ |- _ =>
        apply incrementPlayCount_Return in Hi
          as [(Hp & -> & ->)|[(Hp & Hne & ->)|(Hp & -> & ->)]]
    end.
    + minv. split; [reflexivity|]. right. left. auto.
    + destruct a0 as [e0|]; [|congruence]. minv.
      split; [reflexivity|]. left. auto.
    + minv. split; [reflexivity|]. right. right. auto.
Qed.

(** An iteration on a "playlist" event, taken apart. *)
Lemma on_playlist_Return (w w' : World) :
  on_playlist w = Return tt w' ->
  (exists e, logged w' = logged w ++ [e] /\ mpd w' = mpd w)
  \/ exists c w1 w2 pool,
      same_but_pool w w1
      /\ on_playlist_callback (Some c) w1 = Return None w2
      /\ w' = set_pool pool w2.
Proof.
  unfold on_playlist, withMpd. intros H. minv.
  match goal with
  | Hw : withMpdV _ _ _ = Return _ _ |- _ => rewrite withMpdV_acquire in Hw
  end.
  destruct (clientPool (pl w)) as [|rc rest]; [discriminate|].
  destruct (acquire rc w) as [c rc'|e|]; [| |discriminate].
  - minv.
    match goal with
    | Hs : send_pool _ _ = Return _ _ |- _ =>
        unfold send_pool in Hs;
        destruct (_ <? _)%nat; [injection Hs as _ <- | discriminate Hs]
    end.
    match goal with
    | Hc : on_playlist_callback _ _ = Return ?e ?w2 |- _ =>
        destruct e as [err|]; cbn [snd log_if_error] in H; minv
    end.
    + left. exists err. cbn [add_logged logged set_pool set_pl mpd].
      match goal with
      | Hc : on_playlist_callback _ _ = Return _ _ |- _ =>
          apply on_playlist_callback_Return in Hc
      end.
      cbn [set_pool set_pl pl playlist] in *.
      destruct (playlist (pl w)) as [|cur tl]; [intuition discriminate|].
      destruct (head_changed _ cur); [|intuition discriminate].
      match goal with
      | Hc : exists _, _ |- _ =>
          destruct Hc as (w1 & (Hmpd & _ & _ & _ & Hlog & _) & _
                          & [(_ & ->)|[(He & _)|(He & _)]]); try discriminate He
      end.
      minv. unfold add_logged, set_pool, set_pl. cbn [logged mpd].
      now rewrite Hlog, Hmpd.
    + right. do 4 eexists. split; [apply (same_but_pool_set_pool rest)|].
      split; [eassumption | reflexivity].
  - minv. cbn [snd log_if_error] in H. minv. left. exists e. split; reflexivity.
Qed.

Lemma head_changed_true (w : World) (cur : PlaylistTrack) :
  head_changed w cur = true <->
  lastTrack (pl w) <> "" /\ lastTrack (pl w) <> TrackUri cur.
Proof.
  unfold head_changed. rewrite andb_true_iff, !negb_true_iff.
  destruct (String.eqb_spec (lastTrack (pl w)) "");
    destruct (String.eqb_spec (lastTrack (pl w)) (TrackUri cur));
    intuition congruence.
Qed.

Lemma play_count_counted (uri : string) (w : World) :
  failing (mpd w) CStickerGet = None ->
  0 <= play_count (mpd w) uri < 2 ^ 31 - 1 ->
  play_count (mpd (counted uri w)) uri = play_count (mpd w) uri + 1.
Proof.
  intros Hget Hrange. unfold counted, read_count. rewrite Hget.
  unfold play_count at 1, count_key. cbn [mpd set_mpd set_stickers stickers].
  rewrite lookup_insert_eq. rewrite ParseInt32_FormatInt by lia. reflexivity.
Qed.

(** What an iteration on a "playlist" event that returns has done:
    (1) when the playlist is empty, no head was observed before, or
    the head is the URI observed last, the daemon is left as it is: no play
    count changes, so a repeated notification with an unchanged head counts
    nothing; (2) when the head differs from the head observed last, has the
    "mpd://" schema, the play-count sticker can be read and the iteration
    meets no error, the play-count sticker of the head, and no other, is
    rewritten to the count read plus one, which reads back as exactly one
    more while the count is below [2^31 - 1]; (3) an iteration without
    error makes the head the URI observed last, so that the next event
    with the same head falls under (1). *)
Lemma on_playlist_counts (w w' : World) :
  on_playlist w = Return tt w' ->
  (playlist (pl w) = [] \/ lastTrack (pl w) = ""
   \/ (exists cur rest, playlist (pl w) = cur :: rest
                        /\ lastTrack (pl w) = TrackUri cur) ->
   mpd w' = mpd w)
  /\ (forall cur rest,
         playlist (pl w) = cur :: rest ->
         lastTrack (pl w) <> "" -> lastTrack (pl w) <> TrackUri cur ->
         HasPrefix (TrackUri cur) URI_SCHEMA = true ->
         failing (mpd w) CStickerGet = None ->
         logged w' = logged w ->
         stickers (mpd w')
         = <[(uriToMpd (TrackUri cur), "play-count")
               := FormatInt (play_count (mpd w) (TrackUri cur) + 1)]>
             (stickers (mpd w))
         /\ (0 <= play_count (mpd w) (TrackUri cur) < 2 ^ 31 - 1 ->
             play_count (mpd w') (TrackUri cur)
             = play_count (mpd w) (TrackUri cur) + 1))
  /\ (forall cur rest,
         playlist (pl w) = cur :: rest ->
         logged w' = logged w ->
         lastTrack (pl w') = TrackUri cur /\ playlist (pl w') = playlist (pl w)).
Proof.
  intros H. apply on_playlist_Return in H.
  destruct H as [(e & Hlog & Hmpd)|(c & w1 & w2 & pool & Hw1 & Hcb & ->)].
  { split; [auto|].
    split; intros cur rest _; intros; exfalso;
      match goal with
      | Hl : logged w' = logged w |- _ =>
          rewrite Hlog in Hl; apply (f_equal length) in Hl;
          rewrite length_app in Hl; cbn in Hl; lia
      end. }
  apply on_playlist_callback_Return in Hcb.
  destruct Hw1 as (Hmpd & Hpl & Hlast & _ & _ & _ & _).
  assert (Hch : forall cur, head_changed w1 cur = head_changed w cur).
  { intros cur. unfold head_changed. now rewrite Hlast. }
  rewrite Hpl in Hcb. cbn [set_pool set_pl mpd pl playlist lastTrack].
  split; [|split].
  - intros Hsame. destruct (playlist (pl w)) as [|cur rest] eqn:Hplist.
    + destruct Hcb as [_ ->]. exact Hmpd.
    + rewrite Hch in Hcb. destruct (head_changed w cur) eqn:Hc.
      * apply head_changed_true in Hc as [Hc1 Hc2].
        destruct Hsame as [?|[?|(cur' & rest' & [= <- <-] & ?)]]; congruence.
      * destruct Hcb as [_ ->]. exact Hmpd.
  - intros cur rest Hplist Hne1 Hne2 Hpre Hget _. rewrite Hplist, Hch in Hcb.
    replace (head_changed w cur) with true in Hcb
      by (symmetry; apply head_changed_true; auto).
    destruct Hcb as (w1' & (Hmpd' & _) & _ & [(He & _)|[(_ & Hp & _)|(_ & _ & ->)]]);
      [congruence | congruence |].
    assert (Hget' : failing (mpd w1') CStickerGet = None) by congruence.
    split.
    + unfold counted, read_count, count_key.
      cbn [set_lastTrack set_pl set_mpd mpd set_stickers stickers].
      rewrite Hget'. unfold play_count. now rewrite Hmpd', Hmpd.
    + intros Hrange.
      change (mpd (set_lastTrack (TrackUri cur) (counted (TrackUri cur) w1')))
        with (mpd (counted (TrackUri cur) w1')).
      replace (play_count (mpd w) (TrackUri cur))
        with (play_count (mpd w1') (TrackUri cur)) in * by congruence.
      now apply play_count_counted.
  - intros cur rest Hplist _. rewrite Hplist in Hcb.
    destruct (head_changed w1 cur).
    + destruct Hcb as (w1' & (_ & Hpl' & _) & _ & [(He & _)|[(_ & _ & ->)|(_ & _ & ->)]]);
        [congruence | |]; cbn; split; congruence.
    + destruct Hcb as [_ ->]. cbn. split; congruence.
Qed.

(** *** The handler of a "playlist" event returns *)

Lemma incrementPlayCount_runs (uri : string) (c : Conn) (w : World) :
  HasPrefix uri URI_SCHEMA = true -> failing (mpd w) CStickerSet = None ->
  incrementPlayCount uri (Some c) w = Return None (counted uri w).
Proof.
  intros Hpre Hset. unfold incrementPlayCount, counted, read_count, play_count, count_key.
  rewrite Hpre. cbn [negb]. unfold StickerGet, StickerSet, command, bind, ret.
  destruct (failing (mpd w) CStickerGet) as [e|].
  - now rewrite Hset.
  - destruct (stickers (mpd w) !! (uriToMpd uri, "play-count")) as [str|];
      rewrite set_mpd_same, Hset; reflexivity.
Qed.

(** [Seek] takes a connection of its own from the pool. *)
Lemma Seek_runs (progress : Z) (w : World) (rc : reusableClient)
    (rest : list reusableClient) (c : Conn) (rc' : reusableClient) :
  clientPool (pl w) = rc :: rest -> acquire rc w = AcqConn c rc' ->
  (length rest < poolCap)%nat ->
  failing (mpd w) CStatus = None -> failing (mpd w) CSeekID = None ->
  Seek progress w = Return None (set_pool (rest ++ [rc']) w).
Proof.
  intros Hpool Hacq Hcap Hstatus Hseek. apply Nat.ltb_lt in Hcap.
  unfold Seek, withMpd. unfold bind at 1. rewrite withMpdV_acquire, Hpool, Hacq.
  unfold Status, SeekID, command. unfold bind at 1 2 3.
  cbn [mpd set_pool set_pl]. rewrite Hstatus.
  destruct (statusAttrInt (status (mpd w)) "songid") as [id [|]].
  - unfold bind at 1. cbn [mpd set_mpd set_pool set_pl]. rewrite Hseek.
    unfold ret, bind, send_pool. cbn [mpd set_mpd set_pool set_pl pl clientPool snd].
    rewrite Hcap. now destruct w as [[? ? ? ?] ? ? ? ?].
  - unfold ret, bind, send_pool. cbn [mpd set_mpd set_pool set_pl pl clientPool snd].
    rewrite Hcap. now destruct w as [[? ? ? ?] ? ? ? ?].
Qed.

(** The handler, once its callback has returned without error. *)
Lemma on_playlist_runs (w w2 : World) (rc : reusableClient)
    (rest : list reusableClient) (c : Conn) (rc' : reusableClient) :
  clientPool (pl w) = rc :: rest -> acquire rc w = AcqConn c rc' ->
  on_playlist_callback (Some c) (set_pool rest w) = Return None w2 ->
  (length (clientPool (pl w2)) < poolCap)%nat ->
  on_playlist w = Return tt (set_pool (clientPool (pl w2) ++ [rc']) w2).
Proof.
  intros Hpool Hacq Hcb Hcap. apply Nat.ltb_lt in Hcap.
  unfold on_playlist, withMpd. unfold bind at 1. unfold bind at 1.
  rewrite withMpdV_acquire, Hpool, Hacq.
  unfold bind at 1. unfold bind at 1. rewrite Hcb.
  unfold ret, bind, send_pool. rewrite Hcap. reflexivity.
Qed.

(** A second connection for [Seek] can be had from what is left of the
    pool, and the daemon answers the two commands of [Seek]. *)
Definition can_seek (w : World) (rest : list reusableClient) : Prop :=
  exists rc2 rest2 c2 rc2',
    rest = rc2 :: rest2 /\ acquire rc2 w = AcqConn c2 rc2'
    /\ failing (mpd w) CStatus = None /\ failing (mpd w) CSeekID = None.

(** C2, as amended: an iteration of the sync loop on a "playlist" event,
    when a connection can be taken from the pool.  (1) When the playlist is
    empty, no head was observed before, or the head is the URI observed
    last, the iteration returns with the daemon as it was and nothing
    logged: no play count changes, so a repeated notification with an
    unchanged head counts nothing.  (2) When the head differs from the head
    observed last and has the "mpd://" schema, the daemon answers the
    commands on stickers, and either the head has no progress or a second
    connection can be taken for [Seek] and the daemon answers its
    commands, the iteration returns with nothing logged, and the play-count
    sticker of the head, and no other, is rewritten to the count read plus
    one, which reads back as exactly one more while the count is below
    [2^31 - 1].  (3) In both cases a playlist that is not empty has its
    head recorded as the URI observed last, so that the next event with the
    same head falls under (1). *)
Theorem playlist_event_play_count (w : World) (rc : reusableClient)
    (rest : list reusableClient) (c : Conn) (rc' : reusableClient) :
  clientPool (pl w) = rc :: rest -> acquire rc w = AcqConn c rc' ->
  (length rest < poolCap)%nat ->
  (playlist (pl w) = [] \/ lastTrack (pl w) = ""
   \/ (exists cur tl, playlist (pl w) = cur :: tl /\ lastTrack (pl w) = TrackUri cur) ->
   exists w',
     on_playlist w = Return tt w'
     /\ mpd w' = mpd w /\ logged w' = logged w /\ playlist (pl w') = playlist (pl w)
     /\ forall cur tl, playlist (pl w) = cur :: tl -> lastTrack (pl w') = TrackUri cur)
  /\ (forall cur tl,
         playlist (pl w) = cur :: tl ->
         lastTrack (pl w) <> "" -> lastTrack (pl w) <> TrackUri cur ->
         HasPrefix (TrackUri cur) URI_SCHEMA = true ->
         failing (mpd w) CStickerGet = None -> failing (mpd w) CStickerSet = None ->
         Progress cur = 0 \/ can_seek w rest ->
         exists w',
           on_playlist w = Return tt w'
           /\ stickers (mpd w')
              = <[(uriToMpd (TrackUri cur), "play-count")
                    := FormatInt (play_count (mpd w) (TrackUri cur) + 1)]>
                  (stickers (mpd w))
           /\ (0 <= play_count (mpd w) (TrackUri cur) < 2 ^ 31 - 1 ->
               play_count (mpd w') (TrackUri cur)
               = play_count (mpd w) (TrackUri cur) + 1)
           /\ logged w' = logged w /\ playlist (pl w') = playlist (pl w)
           /\ lastTrack (pl w') = TrackUri cur).
Proof.
  intros Hpool Hacq Hcap. split.
  - intros Hsame.
    assert (Hcb : exists w2,
               on_playlist_callback (Some c) (set_pool rest w) = Return None w2
               /\ clientPool (pl w2) = rest /\ mpd w2 = mpd w /\ logged w2 = logged w
               /\ playlist (pl w2) = playlist (pl w)
               /\ forall cur tl, playlist (pl w) = cur :: tl ->
                                 lastTrack (pl w2) = TrackUri cur).
    { unfold on_playlist_callback. unfold bind at 1, gets at 1.
      cbn [set_pool set_pl pl playlist].
      destruct (playlist (pl w)) as [|cur tl] eqn:Hplist.
      - eexists. split; [reflexivity|].
        cbn [set_pool set_pl pl clientPool mpd logged playlist].
        repeat split; [exact Hplist | intros ? ? [=]].
      - assert (Hhead : head_changed w cur = false).
        { destruct (head_changed w cur) eqn:Hc; [|reflexivity].
          apply head_changed_true in Hc as [Hc1 Hc2].
          destruct Hsame as [?|[?|(cur' & tl' & [= <- <-] & ?)]]; congruence. }
        unfold bind at 1, gets at 1. cbn [set_pool set_pl pl lastTrack].
        unfold head_changed in Hhead. rewrite Hhead.
        unfold bind, modify, ret.
        eexists. split; [reflexivity|].
        cbn [set_lastTrack set_pool set_pl pl clientPool mpd logged playlist lastTrack].
        repeat split; [exact Hplist | now intros cur' tl' [= <- <-]]. }
    destruct Hcb as (w2 & Hcb & Hp2 & Hm2 & Hl2 & Hpl2 & Hlast2).
    exists (set_pool (clientPool (pl w2) ++ [rc']) w2).
    split; [apply (on_playlist_runs w w2 rc rest c rc' Hpool Hacq Hcb); now rewrite Hp2|].
    cbn [set_pool set_pl mpd logged pl playlist lastTrack]. auto.
  - intros cur tl Hplist Hne1 Hne2 Hpre Hget Hset Hseek.
    assert (Hhead : head_changed w cur = true) by (apply head_changed_true; auto).
    assert (Hsk : exists w1,
               (if negb (Progress cur =? 0) then Seek (Progress cur) else ret None)
                 (set_pool rest w) = Return None w1
               /\ length (clientPool (pl w1)) = length rest /\ mpd w1 = mpd w
               /\ logged w1 = logged w /\ playlist (pl w1) = playlist (pl w)).
    { destruct (Z.eqb_spec (Progress cur) 0) as [Hz|Hnz]; cbn [negb].
      - eexists. split; [reflexivity|]. auto.
      - destruct Hseek as [Hz|(rc2 & rest2 & c2 & rc2' & -> & Hacq2 & Hstatus & Hsid)];
          [contradiction|].
        cbn [length] in Hcap.
        exists (set_pool (rest2 ++ [rc2']) (set_pool (rc2 :: rest2) w)).
        split; [apply (Seek_runs (Progress cur) (set_pool (rc2 :: rest2) w)
                         rc2 rest2 c2 rc2' eq_refl Hacq2); [lia | | ]; assumption|].
        cbn [set_pool set_pl pl clientPool mpd logged playlist].
        rewrite length_app. cbn [length]. repeat split. lia. }
    destruct Hsk as (w1 & Hsk & Hp1 & Hm1 & Hl1 & Hpl1).
    assert (Hcb : on_playlist_callback (Some c) (set_pool rest w)
                  = Return None (set_lastTrack (TrackUri cur) (counted (TrackUri cur) w1))).
    { unfold on_playlist_callback. unfold bind at 1, gets at 1.
      cbn [set_pool set_pl pl playlist]. rewrite Hplist.
      unfold bind at 1, gets at 1. cbn [set_pool set_pl pl lastTrack].
      unfold head_changed in Hhead. rewrite Hhead.
      unfold bind at 1. unfold bind at 1.
      change (mkWorld _ (mpd w) (dial w) (now w) (logged w)) with (set_pool rest w).
      rewrite Hsk.
      rewrite (incrementPlayCount_runs (TrackUri cur) c w1 Hpre ltac:(now rewrite Hm1)).
      reflexivity. }
    exists (set_pool (clientPool (pl w1) ++ [rc'])
              (set_lastTrack (TrackUri cur) (counted (TrackUri cur) w1))).
    split.
    { apply (on_playlist_runs w _ rc rest c rc' Hpool Hacq Hcb).
      cbn [set_lastTrack counted set_pl set_mpd pl clientPool]. lia. }
    cbn [set_pool set_lastTrack set_pl mpd logged pl playlist lastTrack].
    assert (Hget1 : failing (mpd w1) CStickerGet = None) by now rewrite Hm1.
    split; [|split].
    + unfold counted, read_count, count_key. cbn [set_mpd mpd set_stickers stickers].
      rewrite Hget1. unfold play_count. now rewrite Hm1.
    + intros Hrange. rewrite <- Hm1 in Hrange |- *.
      now apply play_count_counted.
    + unfold counted. cbn [set_mpd logged pl playlist]. auto.
Qed.

End SyncFacts.

Module SyncExamples.
Import GoStrings Strconv Player Mpd PoolFacts SyncFacts.

Definition song (file : string) : Attrs := {[ "file" := file ]}.

(** A daemon that plays [b.mp3], counted 41 times so far, before [c.mp3]. *)
Definition daemon_b : Daemon :=
  mkDaemon [song "b.mp3"; song "c.mp3"] ∅ (fun _ => []) ∅
    {[ ("b.mp3", "play-count") := "41" ]} (fun _ => None).

(** The player has seen [a.mp3] at the head; the playlist now starts with
    [b.mp3]. *)
Definition world_a_then_b : World :=
  mkWorld (mkPlayer [live 1; live 2]
             [mkPlaylistTrack "mpd://b.mp3" "system" 0;
              mkPlaylistTrack "mpd://c.mp3" "" 0]
             "mpd://a.mp3" [])
    daemon_b (Ok (conn 9)) 40 [].

Definition world_b_counted : World :=
  mkWorld (mkPlayer [live 2; mkRC (Some (conn 1)) false false (40 + expireAfter)]
             [mkPlaylistTrack "mpd://b.mp3" "system" 0;
              mkPlaylistTrack "mpd://c.mp3" "" 0]
             "mpd://b.mp3" [])
    (set_stickers (<[("b.mp3", "play-count") := "42"]> (stickers daemon_b)) daemon_b)
    (Ok (conn 9)) 40 [].

Example on_playlist_a_then_b : on_playlist world_a_then_b = Return tt world_b_counted.
Proof. vm_compute. reflexivity. Qed.

(** The same change of head, to a track that is to resume at 5 s while the
    daemon plays song 7: [Seek] takes the second connection of the pool. *)
Definition world_a_then_b_resumed : World :=
  mkWorld (mkPlayer [live 1; live 2]
             [mkPlaylistTrack "mpd://b.mp3" "system" (5 * Second);
              mkPlaylistTrack "mpd://c.mp3" "" 0]
             "mpd://a.mp3" [])
    (mkDaemon [song "b.mp3"; song "c.mp3"] {[ "songid" := "7" ]} (fun _ => []) ∅
       {[ ("b.mp3", "play-count") := "41" ]} (fun _ => None))
    (Ok (conn 9)) 40 [].

Lemma playlist_event_play_count_witness :
  (exists w',
      on_playlist world_a_then_b = Return tt w'
      /\ stickers (mpd w')
         = <[("b.mp3", "play-count") := "42"]> (stickers (mpd world_a_then_b))
      /\ play_count (mpd w') "mpd://b.mp3" = 42
      /\ lastTrack (pl w') = "mpd://b.mp3" /\ logged w' = [])
  /\ (exists w',
         on_playlist world_a_then_b_resumed = Return tt w'
         /\ play_count (mpd w') "mpd://b.mp3" = 42
         /\ lastTrack (pl w') = "mpd://b.mp3" /\ logged w' = []).
Proof.
  split.
  - destruct (playlist_event_play_count world_a_then_b (live 1) [live 2] (conn 1)
                (mkRC (Some (conn 1)) false false (40 + expireAfter))
                eq_refl eq_refl ltac:(unfold poolCap; simpl; lia)) as [_ Hcount].
    destruct (Hcount (mkPlaylistTrack "mpd://b.mp3" "system" 0)
                [mkPlaylistTrack "mpd://c.mp3" "" 0] eq_refl
                ltac:(discriminate) ltac:(discriminate) eq_refl eq_refl eq_refl
                (or_introl eq_refl))
      as (w' & Hrun & Hst & Hpc & Hlog & _ & Hlast).
    exists w'. split; [exact Hrun|]. split; [exact Hst|].
    split; [|split; [exact Hlast | exact Hlog]].
    cbn [TrackUri pt_Uri] in Hpc.
    rewrite Hpc; [reflexivity|].
    split; [vm_compute; discriminate | vm_compute; reflexivity].
  - destruct (playlist_event_play_count world_a_then_b_resumed (live 1) [live 2] (conn 1)
                (mkRC (Some (conn 1)) false false (40 + expireAfter))
                eq_refl eq_refl ltac:(unfold poolCap; simpl; lia)) as [_ Hcount].
    destruct (Hcount (mkPlaylistTrack "mpd://b.mp3" "system" (5 * Second))
                [mkPlaylistTrack "mpd://c.mp3" "" 0] eq_refl
                ltac:(discriminate) ltac:(discriminate) eq_refl eq_refl eq_refl)
      as (w' & Hrun & _ & Hpc & Hlog & _ & Hlast).
    { right. exists (live 2), [], (conn 2),
        (mkRC (Some (conn 2)) false false (40 + expireAfter)).
      repeat split; reflexivity. }
    exists w'. split; [exact Hrun|].
    split; [|split; [exact Hlast | exact Hlog]].
    cbn [TrackUri pt_Uri] in Hpc.
    rewrite Hpc; [reflexivity|].
    split; [vm_compute; discriminate | vm_compute; reflexivity].
Defined.

(** A second "playlist" event with the same head counts nothing. *)
Example on_playlist_again :
  exists w', on_playlist world_b_counted = Return tt w'
             /\ mpd w' = mpd world_b_counted.
Proof. eexists. split; vm_compute; reflexivity. Qed.

(** The head changes from a file to a network stream. *)
Definition world_a_then_stream : World :=
  mkWorld (mkPlayer [live 1; live 2]
             [mkPlaylistTrack "http://radio/live" "system" 0]
             "mpd://a.mp3" [])
    daemon_b (Ok (conn 9)) 40 [].

Definition world_stream_seen : World :=
  mkWorld (mkPlayer [live 2; mkRC (Some (conn 1)) false false (40 + expireAfter)]
             [mkPlaylistTrack "http://radio/live" "system" 0]
             "http://radio/live" [])
    daemon_b (Ok (conn 9)) 40 [].

(** C2, as stated, fails when the head changes to a URI without the
    "mpd://" schema: the iteration runs without error, records the new
    head, and leaves every play count as it was. *)
Lemma stream_head_not_counted :
  on_playlist world_a_then_stream = Return tt world_stream_seen
  /\ lastTrack (pl world_a_then_stream) <> "http://radio/live"
  /\ lastTrack (pl world_a_then_stream) <> ""
  /\ lastTrack (pl world_stream_seen) = "http://radio/live"
  /\ logged world_stream_seen = []
  /\ stickers (mpd world_stream_seen) = stickers (mpd world_a_then_stream)
  /\ play_count (mpd world_stream_seen) "http://radio/live"
     <> play_count (mpd world_a_then_stream) "http://radio/live" + 1.
Proof.
  split; [vm_compute; reflexivity|].
  repeat split; discriminate.
Qed.

(** A count at the top of the 32-bit range is read back as [2^31 - 1] with
    a range error that is dropped, and written again as it was. *)
Example count_saturates :
  let d := set_stickers {[ ("b.mp3", "play-count") := "2147483648" ]} daemon_b in
  exists w', incrementPlayCount "mpd://b.mp3" (Some (conn 1))
               (mkWorld (mkPlayer [] [] "" []) d (Ok (conn 9)) 40 [])
             = Return None w'
             /\ stickers (mpd w') = stickers d.
Proof. eexists. split; vm_compute; reflexivity. Qed.

(** A sticker that cannot be read counts as 0: the count starts again. *)
Example unread_count_restarts :
  let d := mkDaemon [] ∅ (fun _ => []) ∅ {[ ("b.mp3", "play-count") := "41" ]}
             (fun c => match c with CStickerGet => Some "timeout" | _ => None end) in
  exists w', incrementPlayCount "mpd://b.mp3" (Some (conn 1))
               (mkWorld (mkPlayer [] [] "" []) d (Ok (conn 9)) 40 [])
             = Return None w'
             /\ stickers (mpd w') = {[ ("b.mp3", "play-count") := "1" ]}.
Proof. eexists. split; vm_compute; reflexivity. Qed.

(** The playlist of [world_b_counted] is what the daemon has queued. *)
Definition all_default (plist : list PlaylistTrack) (ids : list string)
  : list PlaylistTrack :=
  map (fun uri => mkPlaylistTrack uri "" 0) ids.

Lemma playlist_notification_in_sync_witness :
  failing (mpd world_b_counted) CPlaylistInfo = None
  /\ (forall c, playlistMatchesServer (Some c) (playlist (pl world_b_counted))
                  world_b_counted
                = Return (true, None) world_b_counted)
  /\ (forall w', mainLoop_step all_default "mpd-player" world_b_counted = Return tt w' ->
                 playlist (pl w') = playlist (pl world_b_counted)
                 /\ exists new, emitted (pl w') = emitted (pl world_b_counted) ++ new
                                /\ ~ In "playlist" new /\ ~ In "playlist-end" new).
Proof.
  assert (Htrue : forall c, playlistMatchesServer (Some c)
                              (playlist (pl world_b_counted)) world_b_counted
                            = Return (true, None) world_b_counted)
    by (intros c; vm_compute; reflexivity).
  split; [reflexivity|]. split; [exact Htrue|].
  intros w' Hstep.
  destruct (playlist_notification_in_sync all_default world_b_counted eq_refl) as [_ H].
  apply (H "mpd-player" w'); [now right | exact Htrue | exact Hstep].
Defined.

Example mpd_player_in_sync :
  exists w', mainLoop_step all_default "mpd-player" world_b_counted = Return tt w'
             /\ emitted (pl w') = ["playstate"; "progress"].
Proof. eexists. split; vm_compute; reflexivity. Qed.

(** Out of sync, the playlist is replaced and "playlist" is emitted. *)
Example mpd_playlist_out_of_sync :
  exists w', mainLoop_step all_default "mpd-playlist" world_a_then_stream = Return tt w'
             /\ map TrackUri (playlist (pl w')) = ["mpd://b.mp3"; "mpd://c.mp3"]
             /\ emitted (pl w') = ["playlist"].
Proof. eexists. split; [|split]; vm_compute; reflexivity. Qed.

End SyncExamples.

(** ** The track cache *)

Module CacheFacts.
Import Player Cache.

Section WithPlayer.

Context {S : Type}.
Variable player_Tracks : M S (option (list Track) * option error).
Variable player_TrackInfo : string -> M S (option (list Track) * option error).

Abbreviation reloadTracks := (reloadTracks player_Tracks).
Abbreviation Tracks := (Tracks player_Tracks).
Abbreviation TrackInfo := (TrackInfo player_Tracks player_TrackInfo).
Abbreviation Run_step := (Run_step player_Tracks).

Lemma reloadTracks_failure (c : TrackCache) (s' : S) (ts : option (list Track))
    (e : error) :
  player_Tracks (player c) = Return (ts, Some e) s' ->
  reloadTracks c = Return tt (mkCache s' None None (Some e) (emitted c)).
Proof.
  intros H. unfold Cache.reloadTracks, bind, call_player. now rewrite H.
Qed.

Lemma reloadTracks_success (c : TrackCache) (s' : S) (ts : option (list Track)) :
  player_Tracks (player c) = Return (ts, None) s' ->
  reloadTracks c
  = Return tt (mkCache s' ts (option_map build_index ts) (err c) (emitted c)).
Proof.
  intros H. unfold Cache.reloadTracks, bind, call_player. now rewrite H.
Qed.

(** C4, as amended: when a reload fails, the error is stored and the
    cached track list and index are both set to nil; while an error is
    stored, [TrackInfo] returns it and leaves the cache and the player
    alone; [Tracks], finding the list nil, runs the reload itself, without
    any "tracks" event, and when that reload fails too it stores and
    returns the new error; a "tracks" event runs the reload as well. *)
Theorem reload_failure_surfaces (c : TrackCache) :
  (forall s' ts e,
      player_Tracks (player c) = Return (ts, Some e) s' ->
      reloadTracks c = Return tt (mkCache s' None None (Some e) (emitted c)))
  /\ (forall e uris, err c = Some e -> TrackInfo uris c = Return (Err e) c)
  /\ (forall s' ts e,
         tracks c = None ->
         player_Tracks (player c) = Return (ts, Some e) s' ->
         Tracks c = Return (None, Some e) (mkCache s' None None (Some e) (emitted c)))
  /\ (forall s' ts e,
         player_Tracks (player c) = Return (ts, Some e) s' ->
         Run_step "tracks" c
         = Return tt (mkCache s' None None (Some e) (emitted c ++ ["tracks"]))).
Proof.
  split; [|split; [|split]].
  - intros s' ts e. apply reloadTracks_failure.
  - intros e uris He. unfold Cache.TrackInfo, bind, gets. now rewrite He.
  - intros s' ts e Hnil Hfail. unfold Cache.Tracks, bind at 1, gets at 1.
    rewrite Hnil. unfold bind at 1.
    rewrite (reloadTracks_failure _ _ _ _ Hfail). reflexivity.
  - intros s' ts e Hfail. unfold Cache.Run_step. cbn [String.eqb Ascii.eqb Bool.eqb negb].
    unfold bind. now rewrite (reloadTracks_failure _ _ _ _ Hfail).
Qed.

End WithPlayer.

(** *** A player that fails once *)

(** The state of the player is the number of calls of [Tracks] so far:
    the first call fails, the later ones return a one-track catalogue. *)
Definition track_a : Track := mkTrack "mpd://a.mp3" "" "A" "" "" "" "" "" false 0.

Definition flaky_Tracks : M nat (option (list Track) * option error) :=
  fun calls =>
    Return (if (calls =? 0)%nat then (None, Some "connection refused")
            else (Some [track_a], None)) (Datatypes.S calls).

Definition no_TrackInfo (uri : string) : M nat (option (list Track) * option error) :=
  fun calls => Return (None, Some "no such song") calls.

Definition cache_empty : TrackCache := mkCache 0%nat None None None [].

(** The cache after the first reload, which failed. *)
Definition cache_failed : TrackCache :=
  mkCache 1%nat None None (Some "connection refused") [].

(** The cache after a reload that succeeded. *)
Definition cache_loaded : TrackCache :=
  mkCache 2%nat (Some [track_a]) (Some (build_index [track_a]))
    (Some "connection refused") [].

Lemma reload_failure_surfaces_witness :
  err cache_failed = Some "connection refused"
  /\ tracks cache_empty = None
  /\ flaky_Tracks (player cache_empty) = Return (None, Some "connection refused") 1%nat
  /\ Tracks flaky_Tracks cache_empty
     = Return (None, Some "connection refused") cache_failed
  /\ TrackInfo flaky_Tracks no_TrackInfo ["mpd://a.mp3"] cache_failed
     = Return (Err "connection refused") cache_failed.
Proof.
  destruct (reload_failure_surfaces flaky_Tracks no_TrackInfo cache_empty)
    as (_ & _ & Hretry & _).
  destruct (reload_failure_surfaces flaky_Tracks no_TrackInfo cache_failed)
    as (_ & Hinfo & _ & _).
  split; [reflexivity|]. split; [reflexivity|]. split; [reflexivity|].
  split.
  - apply (Hretry 1%nat None "connection refused"); reflexivity.
  - apply Hinfo. reflexivity.
Defined.

(** C4, as stated, fails: after a failed reload a plain [Tracks] call, with
    no "tracks" event, reloads, here with success; and the stored error is
    returned by that call and by the reads after it, the successful reload
    notwithstanding. *)
Lemma reload_without_tracks_event :
  Tracks flaky_Tracks cache_failed
  = Return (None, Some "connection refused") cache_loaded
  /\ tracks cache_loaded = Some [track_a]
  /\ Tracks flaky_Tracks cache_loaded
     = Return (None, Some "connection refused") cache_loaded
  /\ TrackInfo flaky_Tracks no_TrackInfo ["mpd://a.mp3"] cache_loaded
     = Return (Err "connection refused") cache_loaded.
Proof. repeat split. Qed.

(** *** Concurrent callers *)

(** A player that always answers with the catalogue; its state counts the
    calls of [Tracks]. *)
Definition steady_Tracks : M nat (option (list Track) * option error) :=
  fun calls => Return (Some [track_a], None) (Datatypes.S calls).

Definition shared_empty : @Shared nat := mkShared cache_empty 0 false 0.

(** Two callers take the read lock one after the other, both find the
    list nil, and each then takes the write lock and reloads. *)
Definition both_see_nil : list nat := [0; 1; 0; 1; 0; 0; 1; 1; 0; 0; 1; 1]%nat.

(** The cache that holds the catalogue, after [calls] calls of the
    player. *)
Definition cache_steady (calls : nat) : TrackCache :=
  mkCache calls (Some [track_a]) (Some (build_index [track_a])) None [].

(** C6 fails on the code: two callers of [Tracks] on an empty cache, each
    of which checks the list before the other has reloaded, reload twice;
    both calls return the catalogue, and the player has been asked
    twice. *)
Theorem two_callers_reload_twice :
  run_callers steady_Tracks both_see_nil [AtRLock; AtRLock] shared_empty
  = ([Returned (Some [track_a], None); Returned (Some [track_a], None)],
     mkShared (cache_steady 2) 0 false 2).
Proof. vm_compute. reflexivity. Qed.

(** Three callers that all find the list nil reload three times. *)
Example three_callers_reload_thrice :
  run_callers steady_Tracks
    [0; 1; 2; 0; 1; 2; 0; 0; 1; 1; 2; 2; 0; 0; 1; 1; 2; 2]%nat
    [AtRLock; AtRLock; AtRLock] shared_empty
  = ([Returned (Some [track_a], None); Returned (Some [track_a], None);
      Returned (Some [track_a], None)],
     mkShared (cache_steady 3) 0 false 3).
Proof. vm_compute. reflexivity. Qed.

(** One caller after the other reloads once. *)
Example two_callers_in_turn :
  run_callers steady_Tracks [0; 0; 0; 0; 0; 0; 1; 1; 1]%nat [AtRLock; AtRLock]
    shared_empty
  = ([Returned (Some [track_a], None); Returned (Some [track_a], None)],
     mkShared (cache_steady 1) 0 false 1).
Proof. vm_compute. reflexivity. Qed.

End CacheFacts.

(** ** The cache in front of the MPD player *)

Module CacheOverMpd.
Import GoStrings Player Mpd Cache PoolFacts.

Section WithPlayerPackage.

Variable InterpolateMissingFields : Track -> Track.

(** [Player.TrackInfo] leaves out the tracks of the songs that are
    directories: asked for one URI that names a directory, it returns an
    empty slice and no error. *)
Lemma songs_to_tracks_directory (c : Conn) (dir : Attrs) (w : World) :
  is_Some (dir !! "directory") ->
  songs_to_tracks InterpolateMissingFields (Some c) 0 0 [Some dir] [zeroTrack] w
  = Return (1%nat, [zeroTrack]) w.
Proof.
  intros [d Hd]. cbn [songs_to_tracks]. now rewrite Hd.
Qed.

Lemma TrackInfo_directory (uri : string) (w : World) (rc : reusableClient)
    (rest : list reusableClient) (c : Conn) (dir : Attrs) (more : list Attrs) :
  clientPool (pl w) = rc :: rest -> (length rest < poolCap)%nat ->
  client rc = Some c -> reset_closed rc = false ->
  HasPrefix uri URI_SCHEMA = true ->
  failing (mpd w) CListAllInfo = None ->
  database (mpd w) (uriToMpd uri) = dir :: more ->
  is_Some (dir !! "directory") ->
  exists w', Mpd.TrackInfo InterpolateMissingFields [uri] w = Return (Some [], None) w'.
Proof.
  intros Hpool Hlen Hc Hreset Hpre Hfail Hdb Hdir.
  unfold Mpd.TrackInfo, bind at 1, gets.
  rewrite withMpdV_acquire, Hpool. unfold acquire. rewrite Hc, Hreset.
  unfold bind at 1. cbn [lookup_songs]. rewrite Hpre.
  unfold bind at 1 2 3, ListAllInfo, command.
  cbn [set_pool set_pl mpd]. rewrite Hfail, Hdb. cbn [head].
  unfold ret at 1 2 3, bind at 1. cbn [length replicate].
  unfold bind at 1. rewrite songs_to_tracks_directory by exact Hdir.
  cbn [length Nat.sub take]. unfold bind, ret, send_pool.
  destruct (_ <? _)%nat eqn:E; [eauto|].
  apply Nat.ltb_ge in E. cbn [set_mpd set_pool set_pl pl clientPool] in E. lia.
Qed.

(** The cache takes the first element of what the player returns. *)
Lemma cache_TrackInfo_directory (uri : string) (cache : @TrackCache World)
    (rc : reusableClient) (rest : list reusableClient) (c : Conn)
    (dir : Attrs) (more : list Attrs) (ts : list Track) (idx : gmap string Track) :
  err cache = None -> tracks cache = Some ts -> index cache = Some idx ->
  idx !! uri = None ->
  clientPool (pl (player cache)) = rc :: rest -> (length rest < poolCap)%nat ->
  client rc = Some c -> reset_closed rc = false ->
  HasPrefix uri URI_SCHEMA = true ->
  failing (mpd (player cache)) CListAllInfo = None ->
  database (mpd (player cache)) (uriToMpd uri) = dir :: more ->
  is_Some (dir !! "directory") ->
  Cache.TrackInfo (Mpd.Tracks InterpolateMissingFields)
    (fun uri => Mpd.TrackInfo InterpolateMissingFields [uri]) [uri] cache
  = Panic "index out of range".
Proof.
  intros Herr Hts Hidx Hmiss Hpool Hlen Hc Hreset Hpre Hfail Hdb Hdir.
  destruct (TrackInfo_directory uri _ _ _ _ _ _ Hpool Hlen Hc Hreset Hpre Hfail Hdb Hdir)
    as [w' Hw'].
  unfold Cache.TrackInfo, bind at 1, gets at 1. rewrite Herr.
  unfold bind at 1 2, gets at 1. rewrite Hts. unfold ret at 1.
  cbn [resolve]. unfold bind at 1, gets at 1. rewrite Hidx. cbn [mbind option_bind].
  rewrite Hmiss. unfold bind at 1 2, call_player. now rewrite Hw'.
Qed.

End WithPlayerPackage.

(** *** A catalogue with a directory *)

Definition daemon_music : Daemon :=
  mkDaemon [] ∅
    (fun uri => if String.eqb uri "Music"
                then [ {[ "directory" := "Music" ]};
                       {[ "file" := "Music/a.mp3"; "Title" := "A" ]} ]
                else [])
    ∅ ∅ (fun _ => None).

Definition world_music : World :=
  mkWorld (mkPlayer [live 1; live 2] [] "" []) daemon_music (Ok (conn 9)) 40 [].

(** The cache holds the catalogue, which lists files only. *)
Definition file_a : Track := mkTrack "mpd://Music/a.mp3" "" "A" "" "" "" "" "" false 0.

Definition cache_music : @TrackCache World :=
  mkCache world_music (Some [file_a]) (Some (build_index [file_a])) None [].

Definition keep_fields (t : Track) : Track := t.

Example player_TrackInfo_directory :
  exists w', Mpd.TrackInfo keep_fields ["mpd://Music"] world_music
             = Return (Some [], None) w'.
Proof. eexists. vm_compute. reflexivity. Qed.

(** C9 fails on the code: asked for the URI of a directory, which is not
    in the index, the player returns an empty slice and no error, and the
    cache's [tracks[0]] panics. *)
Theorem cache_TrackInfo_out_of_range :
  Cache.TrackInfo (Mpd.Tracks keep_fields)
    (fun uri => Mpd.TrackInfo keep_fields [uri]) ["mpd://Music"] cache_music
  = Panic "index out of range".
Proof. vm_compute. reflexivity. Qed.

(** A file that the index holds is answered from the cache. *)
Example cache_TrackInfo_hit :
  Cache.TrackInfo (Mpd.Tracks keep_fields)
    (fun uri => Mpd.TrackInfo keep_fields [uri]) ["mpd://Music/a.mp3"] cache_music
  = Return (Ok [file_a]) cache_music.
Proof. vm_compute. reflexivity. Qed.

End CacheOverMpd.

(** * Further properties of the code *)

(** ** Package [filter]: matches, the sort interface, the pipeline *)

Module FilterMore.
Import Filter FilterFacts.

(** X1: [AddMatch] adds one match: the total count grows by exactly one, the
    new match comes last among those of its property, and the matches of
    the other properties and the track are left as they are. *)
Theorem AddMatch_adds_one (sr : SearchResult) (property : string) (start end_ : Z) :
  NumMatches (AddMatch sr property start end_) = NumMatches sr + 1
  /\ Matches (AddMatch sr property start end_) !! property
     = Some (default [] (Matches sr !! property) ++ [mkSearchMatch start end_])
  /\ (forall other, other <> property ->
        Matches (AddMatch sr property start end_) !! other = Matches sr !! other)
  /\ Track (AddMatch sr property start end_) = Track sr.
Proof.
  split; [apply NumMatches_AddMatch|]. unfold AddMatch. cbn [Matches Track].
  split; [apply lookup_insert_eq|]. split; [|reflexivity].
  intros other Hne. now apply lookup_insert_ne.
Qed.

Lemma AddMatch_adds_one_witness :
  "album" <> "title"
  /\ Matches (AddMatch (AddMatch (mkSearchResult Player.zeroTrack ∅) "title" 0 4)
                "title" 5 9) !! "album" = None.
Proof.
  split; [discriminate|].
  destruct (AddMatch_adds_one
              (AddMatch (mkSearchResult Player.zeroTrack ∅) "title" 0 4) "title" 5 9)
    as (_ & _ & Hother & _).
  rewrite (Hother "album") by discriminate.
  destruct (AddMatch_adds_one (mkSearchResult Player.zeroTrack ∅) "title" 0 4)
    as (_ & _ & Hother' & _).
  rewrite (Hother' "album") by discriminate. reflexivity.
Defined.

(** X2: [ByNumMatches] keeps the contract of [sort.Interface]: [Less] is a
    strict weak ordering (irreflexive, transitive, and so is being
    unordered either way), defined exactly on the indices below [Len];
    [Swap] exchanges the two elements and keeps the others and the
    length. *)
Theorem ByNumMatches_sort_interface (l : list SearchResult) :
  (forall a, Less l a a <> Some true)
  /\ (forall a b c, Less l a b = Some true -> Less l b c = Some true ->
                    Less l a c = Some true)
  /\ (forall a b c,
        Less l a b = Some false -> Less l b a = Some false ->
        Less l b c = Some false -> Less l c b = Some false ->
        Less l a c = Some false /\ Less l c a = Some false)
  /\ (forall a b, is_Some (Less l a b) <->
                  (Z.of_nat a < Len l /\ Z.of_nat b < Len l))
  /\ (forall a b l', Swap l a b = Some l' ->
        l' !! a = l !! b /\ l' !! b = l !! a
        /\ (forall i, i <> a -> i <> b -> l' !! i = l !! i)
        /\ Len l' = Len l).
Proof.
  unfold Less, Swap, Len, less.
  split; [|split; [|split; [|split]]].
  - intros a. destruct (l !! a) as [x|]; [|discriminate].
    intros [= H]. apply Z.gtb_lt in H. lia.
  - intros a b c.
    destruct (l !! a) as [x|], (l !! b) as [y|], (l !! c) as [z|]; try discriminate.
    intros [= H1] [= H2]. f_equal. apply Z.gtb_lt in H1, H2. apply Z.gtb_lt. lia.
  - intros a b c.
    destruct (l !! a) as [x|], (l !! b) as [y|], (l !! c) as [z|]; try discriminate.
    intros [= H1] [= H2] [= H3] [= H4].
    rewrite Z.gtb_ltb, Z.ltb_ge in H1, H2, H3, H4.
    split; f_equal; rewrite Z.gtb_ltb; apply Z.ltb_ge; lia.
  - intros a b. split.
    + destruct (l !! a) as [x|] eqn:Ha; [|intros [? [=]]].
      destruct (l !! b) as [y|] eqn:Hb; [|intros [? [=]]].
      intros _. apply lookup_lt_Some in Ha, Hb. lia.
    + intros [Ha Hb].
      destruct (lookup_lt_is_Some_2 l a ltac:(lia)) as [x ->].
      destruct (lookup_lt_is_Some_2 l b ltac:(lia)) as [y ->]. eauto.
  - intros a b l'.
    destruct (l !! a) as [x|] eqn:Ha; [|discriminate].
    destruct (l !! b) as [y|] eqn:Hb; [|discriminate].
    intros [= <-].
    pose proof (lookup_lt_Some _ _ _ Ha) as Hla.
    pose proof (lookup_lt_Some _ _ _ Hb) as Hlb.
    split; [|split; [|split]].
    + destruct (decide (a = b)) as [->|Hne].
      * rewrite list_lookup_insert_eq by (rewrite length_insert; lia). congruence.
      * rewrite list_lookup_insert_ne by congruence.
        now rewrite list_lookup_insert_eq by lia.
    + now rewrite list_lookup_insert_eq by (rewrite length_insert; lia).
    + intros i Hia Hib. now rewrite !list_lookup_insert_ne by congruence.
    + now rewrite !length_insert.
Qed.

End FilterMore.

Module PipelineMore.
Import Filter FilterFacts FilterMore PipelineFacts.

Definition three_results : list SearchResult :=
  [AddMatch (mkSearchResult Player.zeroTrack ∅) "title" 0 4;
   mkSearchResult Player.zeroTrack ∅;
   AddMatch (AddMatch (mkSearchResult Player.zeroTrack ∅) "title" 0 4) "album" 1 2].

Lemma ByNumMatches_sort_interface_witness :
  Less three_results 2 0 = Some true /\ Less three_results 0 1 = Some true
  /\ Less three_results 2 1 = Some true
  /\ (Z.of_nat 2 < Len three_results /\ Z.of_nat 1 < Len three_results)
  /\ Swap three_results 0 2
     = Some [AddMatch (AddMatch (mkSearchResult Player.zeroTrack ∅) "title" 0 4) "album" 1 2;
             mkSearchResult Player.zeroTrack ∅;
             AddMatch (mkSearchResult Player.zeroTrack ∅) "title" 0 4].
Proof.
  destruct (ByNumMatches_sort_interface three_results) as (_ & Htrans & _ & Hdef & _).
  assert (H20 : Less three_results 2 0 = Some true) by (vm_compute; reflexivity).
  assert (H01 : Less three_results 0 1 = Some true) by (vm_compute; reflexivity).
  split; [exact H20|]. split; [exact H01|].
  split; [exact (Htrans 2%nat 0%nat 1%nat H20 H01)|].
  split; [|vm_compute; reflexivity].
  apply Hdef. rewrite (Htrans 2%nat 0%nat 1%nat H20 H01). eauto.
Defined.

Section OneWorker.

Variable filter : Player.Track -> SearchResult * bool.

Abbreviation step := (step filter).
Abbreviation run := (run filter).
Abbreviation kept := (kept filter).

(** With a single worker nothing overtakes: what the caller has received,
    what the worker holds and what the producer has yet to send are, in
    this order, what the filter keeps of the catalogue. *)
Definition in_order (tracks : list Player.Track) (p : pipeline) : Prop :=
  exists w, workers p = [w]
            /\ results p ++ holding w ++ kept (trackStream p) = kept tracks.

Lemma step_in_order (tracks : list Player.Track) (i : nat) (p p' : pipeline) :
  step i p = Some p' -> in_order tracks p -> in_order tracks p'.
Proof.
  unfold Filter.step. intros Hstep (w & Hw & Hacc). rewrite Hw in Hstep.
  destruct i as [|i]; cbn [lookup list_lookup] in Hstep; [|destruct i; discriminate].
  destruct w as [|res|]; cbn [worker_step] in Hstep.
  - destruct (trackStream p) as [|track rest] eqn:Hts.
    + injection Hstep as <-. exists Finished. cbn [workers trackStream results].
      rewrite Hw, Hts. split; [reflexivity | exact Hacc].
    + rewrite kept_cons in Hacc. destruct (filter track) as [res ok].
      injection Hstep as <-. cbn [workers trackStream results fst snd] in *.
      rewrite Hw. exists (if ok then Sending res else Receiving).
      split; [reflexivity|]. destruct ok; exact Hacc.
  - injection Hstep as <-. exists Receiving. cbn [workers trackStream results].
    rewrite Hw. split; [reflexivity|]. cbn [holding app] in *.
    now rewrite <- app_assoc.
  - discriminate.
Qed.

Lemma run_in_order (tracks : list Player.Track) (schedule : list nat) (p : pipeline) :
  in_order tracks p -> in_order tracks (run schedule p).
Proof.
  revert p. induction schedule as [|i schedule IH]; intros p Hp; cbn [Filter.run];
    [exact Hp|].
  destruct (step i p) as [p'|] eqn:Hstep; [|now apply IH].
  apply IH. eapply step_in_order; eauto.
Qed.

(** X3: [Tracks] with a single worker (a machine with one CPU) returns the
    results in catalogue order: exactly the list of what the filter keeps,
    not just a permutation of it. *)
Theorem Tracks_one_worker_in_order (tracks : list Player.Track) (schedule : list nat) :
  finished (run schedule (start 1 tracks)) = true ->
  results (run schedule (start 1 tracks)) = kept tracks.
Proof.
  intros Hfin.
  assert (Hstart : in_order tracks (start 1 tracks)).
  { exists Receiving. split; reflexivity. }
  destruct (run_in_order tracks schedule _ Hstart) as (w & Hw & Hacc).
  pose proof (run_invariant filter tracks schedule (start 1 tracks)
                (start_accounted filter _ _) (start_drained _ _)) as (_ & Hdr & _).
  unfold finished in Hfin. unfold drained in Hdr. rewrite Hw in Hfin, Hdr.
  destruct w; try discriminate.
  destruct Hdr as [Hts|Hall].
  - rewrite Hts in Hacc. cbn in Hacc. now rewrite app_nil_r in Hacc.
  - inversion Hall; subst. congruence.
Qed.

(** How many statements the workers run under a schedule. *)
Fixpoint steps_taken (schedule : list nat) (p : pipeline) : nat :=
  match schedule with
  | [] => 0
  | i :: schedule' =>
      match step i p with
      | Some p' => S (steps_taken schedule' p')
      | None => steps_taken schedule' p
      end
  end.

(** X4: [Tracks] cannot hang or spin: while it has not returned some worker can
    run, and under any schedule the workers run at most two statements per
    track and one more each. *)
Theorem Tracks_bounded (numCPU : nat) (tracks : list Player.Track) (schedule : list nat) :
  (steps_taken schedule (start numCPU tracks) <= 2 * length tracks + numCPU)%nat
  /\ (finished (run schedule (start numCPU tracks)) = false ->
      exists i p', step i (run schedule (start numCPU tracks)) = Some p').
Proof.
  split; [|apply unfinished_step].
  assert (Hgen : forall p, (steps_taken schedule p <= work_left p)%nat).
  { induction schedule as [|i schedule IH]; intros p; cbn [steps_taken]; [lia|].
    destruct (step i p) as [p'|] eqn:Hstep; [|apply IH].
    pose proof (step_work_left filter _ _ _ Hstep). specialize (IH p'). lia. }
  specialize (Hgen (start numCPU tracks)).
  unfold work_left in Hgen. cbn [Filter.start trackStream workers] in Hgen.
  assert (Hw : sum_list_with weight (replicate numCPU Receiving) = numCPU).
  { clear. induction numCPU as [|n IH]; cbn; [reflexivity|]. now rewrite IH. }
  lia.
Qed.

End OneWorker.

Lemma Tracks_one_worker_in_order_witness :
  finished (Filter.run PipelineExample.blue [0; 0; 0; 0; 0; 0]%nat
              (start 1 PipelineExample.catalogue)) = true
  /\ PipelineExample.uris
       (results (Filter.run PipelineExample.blue [0; 0; 0; 0; 0; 0]%nat
                   (start 1 PipelineExample.catalogue))) = ["a"; "c"].
Proof.
  assert (Hfin : finished (Filter.run PipelineExample.blue [0; 0; 0; 0; 0; 0]%nat
                             (start 1 PipelineExample.catalogue)) = true)
    by (vm_compute; reflexivity).
  split; [exact Hfin|].
  rewrite (Tracks_one_worker_in_order PipelineExample.blue
             PipelineExample.catalogue _ Hfin).
  vm_compute. reflexivity.
Defined.

Lemma Tracks_bounded_witness :
  finished (Filter.run PipelineExample.blue [0; 1]%nat
              (start 2 PipelineExample.catalogue)) = false
  /\ (steps_taken PipelineExample.blue [0; 1]%nat (start 2 PipelineExample.catalogue)
      <= 2 * 3 + 2)%nat
  /\ exists i p', Filter.step PipelineExample.blue i
                    (Filter.run PipelineExample.blue [0; 1]%nat
                       (start 2 PipelineExample.catalogue)) = Some p'.
Proof.
  assert (Hnot : finished (Filter.run PipelineExample.blue [0; 1]%nat
                             (start 2 PipelineExample.catalogue)) = false)
    by (vm_compute; reflexivity).
  destruct (Tracks_bounded PipelineExample.blue 2 PipelineExample.catalogue [0; 1]%nat)
    as [Hb Hp].
  split; [exact Hnot|]. split; [exact Hb | exact (Hp Hnot)].
Defined.

End PipelineMore.

(** ** The track cache: index, hits, events, errors *)

Module CacheMore.
Import Player Cache CacheFacts.

Section WithTracks.

Context {S : Type}.
Variable player_Tracks : M S (option (list Track) * option error).

Abbreviation reloadTracks := (reloadTracks player_Tracks).
Abbreviation Tracks := (Tracks player_Tracks).
Abbreviation Run_step := (Run_step player_Tracks).

(** The loop of [TrackCache.Run] on the events it receives, in order. *)
Fixpoint Run (events : list string) : M TrackCache unit :=
  match events with
  | [] => ret tt
  | event :: events' => Run_step event ;;; Run events'
  end.

Lemma fold_index_lookup (ts : list Track) (m : gmap string Track) (uri : string) :
  fold_left (fun idx t => <[Uri t := t]> idx) ts m !! uri
  = match last (filter (fun t => Uri t = uri) ts) with
    | Some t => Some t
    | None => m !! uri
    end.
Proof.
  revert m. induction ts as [|t ts IH]; intros m; cbn [fold_left]; [reflexivity|].
  rewrite IH. destruct (decide (Uri t = uri)) as [Heq|Hne].
  - rewrite filter_cons_True by exact Heq. rewrite last_cons.
    destruct (last (filter _ ts)); [reflexivity|].
    rewrite <- Heq. apply lookup_insert_eq.
  - rewrite filter_cons_False by exact Hne.
    destruct (last (filter _ ts)); [reflexivity|]. now apply lookup_insert_ne.
Qed.

Lemma build_index_lookup (ts : list Track) (uri : string) :
  build_index ts !! uri = last (filter (fun t => Uri t = uri) ts).
Proof.
  unfold build_index. rewrite fold_index_lookup.
  destruct (last _); [reflexivity | apply lookup_empty].
Qed.

(** X5: After a reload that succeeds the index agrees with the track list:
    the index maps each URI of the list, and no other, to a track of the
    list with that URI, the last one when several tracks share it. *)
Theorem reload_index_consistent (c : TrackCache) (s' : S) (ts : list Track) :
  player_Tracks (player c) = Return (Some ts, None) s' ->
  exists c' idx,
    reloadTracks c = Return tt c'
    /\ tracks c' = Some ts /\ index c' = Some idx /\ player c' = s'
    /\ (forall uri, idx !! uri = last (filter (fun t => Uri t = uri) ts))
    /\ (forall uri t, idx !! uri = Some t -> t ∈ ts /\ Uri t = uri)
    /\ (forall t, t ∈ ts -> exists t', idx !! Uri t = Some t' /\ Uri t' = Uri t).
Proof.
  intros Hp. rewrite (reloadTracks_success _ _ _ _ Hp).
  eexists. exists (build_index ts). split; [reflexivity|].
  cbn [tracks index player option_map].
  split; [reflexivity|]. split; [reflexivity|]. split; [reflexivity|].
  split; [apply build_index_lookup|]. split.
  - intros uri t. rewrite build_index_lookup. intros Hlast.
    apply last_Some_elem_of in Hlast. apply list_elem_of_filter in Hlast. tauto.
  - intros t Ht. rewrite build_index_lookup.
    assert (Hin : t ∈ filter (fun t0 => Uri t0 = Uri t) ts)
      by (apply list_elem_of_filter; auto).
    destruct (last (filter (fun t0 => Uri t0 = Uri t) ts)) as [t'|] eqn:Hlast.
    + exists t'. split; [reflexivity|].
      apply last_Some_elem_of in Hlast. apply list_elem_of_filter in Hlast. tauto.
    + apply last_None in Hlast. rewrite Hlast in Hin. inversion Hin.
Qed.

Lemma reloadTracks_Return (c c' : TrackCache) :
  reloadTracks c = Return tt c' ->
  emitted c' = emitted c
  /\ (is_Some (err c) -> is_Some (err c')).
Proof.
  unfold Cache.reloadTracks, bind, call_player.
  destruct (player_Tracks (player c)) as [[ts [e|]] s'| |]; try discriminate;
    unfold modify; intros [= <-]; cbn [emitted err]; eauto.
Qed.

Lemma Run_step_Return (event : string) (c c' : TrackCache) :
  Run_step event c = Return tt c' ->
  emitted c' = emitted c ++ [event]
  /\ (is_Some (err c) -> is_Some (err c'))
  /\ (event <> "tracks" ->
      player c' = player c /\ tracks c' = tracks c /\ index c' = index c
      /\ err c' = err c).
Proof.
  unfold Cache.Run_step.
  destruct (String.eqb_spec event "tracks") as [->|Hne]; cbn [negb].
  - intros H. minv.
    match goal with
    | Hr : Cache.reloadTracks _ _ = Return _ _ |- _ =>
        destruct a; apply reloadTracks_Return in Hr as [He Herr]
    end.
    unfold Cache.Emit, modify in H. injection H as <-. cbn [emitted err].
    rewrite He. split; [reflexivity|]. split; [exact Herr | congruence].
  - unfold Cache.Emit, modify. intros [= <-]. cbn. repeat split; auto.
Qed.

(** X7: [Run] passes every event of the player on to its own listeners, once
    and in the order received; only a "tracks" event makes it call the
    player, all others leave the cached data as they are. *)
Theorem Run_forwards (events : list string) (c c' : TrackCache) :
  Run events c = Return tt c' ->
  emitted c' = emitted c ++ events
  /\ (~ In "tracks" events ->
      player c' = player c /\ tracks c' = tracks c /\ index c' = index c
      /\ err c' = err c).
Proof.
  revert c. induction events as [|event events IH]; intros c; cbn [Run].
  - intros [= <-]. rewrite app_nil_r. auto.
  - intros H. minv.
    match goal with
    | Hs : Cache.Run_step _ _ _ = Return ?a _ |- _ =>
        destruct a; apply Run_step_Return in Hs as (He & _ & Hkeep)
    end.
    apply IH in H as [He' Hkeep'].
    split; [rewrite He', He, <- app_assoc; reflexivity|].
    intros Hnot. cbn [In] in Hnot.
    destruct Hkeep as (H1 & H2 & H3 & H4); [intros ->; tauto|].
    destruct Hkeep' as (H1' & H2' & H3' & H4'); [tauto|].
    repeat split; congruence.
Qed.

Lemma Tracks_error_stays (c c' : TrackCache)
    (res : option (list Track) * option error) :
  is_Some (err c) -> Tracks c = Return res c' ->
  fst res = None /\ is_Some (snd res) /\ is_Some (err c').
Proof.
  intros Herr. unfold Cache.Tracks. intros H. minv.
  assert (Hs0 : is_Some (err s0)).
  { destruct (tracks c).
    - minv. exact Herr.
    - match goal with
      | Hr : Cache.reloadTracks _ _ = Return ?a _ |- _ =>
          destruct a; apply reloadTracks_Return in Hr as [_ Hr]; auto
      end. }
  destruct Hs0 as [e He]. rewrite He in H. minv. cbn. rewrite He. eauto.
Qed.

End WithTracks.

Section WithPlayer.

Context {S : Type}.
Variable player_Tracks : M S (option (list Track) * option error).
Variable player_TrackInfo : string -> M S (option (list Track) * option error).

Abbreviation Tracks := (Tracks player_Tracks).
Abbreviation TrackInfo := (TrackInfo player_Tracks player_TrackInfo).
Abbreviation resolve := (resolve player_TrackInfo).
Abbreviation Run_step := (Run_step player_Tracks).

Lemma resolve_hits (c : TrackCache) (idx : gmap string Track) (uris : list string) :
  index c = Some idx ->
  Forall (fun uri => is_Some (idx !! uri)) uris ->
  exists found, resolve uris c = Return (Ok found) c
                /\ Forall2 (fun uri t => idx !! uri = Some t) uris found.
Proof.
  intros Hidx. induction 1 as [|uri uris [t Ht] _ (found & Hres & Hall)].
  - exists []. split; [reflexivity | constructor].
  - exists (t :: found). split; [|now constructor].
    cbn [Cache.resolve]. unfold bind at 1, gets at 1. rewrite Hidx.
    cbn [mbind option_bind]. rewrite Ht.
    unfold bind at 1 2, ret at 1. now rewrite Hres.
Qed.

(** X6: A lookup of URIs that are all in the index is answered from the cache
    alone, with the indexed track of each URI in the order asked; the
    cache is left as it is and the player is not called. *)
Theorem TrackInfo_hits (c : TrackCache) (ts : list Track) (idx : gmap string Track)
    (uris : list string) :
  err c = None -> tracks c = Some ts -> index c = Some idx ->
  Forall (fun uri => is_Some (idx !! uri)) uris ->
  exists found, TrackInfo uris c = Return (Ok found) c
                /\ length found = length uris
                /\ Forall2 (fun uri t => idx !! uri = Some t) uris found.
Proof.
  intros Herr Hts Hidx Hall.
  destruct (resolve_hits c idx uris Hidx Hall) as (found & Hres & Hf).
  exists found. split; [|split; [symmetry; eapply Forall2_length; eauto | exact Hf]].
  unfold Cache.TrackInfo, bind at 1, gets at 1. rewrite Herr.
  unfold bind at 1 2, gets at 1. rewrite Hts. unfold ret at 1. exact Hres.
Qed.

(** What can happen to the cache: a read or an event. *)
Inductive later : TrackCache -> TrackCache -> Prop :=
| later_now (c : TrackCache) : later c c
| later_Tracks (c c1 c2 : TrackCache) res :
    later c c1 -> Tracks c1 = Return res c2 -> later c c2
| later_TrackInfo (c c1 c2 : TrackCache) uris res :
    later c c1 -> TrackInfo uris c1 = Return res c2 -> later c c2
| later_event (c c1 c2 : TrackCache) event :
    later c c1 -> Run_step event c1 = Return tt c2 -> later c c2.

Lemma TrackInfo_error_stays (c c' : TrackCache) (uris : list string)
    (res : result (list Track)) :
  is_Some (err c) -> TrackInfo uris c = Return res c' ->
  (exists e, err c = Some e /\ res = Err e) /\ c' = c.
Proof.
  intros [e He]. unfold Cache.TrackInfo, bind, gets. rewrite He.
  unfold ret. intros [= <- <-]. eauto.
Qed.

(** X8: An error, once stored by a failed reload, is never cleared: whatever
    reads and events follow, also reloads that succeed, an error stays
    stored, and every [Tracks] and [TrackInfo] returns an error and no
    tracks. *)
Theorem error_never_cleared (c c' : TrackCache) :
  is_Some (err c) -> later c c' ->
  is_Some (err c')
  /\ (forall res c'', Tracks c' = Return res c'' ->
                      fst res = None /\ is_Some (snd res))
  /\ (forall uris res c'', TrackInfo uris c' = Return res c'' ->
                           exists e, res = Err e).
Proof.
  intros Herr Hlater.
  assert (Hc' : is_Some (err c')).
  { induction Hlater as [c|c c1 c2 res _ IH Hop|c c1 c2 uris res _ IH Hop
                        |c c1 c2 event _ IH Hop].
    - exact Herr.
    - apply Tracks_error_stays in Hop; tauto.
    - apply TrackInfo_error_stays in Hop as [_ ->]; auto.
    - apply Run_step_Return in Hop as (_ & Hop & _); auto. }
  split; [exact Hc'|]. split.
  - intros res c'' H. apply Tracks_error_stays in H; tauto.
  - intros uris res c'' H.
    apply TrackInfo_error_stays in H as [(e & _ & ->) _]; eauto.
Qed.

End WithPlayer.

(** *** On the player that fails once *)

Lemma reload_index_consistent_witness :
  steady_Tracks (player cache_empty) = Return (Some [track_a], None) 1%nat
  /\ exists c' idx,
       Cache.reloadTracks steady_Tracks cache_empty = Return tt c'
       /\ tracks c' = Some [track_a] /\ index c' = Some idx
       /\ idx !! "mpd://a.mp3" = Some track_a.
Proof.
  split; [reflexivity|].
  destruct (reload_index_consistent steady_Tracks cache_empty 1%nat [track_a] eq_refl)
    as (c' & idx & Hr & Ht & Hi & _ & Hlast & _).
  exists c', idx. repeat split; try assumption.
  rewrite Hlast. reflexivity.
Defined.

Lemma TrackInfo_hits_witness :
  err (cache_steady 1) = None
  /\ Forall (fun uri => is_Some (build_index [track_a] !! uri)) ["mpd://a.mp3"]
  /\ exists found,
       Cache.TrackInfo flaky_Tracks no_TrackInfo ["mpd://a.mp3"] (cache_steady 1)
       = Return (Ok found) (cache_steady 1)
       /\ length found = 1%nat.
Proof.
  assert (Hall : Forall (fun uri => is_Some (build_index [track_a] !! uri))
                   ["mpd://a.mp3"]).
  { constructor; [|constructor]. exists track_a. vm_compute. reflexivity. }
  split; [reflexivity|]. split; [exact Hall|].
  destruct (TrackInfo_hits flaky_Tracks no_TrackInfo (cache_steady 1) [track_a]
              (build_index [track_a]) ["mpd://a.mp3"] eq_refl eq_refl eq_refl Hall)
    as (found & H & Hlen & _).
  exists found. split; [exact H | exact Hlen].
Defined.

Lemma Run_forwards_witness :
  ~ In "tracks" ["playlist"; "volume"]
  /\ Run steady_Tracks ["playlist"; "volume"] cache_empty
     = Return tt (mkCache 0%nat None None None ["playlist"; "volume"])
  /\ emitted (mkCache 0%nat None None None ["playlist"; "volume"])
     = emitted cache_empty ++ ["playlist"; "volume"].
Proof.
  assert (Hrun : Run steady_Tracks ["playlist"; "volume"] cache_empty
                 = Return tt (mkCache 0%nat None None None ["playlist"; "volume"]))
    by reflexivity.
  split; [cbn; intros [H|[H|[]]]; discriminate|].
  split; [exact Hrun|].
  apply (Run_forwards steady_Tracks _ _ _ Hrun).
Defined.

(** After the failed reload the player recovers and a "tracks" event
    reloads with success; the reads that follow fail all the same. *)
Lemma error_never_cleared_witness :
  is_Some (err cache_failed)
  /\ later flaky_Tracks no_TrackInfo cache_failed
       (mkCache 2%nat (Some [track_a]) (Some (build_index [track_a]))
          (Some "connection refused") ["tracks"])
  /\ forall res c'',
       Cache.Tracks flaky_Tracks
         (mkCache 2%nat (Some [track_a]) (Some (build_index [track_a]))
            (Some "connection refused") ["tracks"]) = Return res c'' ->
       fst res = None /\ is_Some (snd res).
Proof.
  assert (Hlater : later flaky_Tracks no_TrackInfo cache_failed
                     (mkCache 2%nat (Some [track_a]) (Some (build_index [track_a]))
                        (Some "connection refused") ["tracks"])).
  { apply later_event with (c1 := cache_failed) (event := "tracks");
      [apply later_now | reflexivity]. }
  assert (Herr : is_Some (err cache_failed)) by (eexists; reflexivity).
  split; [exact Herr|]. split; [exact Hlater|].
  apply (error_never_cleared flaky_Tracks no_TrackInfo _ _ Herr Hlater).
Defined.

End CacheMore.

(** ** Package [mpd]: status attributes, URIs, supervisors, the pool *)

Module StatusMore.
Import GoStrings Strconv Player Mpd.

Lemma digit_of_range (c : ascii) (d : Z) : digit_of c = Some d -> 0 <= d <= 9.
Proof.
  unfold digit_of.
  destruct (Z.leb_spec 48 (Z.of_nat (nat_of_ascii c)));
    destruct (Z.leb_spec (Z.of_nat (nat_of_ascii c)) 57); cbn; try discriminate.
  intros [= <-]. lia.
Qed.

Lemma ParseUint_loop_range (s : string) (n : Z) :
  0 <= n <= maxVal32 -> 0 <= fst (ParseUint_loop s n) <= maxVal32.
Proof.
  revert n. induction s as [|c s IH]; intros n Hn; cbn [ParseUint_loop]; [exact Hn|].
  destruct (digit_of c) as [d|] eqn:Hd; [|cbn; unfold maxVal32; lia].
  apply digit_of_range in Hd. cbv zeta.
  destruct (Z.gtb_spec (n * 10 + d) maxVal32); [cbn; unfold maxVal32; lia|].
  apply IH. lia.
Qed.

(** A value that [ParseInt] returns without error is a 32-bit integer. *)
Lemma ParseInt32_range (s : string) (v : Z) :
  ParseInt32 s = (v, None) -> - 2 ^ 31 <= v < 2 ^ 31.
Proof.
  unfold ParseInt32. destruct s as [|c0 rest]; [discriminate|].
  set (body := if (Ascii.eqb c0 "+" || Ascii.eqb c0 "-")%bool then rest
               else String c0 rest).
  assert (Hun : 0 <= fst (ParseUint32 body) <= maxVal32).
  { unfold ParseUint32. destruct body; [cbn; unfold maxVal32; lia|].
    apply ParseUint_loop_range. unfold maxVal32. lia. }
  destruct (ParseUint32 body) as [un [[|]|]]; cbn [fst] in Hun; try discriminate;
    destruct (Ascii.eqb c0 "-"); cbn [negb andb];
    repeat match goal with
      | |- context [?a >=? ?b] => destruct (Z.geb_spec a b)
      | |- context [?a >? ?b] => destruct (Z.gtb_spec a b)
      end; try discriminate; intros [= <-]; lia.
Qed.

Lemma ParseUint32_uint (d : Decimal.uint) :
  d <> Decimal.Nil -> uint_val d 0 <= maxVal32 ->
  ParseUint32 (NilEmpty.string_of_uint d) = (uint_val d 0, None).
Proof.
  intros Hnil Hmax.
  pose proof (ParseUint_loop_uint d 0 ltac:(lia) Hmax) as Hloop.
  destruct d; [congruence|..]; exact Hloop.
Qed.

Lemma ParseInt32_FormatInt_neg (n : Z) :
  - 2 ^ 31 <= n < 0 -> ParseInt32 (FormatInt n) = (n, None).
Proof.
  intros Hn. destruct n as [|p|p]; try lia.
  unfold FormatInt. cbn [Z.to_int NilEmpty.string_of_int].
  assert (Hval : uint_val (Pos.to_uint p) 0 = Z.pos p).
  { rewrite uint_val_zero, DecimalPos.Unsigned.of_to. reflexivity. }
  pose proof (ParseUint32_uint (Pos.to_uint p)
                (DecimalPos.Unsigned.to_uint_nonnil p)) as Hu.
  rewrite Hval in Hu. specialize (Hu ltac:(unfold maxVal32; lia)).
  unfold ParseInt32.
  change (Ascii.eqb "-" "-") with true. change (Ascii.eqb "-" "+") with false.
  cbn [orb negb andb]. rewrite Hu.
  destruct (Z.gtb_spec (Z.pos p) (2 ^ 31)); [lia | reflexivity].
Qed.

(** Printing a 32-bit integer and reading it back gives the integer. *)
Lemma ParseInt32_FormatInt_int32 (n : Z) :
  - 2 ^ 31 <= n < 2 ^ 31 -> ParseInt32 (FormatInt n) = (n, None).
Proof.
  intros Hn. destruct (Z.lt_ge_cases n 0).
  - apply ParseInt32_FormatInt_neg. lia.
  - apply ParseInt32_FormatInt. lia.
Qed.

(** X9: [statusAttrInt] reads an attribute of a status as a 32-bit integer: a
    missing attribute gives [(0, false)]; an attribute that holds the
    decimal form of a 32-bit integer gives that integer and [true]; in all
    cases the integer is within 32 bits, and it is 0 whenever the flag is
    [false]. *)
Theorem statusAttrInt_reads (status : Attrs) (attr : string) :
  (status !! attr = None -> statusAttrInt status attr = (0, false))
  /\ (forall n, - 2 ^ 31 <= n < 2 ^ 31 ->
                statusAttrInt (<[attr := FormatInt n]> status) attr = (n, true))
  /\ (snd (statusAttrInt status attr) = false -> fst (statusAttrInt status attr) = 0)
  /\ - 2 ^ 31 <= fst (statusAttrInt status attr) < 2 ^ 31.
Proof.
  unfold statusAttrInt. split; [|split; [|split]].
  - now intros ->.
  - intros n Hn. rewrite lookup_insert_eq.
    rewrite (ParseInt32_FormatInt_int32 n Hn). reflexivity.
  - destruct (status !! attr) as [str|]; [|reflexivity].
    destruct (ParseInt32 str) as [v [e|]]; [reflexivity | discriminate].
  - destruct (status !! attr) as [str|]; [|cbn; lia].
    destruct (ParseInt32 str) as [v [e|]] eqn:Hp; [cbn; lia|].
    cbn [fst]. exact (ParseInt32_range str v Hp).
Qed.

Lemma statusAttrInt_reads_witness :
  (∅ : Attrs) !! "song" = None
  /\ - 2 ^ 31 <= -7 < 2 ^ 31
  /\ statusAttrInt ∅ "song" = (0, false)
  /\ statusAttrInt (<["song" := FormatInt (-7)]> ∅) "song" = (-7, true).
Proof.
  destruct (statusAttrInt_reads ∅ "song") as (Hnone & Hsome & _).
  split; [reflexivity|]. split; [lia|].
  split; [apply Hnone; reflexivity | apply Hsome; lia].
Defined.

End StatusMore.

Module UriMore.
Import GoStrings Mpd.

Lemma HasPrefix_split (s p : string) :
  HasPrefix s p = true -> s = p +:+ slice_from (String.length p) s.
Proof.
  revert s. induction p as [|c p IH]; intros s; cbn; [reflexivity|].
  destruct s as [|d s]; [discriminate|].
  destruct (Ascii.eqb_spec c d) as [->|]; [|discriminate].
  intros H.
  change (String d s = String d (p +:+ slice_from (String.length p) s)).
  f_equal. now apply IH.
Qed.

(** X10: The translation between song paths and URIs: every URI that [mpdToUri]
    makes has a schema; [mpdToUri] changes nothing when applied again; and
    a URI with the "mpd://" schema whose path has no "://" is what
    [mpdToUri] makes of its path. *)
Theorem mpdToUri_schema (s : string) :
  Index (mpdToUri s) "://" <> -1
  /\ mpdToUri (mpdToUri s) = mpdToUri s
  /\ (HasPrefix s URI_SCHEMA = true -> Index (uriToMpd s) "://" = -1 ->
      mpdToUri (uriToMpd s) = s).
Proof.
  assert (Hhas : Index (mpdToUri s) "://" <> -1).
  { unfold mpdToUri. destruct (Z.eqb_spec (Index s "://") (-1)) as [H|H]; [|exact H].
    unfold Index. cbn. discriminate. }
  split; [exact Hhas|]. split.
  - unfold mpdToUri at 1.
    destruct (Z.eqb_spec (Index (mpdToUri s) "://") (-1)); [contradiction | reflexivity].
  - intros Hpre Hplain. unfold mpdToUri. rewrite Hplain. cbn [Z.eqb].
    unfold uriToMpd, TrimPrefix. rewrite Hpre. symmetry.
    now apply HasPrefix_split.
Qed.

Lemma mpdToUri_schema_witness :
  HasPrefix "mpd://a/b.mp3" URI_SCHEMA = true
  /\ Index (uriToMpd "mpd://a/b.mp3") "://" = -1
  /\ mpdToUri (uriToMpd "mpd://a/b.mp3") = "mpd://a/b.mp3".
Proof.
  split; [reflexivity|]. split; [reflexivity|].
  apply (mpdToUri_schema "mpd://a/b.mp3"); reflexivity.
Defined.

End UriMore.

Module PoolMore.
Import GoStrings Player Mpd PoolFacts.

(** A connection and its supervisor agree: the client is nil exactly when
    the supervisor has returned, which is when the connection has been
    closed and the reset channel with it. *)
Definition consistent (rc : reusableClient) : Prop :=
  (client rc = None <-> reset_closed rc = true)
  /\ conn_closed rc = reset_closed rc.

Lemma run_step_consistent (expireAfter t : Z) (ev : sv_event) (rc rc' : reusableClient) :
  consistent rc -> run_step expireAfter t ev rc = Some rc' -> consistent rc'.
Proof.
  unfold consistent, run_step. intros [Hc Hcl].
  destruct (reset_closed rc) eqn:Hr; [discriminate|].
  destruct ev as [[e|]| |].
  - intros [= <-]. cbn. tauto.
  - intros [= <-]. rewrite Hr. tauto.
  - destruct (expire rc <=? t); [|discriminate]. intros [= <-]. cbn. tauto.
  - intros [= <-]. cbn. tauto.
Qed.

(** X11: A connection that [newClient] opens agrees with its supervisor, and
    every step of the supervisor and every acquisition by [withMpd] keeps
    it so: the supervisor never pings a nil client, a connection is closed
    exactly when it is marked dead, and the reset that [withMpd] sends never
    meets a closed channel. *)
Theorem supervisor_consistent :
  (forall w w' rc, newClient w = Return (Ok rc) w' ->
                   consistent rc /\ is_Some (client rc))
  /\ (forall expireAfter tr rc rc',
        consistent rc -> run_trace expireAfter tr rc = Some rc' -> consistent rc')
  /\ (forall rc w,
        consistent rc ->
        acquire rc w <> AcqPanic
        /\ forall c rc', acquire rc w = AcqConn c rc' -> consistent rc').
Proof.
  split; [|split].
  - intros w w' rc. unfold newClient. destruct (dial w); [|discriminate].
    intros [= <- _]. unfold consistent. cbn. split; [|eauto].
    split; [split; discriminate | reflexivity].
  - intros expireAfter tr. induction tr as [|[t ev] tr IH]; intros rc rc' Hrc; cbn.
    + now intros [= <-].
    + destruct (run_step expireAfter t ev rc) as [rc1|] eqn:Hstep; [|discriminate].
      apply IH. eapply run_step_consistent; eauto.
  - intros rc w [Hc Hcl]. unfold acquire.
    destruct (client rc) as [c|] eqn:Hcl'.
    + destruct (reset_closed rc) eqn:Hr.
      * destruct Hc as [_ Hc]. discriminate (Hc eq_refl).
      * split; [discriminate|]. intros c' rc' [= <- <-].
        unfold consistent. cbn. rewrite Hcl. split; [split; discriminate | reflexivity].
    + destruct (dial w); (split; [discriminate|]); [|discriminate].
      intros c' rc' [= <- <-]. unfold consistent. cbn.
      split; [split; discriminate | reflexivity].
Qed.

Lemma supervisor_consistent_witness :
  consistent SupervisorFacts.rc_fresh
  /\ consistent (mkRC None true true 40)
  /\ acquire SupervisorFacts.rc_fresh world_full <> AcqPanic.
Proof.
  assert (Hfresh : consistent SupervisorFacts.rc_fresh).
  { unfold consistent. cbn. split; [split; discriminate | reflexivity]. }
  destruct supervisor_consistent as (_ & Hrun & Hacq).
  split; [exact Hfresh|]. split.
  - apply (Hrun 30 [(10, ResetRecv); (40, TimerFired)] SupervisorFacts.rc_fresh);
      [exact Hfresh | reflexivity].
  - apply Hacq. exact Hfresh.
Defined.

(** X12: [withMpd] takes the connection that has waited longest and puts it
    back behind the others, its idle timer re-armed: with a callback that
    leaves the pool alone and a live connection at the head, the result of
    the callback is returned as it is, the other connections keep their
    order, and the pool keeps its size. *)
Theorem withMpd_rotates {V : Type} (v0 : V)
    (fn : option Conn -> M World (V * option error)) (w w2 : World)
    (rc : reusableClient) (rest : list reusableClient) (c : Conn)
    (res : V * option error) :
  clientPool (pl w) = rc :: rest -> (length rest < poolCap)%nat ->
  client rc = Some c -> reset_closed rc = false ->
  fn (Some c) (set_pool rest w) = Return res w2 ->
  clientPool (pl w2) = rest ->
  withMpdV v0 fn w
  = Return res
      (set_pool (rest ++ [mkRC (Some c) false (conn_closed rc) (now w + expireAfter)]) w2)
  /\ length (rest ++ [mkRC (Some c) false (conn_closed rc) (now w + expireAfter)])
     = length (clientPool (pl w)).
Proof.
  intros Hpool Hlen Hc Hr Hfn Hkeep. split.
  - rewrite withMpdV_acquire, Hpool. unfold acquire. rewrite Hc, Hr.
    unfold bind at 1. rewrite Hfn. unfold bind, send_pool. rewrite Hkeep.
    apply Nat.ltb_lt in Hlen. rewrite Hlen. reflexivity.
  - rewrite Hpool, length_app. cbn [length]. lia.
Qed.

Lemma withMpd_rotates_witness :
  clientPool (pl world_full) = live 0 :: [live 1; live 2; live 3; live 4; live 5]
  /\ (length [live 1; live 2; live 3; live 4; live 5] < poolCap)%nat
  /\ withMpdV tt (fun mpdc => err <- ping mpdc ;; ret (tt, err)) world_full
     = Return (tt, None)
         (set_pool ([live 1; live 2; live 3; live 4; live 5]
                    ++ [mkRC (Some (conn 0)) false false (40 + expireAfter)])
            world_full).
Proof.
  split; [reflexivity|]. split; [unfold poolCap; simpl; lia|].
  apply (withMpd_rotates tt (fun mpdc => err <- ping mpdc ;; ret (tt, err))
           world_full (set_pool [live 1; live 2; live 3; live 4; live 5] world_full)
           (live 0) [live 1; live 2; live 3; live 4; live 5] (conn 0) (tt, None));
    (reflexivity || (unfold poolCap; simpl; lia)).
Defined.

(** *** [Connect] *)

(** What the daemon answers to the next dial. *)
Definition answers (r : result Conn) : M World unit :=
  modify (fun w => mkWorld (pl w) (mpd w) r (now w) (logged w)).

(** The loop of [Connect]: iterations [i] to [i + n - 1], where [dials j]
    is the answer to the dial of iteration [j]. *)
Fixpoint Connect_loop (dials : nat -> result Conn) (i n : nat) : M World (option error) :=
  match n with
  | O => ret None
  | S n' =>
      answers (dials i) ;;;
      r <- newClient ;;
      match r with
      | Err e => ret (Some e)
      | Ok reClient => send_pool reClient ;;; Connect_loop dials (S i) n'
      end
  end.

(** [Connect], up to the start of the two loops: the error, or the world
    with the new player in it. *)
Definition Connect (dials : nat -> result Conn) (d : Daemon) (t : Z)
  : outcome World (option error) :=
  Connect_loop dials 0 poolCap (mkWorld (mkPlayer [] [] "" []) d (dials 0%nat) t []).

(** The connection that iteration [j] opens. *)
Definition opened (dials : nat -> result Conn) (t : Z) (j : nat) : reusableClient :=
  mkRC (match dials j with Ok c => Some c | Err _ => None end) false false
    (t + expireAfter).

Lemma Connect_loop_all (dials : nat -> result Conn) (n i : nat) (w : World) :
  (length (clientPool (pl w)) + n <= poolCap)%nat ->
  (forall j, (i <= j < i + n)%nat -> exists c, dials j = Ok c) ->
  exists w',
    Connect_loop dials i n w = Return None w'
    /\ clientPool (pl w') = clientPool (pl w) ++ map (opened dials (now w)) (seq i n)
    /\ playlist (pl w') = playlist (pl w) /\ lastTrack (pl w') = lastTrack (pl w)
    /\ now w' = now w /\ mpd w' = mpd w.
Proof.
  revert i w. induction n as [|n IH]; intros i w Hlen Hok; cbn [Connect_loop seq map].
  - exists w. rewrite app_nil_r. repeat split.
  - destruct (Hok i ltac:(lia)) as [c Hc].
    unfold bind at 1, answers, modify. unfold bind at 1, newClient. cbn [dial].
    rewrite Hc. unfold bind at 1, send_pool. cbn [pl now].
    destruct (Nat.ltb_spec (length (clientPool (pl w))) poolCap) as [_|]; [|lia].
    match goal with
    | |- exists w', Connect_loop _ _ _ ?w1 = _ /\ _ =>
        destruct (IH (S i) w1) as (w' & Hrun & Hpool & Hpl & Hlast & Hnow & Hmpd)
    end.
    + cbn. rewrite length_app. cbn. lia.
    + intros j Hj. apply Hok. lia.
    + exists w'. split; [exact Hrun|]. cbn in Hpool, Hpl, Hlast, Hnow, Hmpd.
      rewrite Hpool, <- app_assoc. unfold opened at 2. rewrite Hc.
      repeat split; assumption.
Qed.

Lemma Connect_loop_first_error (dials : nat -> result Conn) (n i k : nat) (w : World)
    (e : error) :
  (length (clientPool (pl w)) + n <= poolCap)%nat ->
  (i <= k < i + n)%nat -> dials k = Err e ->
  (forall j, (i <= j < k)%nat -> exists c, dials j = Ok c) ->
  exists w', Connect_loop dials i n w
             = Return (Some ("Error connecting to MPD: " +:+ e)) w'.
Proof.
  revert i w. induction n as [|n IH]; intros i w Hlen Hk He Hok; [lia|].
  cbn [Connect_loop]. unfold bind at 1, answers, modify. unfold bind at 1, newClient.
  cbn [dial]. destruct (decide (i = k)) as [->|Hne].
  - rewrite He. eauto.
  - destruct (Hok i ltac:(lia)) as [c Hc]. rewrite Hc.
    unfold bind at 1, send_pool. cbn [pl now].
    destruct (Nat.ltb_spec (length (clientPool (pl w))) poolCap) as [_|]; [|lia].
    apply IH; [cbn; rewrite length_app; cbn; lia | lia | exact He |].
    intros j Hj. apply Hok. lia.
Qed.

(** X13: [Connect] dials six times.  When every dial succeeds the player starts
    with six live connections in the pool, in the order dialled, an empty
    playlist and no track seen; when a dial fails, [Connect] returns the
    error of the first dial that fails and no player. *)
Theorem Connect_fills_pool (dials : nat -> result Conn) (d : Daemon) (t : Z) :
  ((forall j, (j < poolCap)%nat -> exists c, dials j = Ok c) ->
   exists w, Connect dials d t = Return None w
             /\ clientPool (pl w) = map (opened dials t) (seq 0 poolCap)
             /\ Forall (fun rc => is_Some (client rc) /\ reset_closed rc = false)
                  (clientPool (pl w))
             /\ playlist (pl w) = [] /\ lastTrack (pl w) = "" /\ mpd w = d)
  /\ (forall k e,
        (k < poolCap)%nat -> dials k = Err e ->
        (forall j, (j < k)%nat -> exists c, dials j = Ok c) ->
        exists w, Connect dials d t
                  = Return (Some ("Error connecting to MPD: " +:+ e)) w).
Proof.
  unfold Connect. split.
  - intros Hok.
    destruct (Connect_loop_all dials poolCap 0
                (mkWorld (mkPlayer [] [] "" []) d (dials 0%nat) t []))
      as (w & Hrun & Hpool & Hpl & Hlast & _ & Hmpd);
      [cbn; lia | intros j Hj; apply Hok; lia|].
    exists w. split; [exact Hrun|].
    cbn [pl clientPool playlist lastTrack mpd now app] in Hpool, Hpl, Hlast, Hmpd.
    split; [exact Hpool|]. split; [|auto].
    rewrite Hpool. apply Forall_forall. intros rc Hrc.
    apply list_elem_of_fmap in Hrc as (j & -> & Hj).
    apply elem_of_seq in Hj. destruct (Hok j ltac:(lia)) as [c Hc].
    unfold opened. rewrite Hc. cbn. eauto.
  - intros k e Hk He Hok.
    apply Connect_loop_first_error with (k := k); [cbn; lia | lia | exact He |].
    intros j Hj. apply Hok. lia.
Qed.

(** The third dial is refused. *)
Definition third_refused (j : nat) : result Conn :=
  if (j =? 2)%nat then Err "connection refused" else Ok (conn j).

Lemma Connect_fills_pool_witness :
  (forall j, (j < poolCap)%nat -> exists c, (fun j => Ok (conn j)) j = Ok c)
  /\ (exists w, Connect (fun j => Ok (conn j)) quiet 0 = Return None w
                /\ length (clientPool (pl w)) = 6%nat)
  /\ (exists w, Connect third_refused quiet 0
                = Return (Some "Error connecting to MPD: connection refused") w).
Proof.
  assert (Hall : forall j, (j < poolCap)%nat ->
                           exists c, (fun j => Ok (conn j)) j = Ok c) by eauto.
  split; [exact Hall|]. split.
  - destruct (Connect_fills_pool (fun j => Ok (conn j)) quiet 0) as [Hok _].
    destruct (Hok Hall) as (w & Hrun & Hpool & _).
    exists w. split; [exact Hrun|]. rewrite Hpool. reflexivity.
  - destruct (Connect_fills_pool third_refused quiet 0) as [_ Herr].
    apply (Herr 2%nat "connection refused"); [unfold poolCap; lia | reflexivity|].
    intros j Hj. exists (conn j). unfold third_refused.
    destruct (Nat.eqb_spec j 2); [lia | reflexivity].
Defined.

End PoolMore.
(** ** The sync loop: what it does to the daemon and to the playlist *)

Module SyncMore.
Import GoStrings Strconv Player Mpd PoolFacts SyncFacts.

(** What the sync loop may do to the daemon: drop songs from the front of
    the queue and write play-count stickers. *)
Definition tidies (w w' : World) : Prop :=
  (exists k, queue (mpd w') = drop k (queue (mpd w)))
  /\ (forall key, snd key <> "play-count" ->
                  stickers (mpd w') !! key = stickers (mpd w) !! key).

Lemma tidies_refl (w : World) : tidies w w.
Proof. split; [exists 0%nat; reflexivity | reflexivity]. Qed.

Lemma tidies_trans (w1 w2 w3 : World) : tidies w1 w2 -> tidies w2 w3 -> tidies w1 w3.
Proof.
  intros ([k1 Hq1] & Hs1) ([k2 Hq2] & Hs2). split.
  - exists (k1 + k2)%nat. now rewrite Hq2, Hq1, drop_drop.
  - intros key Hkey. now rewrite Hs2, Hs1.
Qed.

Lemma tidies_same_mpd (w w' : World) : mpd w' = mpd w -> tidies w w'.
Proof. intros H. unfold tidies. rewrite H. apply (tidies_refl w). Qed.

Lemma withMpdV_tidies {V : Type} (v0 : V)
    (fn : option Conn -> M World (V * option error)) (w w' : World)
    (res : V * option error) :
  (forall c w1 r w2, fn (Some c) w1 = Return r w2 -> tidies w1 w2) ->
  withMpdV v0 fn w = Return res w' -> tidies w w'.
Proof.
  intros Hfn. rewrite withMpdV_acquire.
  destruct (clientPool (pl w)) as [|rc rest]; [discriminate|].
  destruct (acquire rc w) as [c rc'|e|]; [| |discriminate].
  - intros H. minv.
    match goal with
    | Hf : fn _ _ = Return _ _, Hs : send_pool _ _ = Return _ _ |- _ =>
        apply Hfn in Hf; unfold send_pool in Hs;
        destruct (_ <? _)%nat; [injection Hs as _ <- | discriminate Hs];
        eapply tidies_trans; [apply tidies_same_mpd; reflexivity|];
        eapply tidies_trans; [exact Hf | apply tidies_same_mpd; reflexivity]
    end.
  - intros [= _ <-]. now apply tidies_same_mpd.
Qed.

Lemma withMpd_tidies (fn : option Conn -> M World (option error)) (w w' : World)
    (e : option error) :
  (forall c w1 r w2, fn (Some c) w1 = Return r w2 -> tidies w1 w2) ->
  withMpd fn w = Return e w' -> tidies w w'.
Proof.
  intros Hfn. unfold withMpd. intros H. minv.
  match goal with
  | Hw : withMpdV _ _ _ = Return _ _ |- _ =>
      apply withMpdV_tidies in Hw; [exact Hw|]
  end.
  intros c w1 r w2 H1. minv. eapply Hfn; eauto.
Qed.

(** X14: [removePlayedTracks] removes from the daemon's queue the songs before
    the one playing, as many as the "song" attribute of the status says,
    and nothing when that attribute is missing, unreadable or not
    positive; when it returns an error the daemon is as before; the
    player's own state is never touched. *)
Theorem removePlayedTracks_drops (c : Conn) (w w' : World) (e : option error) :
  removePlayedTracks (Some c) w = Return e w' ->
  pl w' = pl w /\ stickers (mpd w') = stickers (mpd w)
  /\ (e = None ->
      queue (mpd w')
      = drop (Z.to_nat (fst (statusAttrInt (status (mpd w)) "song"))) (queue (mpd w)))
  /\ (e <> None -> w' = w).
Proof.
  unfold removePlayedTracks. intros H. minv.
  match goal with
  | Hs : Status _ _ = Return ?r _ |- _ =>
      unfold Status in Hs; apply query_Return in Hs as [-> Hr]; destruct r as [st|e0]
  end.
  2:{ minv. repeat split; congruence. }
  assert (Hst : st = status (mpd w)).
  { destruct Hr as [[= ->]|(e0 & _ & [=])]. reflexivity. }
  subst st. set (k := fst (statusAttrInt (status (mpd w)) "song")) in *.
  destruct (Z.gtb_spec k 0) as [Hk|Hk].
  2:{ minv. repeat split; try congruence.
      replace (Z.to_nat k) with 0%nat by lia. reflexivity. }
  minv.
  match goal with
  | Hd : Delete _ _ _ _ = Return ?r _ |- _ =>
      unfold Delete in Hd;
      apply command_Return in Hd as [(e0 & _ & -> & ->)|(_ & -> & ->)]
  end.
  { minv. repeat split; congruence. }
  cbn [fst snd] in *.
  destruct (Z.ltb_spec k 0); [lia|].
  destruct ((0 <=? 0) && (0 <=? k) && (k <=? Z.of_nat (length (queue (mpd w)))))
    eqn:Hrange; cbn [fst snd] in *; minv.
  - repeat split; congruence.
  - rewrite set_mpd_same. repeat split; congruence.
Qed.

Lemma removePlayedTracks_tidies (c : Conn) (w w' : World) (e : option error) :
  removePlayedTracks (Some c) w = Return e w' -> tidies w w'.
Proof.
  unfold removePlayedTracks. intros H. minv.
  match goal with
  | Hs : Status _ _ = Return ?r _ |- _ =>
      unfold Status in Hs; apply query_Return in Hs as [-> _]; destruct r as [st|e0]
  end; [|minv; apply tidies_refl].
  destruct (fst (statusAttrInt st "song") >? 0); [|minv; apply tidies_refl].
  minv.
  match goal with
  | Hd : Delete _ _ _ _ = Return ?r _ |- _ =>
      unfold Delete in Hd;
      apply command_Return in Hd as [(e0 & _ & -> & ->)|(_ & -> & ->)]
  end.
  { minv. apply tidies_refl. }
  destruct (_ && _); cbn [fst snd] in *; minv.
  - split; [|reflexivity].
    cbn [mpd set_mpd set_queue queue take app].
    destruct (fst (statusAttrInt st "song") <? 0); eauto.
  - rewrite set_mpd_same. apply tidies_refl.
Qed.


(** What [removePlayedTracks] leaves when the daemon answers. *)
Definition played (w : World) : World :=
  set_mpd (set_queue (drop (Z.to_nat (fst (statusAttrInt (status (mpd w)) "song")))
                        (queue (mpd w))) (mpd w)) w.

Lemma set_queue_same (d : Daemon) : set_queue (queue d) d = d.
Proof. now destruct d. Qed.

Lemma removePlayedTracks_runs (c : Conn) (w : World) :
  failing (mpd w) CStatus = None -> failing (mpd w) CDelete = None ->
  fst (statusAttrInt (status (mpd w)) "song") <= Z.of_nat (length (queue (mpd w))) ->
  removePlayedTracks (Some c) w = Return None (played w).
Proof.
  intros Hs Hd Hk. unfold removePlayedTracks, played, Status, Delete, command, bind, ret.
  rewrite Hs, set_mpd_same.
  set (k := fst (statusAttrInt (status (mpd w)) "song")) in *.
  destruct (Z.gtb_spec k 0) as [Hpos|Hneg].
  - rewrite Hd. destruct (Z.ltb_spec k 0); [lia|].
    replace ((0 <=? 0) && (0 <=? k) && (k <=? Z.of_nat (length (queue (mpd w)))))
      with true by (symmetry; rewrite !andb_true_iff, !Z.leb_le; lia).
    reflexivity.
  - replace (Z.to_nat k) with 0%nat by lia.
    now rewrite drop_0, set_queue_same, set_mpd_same.
Qed.

Lemma loadPlaylist_runs (c : Conn) (w : World) :
  failing (mpd w) CPlaylistInfo = None ->
  loadPlaylist (Some c) w = Return (Ok (map song_uri (queue (mpd w)))) w.
Proof.
  intros Hf. unfold loadPlaylist, PlaylistInfo, command, bind, ret.
  now rewrite Hf, set_mpd_same.
Qed.

Section WithPlayerPackage.

Variable InterpolatePlaylistMeta :
  list PlaylistTrack -> list string -> list PlaylistTrack.

Abbreviation on_mpd_playlist := (Mpd.on_mpd_playlist InterpolatePlaylistMeta).

(** X15: When a connection can be had and the daemon answers, the handler of a
    playlist notification returns with the local playlist in sync with the
    daemon's queue and nothing logged, provided [InterpolatePlaylistMeta]
    returns one track per URI it is given, with that URI.  When the two
    were out of sync before, the songs already played are gone from the
    queue, the playlist is rebuilt from what is left, "playlist" is
    emitted, and "playlist-end" after it exactly when nothing is left. *)
Theorem on_mpd_playlist_converges (w : World) (rc : reusableClient)
    (rest : list reusableClient) (c : Conn) (rc' : reusableClient) :
  (forall plist ids, map TrackUri (InterpolatePlaylistMeta plist ids) = ids) ->
  clientPool (pl w) = rc :: rest -> acquire rc w = AcqConn c rc' ->
  (length rest < poolCap)%nat ->
  failing (mpd w) CPlaylistInfo = None -> failing (mpd w) CStatus = None ->
  failing (mpd w) CDelete = None ->
  fst (statusAttrInt (status (mpd w)) "song") <= Z.of_nat (length (queue (mpd w))) ->
  exists w',
    on_mpd_playlist w = Return tt w'
    /\ in_sync w' (playlist (pl w')) /\ logged w' = logged w
    /\ clientPool (pl w') = rest ++ [rc']
    /\ (~ in_sync w (playlist (pl w)) ->
        mpd w' = mpd (played w)
        /\ playlist (pl w')
           = InterpolatePlaylistMeta (playlist (pl w))
               (map song_uri (queue (mpd (played w))))
        /\ emitted (pl w')
           = emitted (pl w) ++ match queue (mpd (played w)) with
                               | [] => ["playlist"; "playlist-end"]
                               | _ => ["playlist"]
                               end).
Proof.
  intros Hint Hpool Hacq Hcap Hinfo Hstatus Hdelete Hsong.
  unfold Mpd.on_mpd_playlist, withMpd.
  unfold bind at 1. unfold bind at 1. rewrite withMpdV_acquire, Hpool, Hacq.
  set (w0 := set_pool rest w).
  destruct (playlistMatchesServer_spec c (playlist (pl w0)) w0)
    as (b & err & Hpms & Herr & Hb).
  change (failing (mpd w0) CPlaylistInfo) with (failing (mpd w) CPlaylistInfo) in *.
  rewrite Hinfo in Herr, Hb. subst err.
  unfold bind at 1. unfold bind at 1. unfold bind at 1. unfold gets at 1.
  rewrite (bind_runs _ _ _ _ _ Hpms).
  assert (Hlen : (length (clientPool (pl w0)) <? poolCap)%nat = true)
    by (apply Nat.ltb_lt; exact Hcap).
  destruct b.
  - assert (Hsync : in_sync w (playlist (pl w))) by (apply Hb; reflexivity).
    unfold ret, bind, send_pool, log_if_error. rewrite Hlen. cbn [snd].
    eexists. split; [reflexivity|]. split; [exact Hsync|]. split; [reflexivity|]. split; [reflexivity|].
    intros Hno. now destruct Hno.
  - rewrite (bind_runs _ _ _ _ _ (removePlayedTracks_runs c w0 Hstatus Hdelete Hsong)).
    rewrite (bind_runs _ _ _ _ _ (loadPlaylist_runs c (played w0) Hinfo)).
    unfold Emit. unfold bind, gets, modify, ret, send_pool, log_if_error.
    set (newPlist := InterpolatePlaylistMeta _ _).
    assert (Hnew : map TrackUri newPlist = map song_uri (queue (mpd (played w))))
      by apply Hint.
    assert (Hempty : (length newPlist =? 0)%nat
                     = match queue (mpd (played w)) with [] => true | _ => false end).
    { apply (f_equal length) in Hnew. rewrite !length_map in Hnew. rewrite Hnew.
      now destruct (queue (mpd (played w))). }
    rewrite Hempty. clear Hempty Hlen.
    apply Nat.ltb_lt in Hcap.
    destruct (queue (mpd (played w))) as [|song songs] eqn:Hq;
      cbn [set_playlist set_pl add_emitted pl clientPool playlist lastTrack emitted
           mpd dial now logged snd set_pool played set_mpd w0];
      rewrite Hcap;
      (eexists; split; [reflexivity|]);
      (split; [change (map song_uri (queue (mpd (played w))) = map TrackUri newPlist);
               rewrite Hq; symmetry; exact Hnew|]);
      cbn [set_playlist set_pl add_emitted pl clientPool playlist lastTrack emitted
           mpd dial now logged snd set_pool played set_mpd];
      rewrite <- ?app_assoc; repeat split.
Qed.


Lemma log_if_error_tidies (e : option error) (w w' : World) :
  log_if_error e w = Return tt w' -> tidies w w'.
Proof. destruct e; cbn; intros H; minv; now apply tidies_same_mpd. Qed.

Lemma on_mpd_playlist_tidies (w w' : World) :
  on_mpd_playlist w = Return tt w' -> tidies w w'.
Proof.
  unfold Mpd.on_mpd_playlist. intros H. minv.
  apply log_if_error_tidies in H.
  eapply tidies_trans; [|exact H].
  match goal with
  | Hw : withMpd _ _ = Return _ _ |- _ => apply withMpd_tidies in Hw; [exact Hw|]
  end.
  clear. intros c w1 r w2 H. minv.
  match goal with
  | Hp : playlistMatchesServer _ ?plist ?w = Return ?res _ |- _ =>
      destruct (playlistMatchesServer_spec c plist w) as (b & err & Hpms & _ & _);
      rewrite Hpms in Hp; injection Hp as <- <-; clear Hpms
  end.
  destruct err as [e|]; [destruct b; minv; apply tidies_refl|].
  destruct b; [minv; apply tidies_refl|].
  minv.
  match goal with
  | Hr : removePlayedTracks _ _ = Return ?e _ |- _ =>
      apply removePlayedTracks_tidies in Hr; destruct e as [e|]
  end; [minv; assumption|].
  minv. eapply tidies_trans; [eassumption|].
  match goal with
  | Hl : loadPlaylist _ _ = Return ?r _ |- _ =>
      unfold loadPlaylist in Hl; minv
  end.
  match goal with
  | Hs : PlaylistInfo _ _ = Return ?r _ |- _ =>
      unfold PlaylistInfo in Hs; apply query_Return in Hs as [-> _]; destruct r
  end; minv; [|apply tidies_refl].
  unfold Emit in *. minv.
  match goal with
  | Hif : (if ?b then _ else _) _ = Return _ _ |- _ => destruct b; minv
  end; now apply tidies_same_mpd.
Qed.

End WithPlayerPackage.

Lemma counted_tidies (uri : string) (w : World) : tidies w (counted uri w).
Proof.
  split; [exists 0%nat; reflexivity|].
  intros key Hkey. unfold counted. cbn [mpd set_mpd stickers set_stickers].
  apply lookup_insert_ne. intros <-. now apply Hkey.
Qed.

Lemma on_playlist_tidies (w w' : World) : on_playlist w = Return tt w' -> tidies w w'.
Proof.
  unfold on_playlist. intros H. minv.
  apply log_if_error_tidies in H.
  eapply tidies_trans; [|exact H].
  match goal with
  | Hw : withMpd _ _ = Return _ _ |- _ => apply withMpd_tidies in Hw; [exact Hw|]
  end.
  clear. intros c w1 r w2 H.
  apply on_playlist_callback_Return in H.
  destruct (playlist (pl w1)) as [|cur tl]; [destruct H as [_ ->]; apply tidies_refl|].
  destruct (head_changed w1 cur).
  - destruct H as (w3 & Hsame & _ & [[_ ->]|[(_ & _ & ->)|(_ & _ & ->)]]).
    + apply tidies_same_mpd, Hsame.
    + apply tidies_same_mpd. cbn. apply Hsame.
    + eapply tidies_trans; [apply tidies_same_mpd, Hsame|].
      eapply tidies_trans; [apply counted_tidies|]. now apply tidies_same_mpd.
  - destruct H as [_ ->]. now apply tidies_same_mpd.
Qed.

Lemma on_mpd_update_tidies (w w' : World) : on_mpd_update w = Return tt w' -> tidies w w'.
Proof.
  unfold on_mpd_update. intros H. minv.
  apply log_if_error_tidies in H.
  eapply tidies_trans; [|exact H].
  match goal with
  | Hw : withMpd _ _ = Return _ _ |- _ => apply withMpd_tidies in Hw; [exact Hw|]
  end.
  clear. intros c w1 r w2 H. minv.
  match goal with
  | Hs : Status _ _ = Return ?r _ |- _ =>
      unfold Status in Hs; apply query_Return in Hs as [-> _]; destruct r as [st|e]
  end; [|minv; apply tidies_refl].
  destruct (st !! "updating_db"); unfold Emit in *; minv;
    now apply tidies_same_mpd.
Qed.

Section WithPlayerPackage.

Variable InterpolatePlaylistMeta :
  list PlaylistTrack -> list string -> list PlaylistTrack.

Abbreviation mainLoop_step := (Mpd.mainLoop_step InterpolatePlaylistMeta).

Lemma mainLoop_step_tidies (event : string) (w w' : World) :
  mainLoop_step event w = Return tt w' -> tidies w w'.
Proof.
  unfold Mpd.mainLoop_step, Emit.
  destruct (String.eqb event "mpd-player").
  { intros H. minv. apply on_mpd_playlist_tidies in H.
    eapply tidies_trans; [|exact H]. now apply tidies_same_mpd. }
  destruct (String.eqb event "mpd-playlist"); [apply on_mpd_playlist_tidies|].
  destruct (String.eqb event "playlist"); [apply on_playlist_tidies|].
  destruct (String.eqb event "mpd-mixer"); [intros H; minv; now apply tidies_same_mpd|].
  destruct (String.eqb event "mpd-update"); [apply on_mpd_update_tidies|].
  intros H. minv. apply tidies_refl.
Qed.

(** What the daemon shows when an iteration starts.  From one iteration
    to the next the daemon moves on by itself: it renumbers the song
    playing after a deletion, the elapsed time advances, it may stop or
    start answering commands.  Its queue and its stickers change by the
    commands of its clients only. *)
Record shown := mkShown {
  shown_status : Attrs;
  shown_current : Attrs;
  shown_failing : Cmd -> option error
}.

Definition show (s : shown) (w : World) : World :=
  set_mpd (mkDaemon (queue (mpd w)) (shown_status s) (database (mpd w))
             (shown_current s) (stickers (mpd w)) (shown_failing s)) w.

(** The sync loop on the events it receives, each with what the daemon
    shows when the iteration starts. *)
Fixpoint mainLoop_shown (events : list (string * shown)) : M World unit :=
  match events with
  | [] => ret tt
  | (event, s) :: events' =>
      modify (show s) ;;; mainLoop_step event ;;; mainLoop_shown events'
  end.

(** X16: Whatever events the sync loop receives, whatever status the daemon
    shows at each iteration and whether or not it answers the commands,
    what the loop does to the queue and the stickers of the daemon is this:
    it removes songs from the front of the queue, never adding or
    reordering any, and it writes stickers named "play-count" and no
    others. *)
Theorem mainLoop_tidies (events : list (string * shown)) (w w' : World) :
  mainLoop_shown events w = Return tt w' ->
  (exists k, queue (mpd w') = drop k (queue (mpd w)))
  /\ (forall uri name, name <> "play-count" ->
                       stickers (mpd w') !! (uri, name) = stickers (mpd w) !! (uri, name)).
Proof.
  intros H. assert (Ht : tidies w w').
  { revert w H. induction events as [|[event s] events IH]; intros w H;
      cbn [mainLoop_shown] in H; minv.
    - apply tidies_refl.
    - repeat match goal with a : unit |- _ => destruct a end.
      eapply tidies_trans; [|eapply tidies_trans;
                              [eapply mainLoop_step_tidies; eassumption | now apply IH]].
      split; [exists 0%nat; reflexivity | reflexivity]. }
  destruct Ht as (Hq & Hs). split; [exact Hq|].
  intros uri name Hname. now apply Hs.
Qed.

End WithPlayerPackage.

(** X17: On a database-update notification the sync loop announces "tracks"
    only when the daemon has answered the status query and reports no
    update in progress; otherwise it emits nothing.  The daemon and the
    playlist are left as they are. *)
Theorem on_mpd_update_emits (w w' : World) :
  on_mpd_update w = Return tt w' ->
  mpd w' = mpd w /\ playlist (pl w') = playlist (pl w)
  /\ ((emitted (pl w') = emitted (pl w) ++ ["tracks"] /\ logged w' = logged w
       /\ failing (mpd w) CStatus = None /\ status (mpd w) !! "updating_db" = None)
      \/ (emitted (pl w') = emitted (pl w)
          /\ (is_Some (status (mpd w) !! "updating_db")
              \/ exists e, logged w' = logged w ++ [e]))).
Proof.
  unfold on_mpd_update, withMpd. intros H. minv.
  match goal with
  | Hw : withMpdV _ _ _ = Return _ _ |- _ => rewrite withMpdV_acquire in Hw
  end.
  destruct (clientPool (pl w)) as [|rc rest]; [discriminate|].
  destruct (acquire rc w) as [c rc'|e|]; [| |discriminate].
  2:{ minv. cbn in H. minv. cbn. split; [reflexivity|]. split; [reflexivity|].
      right. eauto. }
  minv.
  match goal with
  | Hs : send_pool _ _ = Return _ _ |- _ =>
      unfold send_pool in Hs;
      destruct (_ <? _)%nat; [injection Hs as _ <- | discriminate Hs]
  end.
  match goal with
  | Hs : Status _ _ = Return ?r _ |- _ =>
      unfold Status, command in Hs; cbn [mpd set_pool set_pl] in Hs;
      destruct (failing (mpd w) CStatus) as [e|] eqn:Hfail; minv
  end.
  { cbn in H. minv. cbn. split; [reflexivity|]. split; [reflexivity|]. right. eauto. }
  cbn [mpd set_pool set_pl status] in *.
  destruct (status (mpd w) !! "updating_db") as [v|] eqn:Hupd; unfold Emit in *; minv;
    cbn in H; minv; cbn; (split; [reflexivity|]); (split; [reflexivity|]).
  - right. eauto.
  - left. auto.
Qed.

(** X18: The handler of a "playlist" event holds a connection while it calls
    [Seek], which takes one of its own: when the head of the playlist has
    changed to a track with progress and the pool holds one connection
    only, the handler waits for a connection that nothing returns. *)
Theorem on_playlist_seek_blocks (w : World) (rc rc' : reusableClient) (c : Conn)
    (cur : PlaylistTrack) (tl : list PlaylistTrack) :
  clientPool (pl w) = [rc] -> acquire rc w = AcqConn c rc' ->
  playlist (pl w) = cur :: tl -> head_changed w cur = true -> Progress cur <> 0 ->
  on_playlist w = Blocked.
Proof.
  intros Hpool Hacq Hplist Hhead Hprog.
  unfold on_playlist, withMpd. unfold bind at 1. unfold bind at 1.
  rewrite withMpdV_acquire, Hpool, Hacq.
  unfold bind at 1. unfold bind at 1.
  unfold on_playlist_callback. unfold bind at 1. unfold gets at 1.
  cbn [set_pool set_pl pl playlist]. rewrite Hplist.
  unfold bind at 1. unfold gets at 1. unfold bind at 1.
  cbn [set_pool set_pl pl lastTrack].
  unfold head_changed in Hhead. rewrite Hhead.
  destruct (Z.eqb_spec (Progress cur) 0) as [|_]; [contradiction|]. cbn [negb].
  unfold bind at 1. unfold Seek, withMpd. unfold bind at 1.
  rewrite withMpdV_acquire. reflexivity.
Qed.

End SyncMore.

Module SyncMoreExamples.
Import GoStrings Strconv Player Mpd PoolFacts SyncFacts SyncExamples SyncMore.

(** An [InterpolatePlaylistMeta] that keeps no metadata. *)
Definition bare (_ : list PlaylistTrack) (ids : list string) : list PlaylistTrack :=
  map (fun uri => mkPlaylistTrack uri "" 0) ids.

Lemma bare_uris (plist : list PlaylistTrack) (ids : list string) :
  map TrackUri (bare plist ids) = ids.
Proof.
  unfold bare. rewrite map_map. cbn. now rewrite map_id.
Qed.

(** The daemon has moved on to the second song of a queue to which [c.mp3]
    was added behind the player's back. *)
Definition daemon_moved : Daemon :=
  mkDaemon [song "a.mp3"; song "b.mp3"; song "c.mp3"] {[ "song" := "1" ]}
    (fun _ => []) ∅ ∅ (fun _ => None).

Definition world_moved : World :=
  mkWorld (mkPlayer [live 1; live 2]
             [mkPlaylistTrack "mpd://a.mp3" "alice" 0;
              mkPlaylistTrack "mpd://b.mp3" "bob" 0]
             "mpd://a.mp3" [])
    daemon_moved (Ok (conn 9)) 40 [].

(** What a computation leaves, or [w] when it does not return. *)
Definition after {A : Type} (o : outcome World A) (w : World) : World :=
  match o with
  | Return _ w' => w'
  | _ => w
  end.

Lemma removePlayedTracks_drops_witness :
  removePlayedTracks (Some (conn 1)) world_moved = Return None (played world_moved)
  /\ queue (mpd (played world_moved)) = [song "b.mp3"; song "c.mp3"].
Proof.
  assert (Hrun : removePlayedTracks (Some (conn 1)) world_moved
                 = Return None (played world_moved)) by (vm_compute; reflexivity).
  split; [exact Hrun|].
  destruct (removePlayedTracks_drops _ _ _ _ Hrun) as (_ & _ & Hq & _).
  rewrite (Hq eq_refl). vm_compute. reflexivity.
Defined.

Lemma on_mpd_playlist_converges_witness :
  exists w',
    on_mpd_playlist bare world_moved = Return tt w'
    /\ in_sync w' (playlist (pl w'))
    /\ playlist (pl w') = [mkPlaylistTrack "mpd://b.mp3" "" 0;
                           mkPlaylistTrack "mpd://c.mp3" "" 0]
    /\ emitted (pl w') = ["playlist"].
Proof.
  destruct (on_mpd_playlist_converges bare world_moved (live 1) [live 2] (conn 1)
              (mkRC (Some (conn 1)) false false (40 + expireAfter))
              bare_uris eq_refl eq_refl
              ltac:(unfold poolCap; simpl; lia) eq_refl eq_refl eq_refl
              ltac:(vm_compute; discriminate))
    as (w' & Hrun & Hsync & _ & _ & Hout).
  exists w'. split; [exact Hrun|]. split; [exact Hsync|].
  destruct Hout as (_ & Hp & He).
  { unfold in_sync. vm_compute. discriminate. }
  split; [rewrite Hp | rewrite He]; vm_compute; reflexivity.
Defined.

(** The daemon shows song 1 when the first event is handled, and song 0,
    renumbered after the deletion, from then on. *)
Definition shows (song : string) : shown :=
  mkShown {[ "song" := song ]} ∅ (fun _ => None).

Definition three_events : list (string * shown) :=
  [("mpd-player", shows "1"); ("mpd-playlist", shows "0"); ("playlist", shows "0")].

Lemma mainLoop_tidies_witness :
  mainLoop_shown bare three_events world_moved
  = Return tt (after (mainLoop_shown bare three_events world_moved) world_moved)
  /\ queue (mpd (after (mainLoop_shown bare three_events world_moved) world_moved))
     = [song "b.mp3"; song "c.mp3"]
  /\ exists k,
      queue (mpd (after (mainLoop_shown bare three_events world_moved) world_moved))
      = drop k (queue daemon_moved).
Proof.
  assert (Hrun : mainLoop_shown bare three_events world_moved
                 = Return tt (after (mainLoop_shown bare three_events world_moved)
                                world_moved))
    by (vm_compute; reflexivity).
  split; [exact Hrun|]. split; [vm_compute; reflexivity|].
  exact (proj1 (mainLoop_tidies bare _ _ _ Hrun)).
Defined.

Lemma on_mpd_update_emits_witness :
  on_mpd_update world_moved
  = Return tt (after (on_mpd_update world_moved) world_moved)
  /\ emitted (pl (after (on_mpd_update world_moved) world_moved)) = ["tracks"].
Proof.
  assert (Hrun : on_mpd_update world_moved
                 = Return tt (after (on_mpd_update world_moved) world_moved))
    by (vm_compute; reflexivity).
  split; [exact Hrun|].
  destruct (on_mpd_update_emits _ _ Hrun) as (_ & _ & [(He & _)|(_ & [Hu|[e Hl]])]).
  - exact He.
  - vm_compute in Hu. destruct Hu as [v Hv]. discriminate Hv.
  - vm_compute in Hl. destruct e; discriminate Hl.
Defined.

(** The head has changed to a track that is to resume at 5 s, and one
    connection is left in the pool. *)
Definition world_resume : World :=
  mkWorld (mkPlayer [live 1]
             [mkPlaylistTrack "mpd://b.mp3" "system" (5 * Second)]
             "mpd://a.mp3" [])
    daemon_b (Ok (conn 9)) 40 [].

Lemma on_playlist_seek_blocks_witness : on_playlist world_resume = Blocked.
Proof.
  apply (on_playlist_seek_blocks world_resume (live 1)
           (mkRC (Some (conn 1)) false false (40 + expireAfter)) (conn 1)
           (mkPlaylistTrack "mpd://b.mp3" "system" (5 * Second)) []);
    try reflexivity.
  vm_compute. discriminate.
Defined.

End SyncMoreExamples.

(** ** The queries [Tracks] and [TrackInfo] *)

Module TracksMore.
Import GoStrings Strconv Player Mpd PoolFacts SyncFacts SyncMore.

(** The song is a directory entry of the listing. *)
Definition is_dir (song : Attrs) : bool :=
  match song !! "directory" with
  | Some _ => true
  | None => false
  end.

(** The "Time" attribute of the song is absent, empty or a 32-bit
    integer. *)
Definition timed (song : Attrs) : Prop :=
  attr song "Time" = "" \/ snd (ParseInt32 (attr song "Time")) = None.

(** What [StickerGet] hands to a caller that drops the error. *)
Definition sticker_or_empty (d : Daemon) (uri name : string) : string :=
  match failing d CStickerGet with
  | Some _ => ""
  | None => default "" (stickers d !! (uri, name))
  end.

Section WithPlayerPackage.

Variable InterpolateMissingFields : Track -> Track.

Abbreviation trackFromMpdSong := (Mpd.trackFromMpdSong InterpolateMissingFields).
Abbreviation songs_to_tracks := (Mpd.songs_to_tracks InterpolateMissingFields).
Abbreviation Tracks := (Mpd.Tracks InterpolateMissingFields).
Abbreviation TrackInfo := (Mpd.TrackInfo InterpolateMissingFields).

(** The track of a song, written into a fresh slot. *)
Definition track_of (d : Daemon) (song : Attrs) : Track :=
  InterpolateMissingFields
    (mkTrack (mpdToUri (attr song "file")) (attr song "Artist") (attr song "Title")
       (attr song "Genre") (attr song "Album") (attr song "AlbumArtist")
       (attr song "Disc") (attr song "Track")
       (match ParseInt32 (sticker_or_empty d (attr song "file") "image-nchunks") with
        | (_, None) => true
        | _ => false
        end)
       (if String.eqb (attr song "Time") "" then 0
        else fst (ParseInt32 (attr song "Time")) * Second)).

Lemma trackFromMpdSong_runs (c : Conn) (song : Attrs) (w : World) :
  is_dir song = false -> timed song ->
  trackFromMpdSong (Some c) song zeroTrack w = Return (track_of (mpd w) song) w.
Proof.
  unfold is_dir, timed, Mpd.trackFromMpdSong, track_of, sticker_or_empty.
  destruct (song !! "directory"); [discriminate|]. intros _ Htime.
  unfold StickerGet, command, bind.
  assert (Hdur : (if String.eqb (attr song "Time") "" then ret (Duration zeroTrack)
                  else match ParseInt32 (attr song "Time") with
                       | (d, None) => ret (d * Second)
                       | (_, Some _) => panic "strconv.ParseInt: invalid syntax"
                       end)
                 = ret (if String.eqb (attr song "Time") "" then 0
                        else fst (ParseInt32 (attr song "Time")) * Second)
                 :> M World Z).
  { destruct (String.eqb_spec (attr song "Time") "") as [|Hne]; [reflexivity|].
    destruct Htime as [|Hp]; [contradiction|].
    destruct (ParseInt32 (attr song "Time")) as [d [e|]]; [discriminate Hp|reflexivity]. }
  destruct (failing (mpd w) CStickerGet) as [e|].
  - rewrite Hdur. reflexivity.
  - destruct (stickers (mpd w) !! (attr song "file", "image-nchunks")) as [v|];
      rewrite set_mpd_same, Hdur; reflexivity.
Qed.

(** A song whose "Time" is not a number makes [trackFromMpdSong] panic. *)
Lemma trackFromMpdSong_panics (c : Conn) (song : Attrs) (slot : Track) (w : World) :
  is_dir song = false -> ~ timed song ->
  exists msg, trackFromMpdSong (Some c) song slot w = Panic msg.
Proof.
  unfold is_dir, timed, Mpd.trackFromMpdSong.
  destruct (song !! "directory"); [discriminate|]. intros _ Htime.
  unfold StickerGet, command, bind.
  assert (Hdur : forall w' : World,
             ((if String.eqb (attr song "Time") "" then ret (Duration slot)
               else match ParseInt32 (attr song "Time") with
                    | (d, None) => ret (d * Second)
                    | (_, Some _) => panic "strconv.ParseInt: invalid syntax"
                    end) : M World Z) w'
             = Panic "strconv.ParseInt: invalid syntax").
  { intros w'. destruct (String.eqb_spec (attr song "Time") "") as [He|Hne]; [tauto|].
    destruct (ParseInt32 (attr song "Time")) as [d [e|]]; [reflexivity|].
    exfalso. apply Htime. now right. }
  destruct (failing (mpd w) CStickerGet) as [e|].
  - rewrite Hdur. eauto.
  - destruct (stickers (mpd w) !! (attr song "file", "image-nchunks")) as [v|];
      rewrite Hdur; eauto.
Qed.

(** The slice that the loop over the songs fills: a zero track for a nil
    song, nothing for a directory, its track for a file. *)
Fixpoint fill (d : Daemon) (songs : list (option Attrs)) : list Track :=
  match songs with
  | [] => []
  | None :: songs' => zeroTrack :: fill d songs'
  | Some song :: songs' =>
      if is_dir song then fill d songs' else track_of d song :: fill d songs'
  end.

Fixpoint dirs (songs : list (option Attrs)) : nat :=
  match songs with
  | [] => 0
  | None :: songs' => dirs songs'
  | Some song :: songs' => if is_dir song then S (dirs songs') else dirs songs'
  end.

Lemma fill_dirs_length (d : Daemon) (songs : list (option Attrs)) :
  (length (fill d songs) + dirs songs = length songs)%nat.
Proof.
  induction songs as [|[song|] songs IH]; cbn; [lia| |lia].
  destruct (is_dir song); cbn; lia.
Qed.

Definition all_timed (songs : list (option Attrs)) : Prop :=
  Forall (fun s => match s with
                   | Some song => is_dir song = false -> timed song
                   | None => True
                   end) songs.

(** The invariant of the loop: the slots before [i - numDirs] are filled,
    those from there on are zero. *)
Lemma songs_to_tracks_fill (c : Conn) (w : World) (songs : list (option Attrs)) :
  forall (done : list Track) (n i numDirs : nat),
    (numDirs <= i)%nat -> length done = (i - numDirs)%nat ->
    (length songs <= n)%nat -> all_timed songs ->
    songs_to_tracks (Some c) i numDirs songs (done ++ replicate n zeroTrack) w
    = Return ((numDirs + dirs songs)%nat,
              done ++ fill (mpd w) songs
                ++ replicate (n - length (fill (mpd w) songs)) zeroTrack) w.
Proof.
  induction songs as [|[song|] songs IH]; intros done n i numDirs Hle Hdone Hn Htimed;
    cbn [Mpd.songs_to_tracks fill dirs length] in *.
  - unfold ret. now rewrite Nat.add_0_r, Nat.sub_0_r.
  - apply Forall_cons in Htimed as [Hsong Htimed]. unfold is_dir in *.
    destruct (song !! "directory") as [dir|] eqn:Hdir.
    + rewrite (IH done n (S i) (S numDirs)); try assumption; try lia.
      now rewrite Nat.add_succ_r.
    + destruct n as [|n]; [lia|].
      rewrite <- Hdone, lookup_app_r, Nat.sub_diag by lia. cbn [replicate lookup].
      cbn [list_lookup].
      rewrite (bind_runs _ _ _ _ _
                 (trackFromMpdSong_runs c song w
                    ltac:(unfold is_dir; now rewrite Hdir) (Hsong eq_refl))).
      replace (<[length done := track_of (mpd w) song]> (done ++ zeroTrack :: replicate n zeroTrack))
        with ((done ++ [track_of (mpd w) song]) ++ replicate n zeroTrack).
      2:{ rewrite insert_app_r_alt, Nat.sub_diag by lia. cbn. now rewrite <- app_assoc. }
      rewrite (IH (done ++ [track_of (mpd w) song]) n (S i) numDirs); try assumption; try lia.
      * cbn [length Nat.sub]. now rewrite <- app_assoc.
      * rewrite length_app. cbn. lia.
  - apply Forall_cons in Htimed as [_ Htimed].
    destruct n as [|n]; [lia|].
    replace (done ++ replicate (S n) zeroTrack)
      with ((done ++ [zeroTrack]) ++ replicate n zeroTrack)
      by (cbn; now rewrite <- app_assoc).
    rewrite (IH (done ++ [zeroTrack]) n (S i) numDirs); try assumption; try lia.
    + cbn [length Nat.sub]. now rewrite <- !app_assoc.
    + rewrite length_app. cbn. lia.
Qed.

Lemma songs_to_tracks_result (c : Conn) (w : World) (songs : list (option Attrs)) :
  all_timed songs ->
  (res <- songs_to_tracks (Some c) 0 0 songs (replicate (length songs) zeroTrack) ;;
   let '(numDirs, tracks) := res in
   ret (Some (take (length tracks - numDirs) tracks), @None error)) w
  = Return (Some (fill (mpd w) songs), None) w.
Proof.
  intros Htimed.
  rewrite (bind_runs _ _ _ _ _
             (songs_to_tracks_fill c w songs [] (length songs) 0 0
                ltac:(lia) eq_refl ltac:(lia) Htimed)).
  cbn [app Nat.add]. unfold ret. do 2 f_equal.
  pose proof (fill_dirs_length (mpd w) songs) as Hlen.
  rewrite length_app, length_replicate.
  replace (length (fill (mpd w) songs) + (length songs - length (fill (mpd w) songs))
           - dirs songs)%nat with (length (fill (mpd w) songs)) by lia.
  now rewrite take_app_length.
Qed.

Lemma fill_files (d : Daemon) (songs : list Attrs) :
  fill d (map Some songs)
  = map (track_of d) (List.filter (fun song => negb (is_dir song)) songs).
Proof.
  induction songs as [|song songs IH]; cbn; [reflexivity|].
  destruct (is_dir song); cbn; now rewrite IH.
Qed.

(** X19: [Player.Tracks], when a connection can be had, the daemon answers the
    listing and every file's "Time" is a number: the result is the track of
    each file of the listing, in the order of the listing, the directories
    left out; there is no error and the connection is back in the pool. *)
Theorem Tracks_lists_files (w : World) (rc : reusableClient)
    (rest : list reusableClient) (c : Conn) (rc' : reusableClient) :
  clientPool (pl w) = rc :: rest -> acquire rc w = AcqConn c rc' ->
  (length rest < poolCap)%nat ->
  failing (mpd w) CListAllInfo = None ->
  Forall (fun song => is_dir song = false -> timed song) (database (mpd w) "/") ->
  Tracks w
  = Return (Some (map (track_of (mpd w))
                    (List.filter (fun song => negb (is_dir song))
                       (database (mpd w) "/"))), None)
      (set_pool (rest ++ [rc']) w).
Proof.
  intros Hpool Hacq Hcap Hlist Htimed.
  unfold Mpd.Tracks. rewrite withMpdV_acquire, Hpool, Hacq.
  unfold bind at 1. unfold bind at 1.
  unfold ListAllInfo at 1, command at 1. cbn [mpd set_pool set_pl].
  rewrite Hlist. rewrite <- (length_map Some).
  change (set_mpd (mpd w) (set_pool rest w)) with (set_pool rest w).
  rewrite songs_to_tracks_result.
  2:{ unfold all_timed. rewrite Forall_fmap. exact Htimed. }
  rewrite fill_files. unfold bind, ret, send_pool.
  apply Nat.ltb_lt in Hcap. cbn [set_pool set_pl set_mpd pl clientPool mpd]. now rewrite Hcap.
Qed.

(** X20: [Player.Tracks] panics when a file of the listing has a "Time" that is
    not a 32-bit integer. *)
Theorem Tracks_bad_time_panics (w : World) (rc : reusableClient)
    (rest : list reusableClient) (c : Conn) (rc' : reusableClient)
    (good : list Attrs) (bad : Attrs) (more : list Attrs) :
  clientPool (pl w) = rc :: rest -> acquire rc w = AcqConn c rc' ->
  failing (mpd w) CListAllInfo = None ->
  database (mpd w) "/" = good ++ bad :: more ->
  Forall (fun song => is_dir song = false -> timed song) good ->
  is_dir bad = false -> ~ timed bad ->
  exists msg, Tracks w = Panic msg.
Proof.
  intros Hpool Hacq Hlist Hdb Hgood Hfile Hbad.
  unfold Mpd.Tracks. rewrite withMpdV_acquire, Hpool, Hacq.
  unfold bind at 1. unfold bind at 1.
  unfold ListAllInfo at 1, command at 1. cbn [mpd set_pool set_pl].
  rewrite Hlist, Hdb.
  change (set_mpd (mpd w) (set_pool rest w)) with (set_pool rest w).
  set (w0 := set_pool rest w).
  assert (Hloop : forall songs done n i numDirs,
             Forall (fun song => is_dir song = false -> timed song) songs ->
             (numDirs <= i)%nat -> length done = (i - numDirs)%nat ->
             (length songs < n)%nat ->
             exists msg,
               songs_to_tracks (Some c) i numDirs (map Some (songs ++ bad :: more))
                 (done ++ replicate n zeroTrack) w0 = Panic msg).
  { clear Hgood Hdb. induction songs as [|song songs IH];
      intros done n i numDirs Hsongs Hle Hdone Hn; cbn [app map Mpd.songs_to_tracks].
    - unfold is_dir in Hfile. destruct (bad !! "directory") eqn:Hdir; [discriminate|].
      destruct n as [|n]; [cbn in Hn; lia|].
      rewrite <- Hdone, lookup_app_r, Nat.sub_diag by lia. cbn [replicate lookup list_lookup].
      destruct (trackFromMpdSong_panics c bad zeroTrack w0
                  ltac:(unfold is_dir; now rewrite Hdir) Hbad) as [msg Hmsg].
      exists msg. unfold bind. now rewrite Hmsg.
    - apply Forall_cons in Hsongs as [Hsong Hsongs]. cbn [length] in Hn.
      unfold is_dir in Hsong. destruct (song !! "directory") as [dir|] eqn:Hdir.
      + apply IH; try assumption; lia.
      + destruct n as [|n]; [lia|].
        rewrite <- Hdone, lookup_app_r, Nat.sub_diag by lia.
        cbn [replicate lookup list_lookup].
        rewrite (bind_runs _ _ _ _ _
                   (trackFromMpdSong_runs c song w0
                      ltac:(unfold is_dir; now rewrite Hdir) (Hsong eq_refl))).
        replace (<[length done := track_of (mpd w0) song]>
                   (done ++ zeroTrack :: replicate n zeroTrack))
          with ((done ++ [track_of (mpd w0) song]) ++ replicate n zeroTrack).
        2:{ rewrite insert_app_r_alt, Nat.sub_diag by lia. cbn. now rewrite <- app_assoc. }
        apply IH; try assumption; try lia. rewrite length_app. cbn. lia. }
  destruct (Hloop good [] (length (good ++ bad :: more)) 0%nat 0%nat Hgood
              ltac:(lia) eq_refl ltac:(rewrite length_app; cbn; lia)) as [msg Hmsg].
  exists msg. cbn [app] in Hmsg. unfold bind. now rewrite Hmsg.
Qed.

(** The song that the first loop of [TrackInfo] finds for a URI. *)
Definition song_for (w : World) (uri : string) : option Attrs :=
  if HasPrefix uri URI_SCHEMA then head (database (mpd w) (uriToMpd uri))
  else if (Contains uri "http://" || Contains uri "https://")
          && String.eqb (match playlist (pl w) with
                         | [] => ""
                         | cur :: _ => TrackUri cur
                         end) uri
       then Some (<["Album" := attr (current (mpd w)) "Name"]> (current (mpd w)))
       else None.

Lemma lookup_songs_runs (c : Conn) (cur : string) (identities : list string) (w w0 : World) :
  failing (mpd w0) CListAllInfo = None -> failing (mpd w0) CCurrentSong = None ->
  mpd w0 = mpd w ->
  cur = match playlist (pl w) with [] => "" | t :: _ => TrackUri t end ->
  lookup_songs (Some c) cur identities w0 = Return (Ok (map (song_for w) identities)) w0.
Proof.
  intros Hlist Hcur Hmpd ->.
  induction identities as [|uri identities IH]; cbn [lookup_songs map]; [reflexivity|].
  unfold song_for at 1.
  destruct (HasPrefix uri URI_SCHEMA).
  - unfold ListAllInfo, command, bind at 1 2. rewrite Hlist, set_mpd_same.
    unfold ret at 1, bind at 1. rewrite IH. unfold ret. now rewrite Hmpd.
  - destruct ((Contains uri "http://" || Contains uri "https://")
              && String.eqb _ uri).
    + unfold CurrentSong, command, bind at 1 2. rewrite Hcur, set_mpd_same.
      unfold ret at 1, bind at 1. rewrite IH. unfold ret. now rewrite Hmpd.
    + unfold ret at 1, bind at 1, bind at 1. rewrite IH. reflexivity.
Qed.

(** X21: [Player.TrackInfo], when a connection can be had, the daemon answers
    and no URI names a directory or a song with a "Time" that is not a
    number: the result has one track per identity, in the order asked, the
    zero track for a URI that the daemon does not know or that has no
    "mpd://" schema and is not the stream now playing. *)
Theorem TrackInfo_one_per_identity (identities : list string) (w : World)
    (rc : reusableClient) (rest : list reusableClient) (c : Conn) (rc' : reusableClient) :
  clientPool (pl w) = rc :: rest -> acquire rc w = AcqConn c rc' ->
  (length rest < poolCap)%nat ->
  failing (mpd w) CListAllInfo = None -> failing (mpd w) CCurrentSong = None ->
  Forall (fun uri => match song_for w uri with
                     | Some song => is_dir song = false /\ timed song
                     | None => True
                     end) identities ->
  TrackInfo identities w
  = Return (Some (map (fun uri => match song_for w uri with
                                  | Some song => track_of (mpd w) song
                                  | None => zeroTrack
                                  end) identities), None)
      (set_pool (rest ++ [rc']) w).
Proof.
  intros Hpool Hacq Hcap Hlist Hcur Hids.
  unfold Mpd.TrackInfo. unfold bind at 1, gets at 1.
  rewrite withMpdV_acquire, Hpool, Hacq.
  unfold bind at 1. unfold bind at 1.
  rewrite (lookup_songs_runs c _ identities w (set_pool rest w) Hlist Hcur eq_refl eq_refl).
  rewrite songs_to_tracks_result.
  2:{ unfold all_timed. rewrite Forall_fmap. eapply List.Forall_impl; [|exact Hids].
      intros uri. cbn. destruct (song_for w uri); tauto. }
  unfold bind, ret, send_pool.
  apply Nat.ltb_lt in Hcap. cbn [set_pool set_pl pl clientPool mpd]. rewrite Hcap.
  do 3 f_equal.
  clear -Hids. induction identities as [|uri identities IH]; [reflexivity|].
  apply Forall_cons in Hids as [Huri Hids]. cbn [map fill].
  destruct (song_for w uri) as [song|].
  - destruct Huri as [-> _]. now rewrite IH.
  - now rewrite IH.
Qed.

End WithPlayerPackage.

End TracksMore.

Module TracksExamples.
Import GoStrings Strconv Player Mpd PoolFacts SyncFacts TracksMore.

(** A listing with a directory, a file with cover art that lasts 215 s,
    and a file without a duration. *)
Definition listing : list Attrs :=
  [ {[ "directory" := "Music" ]};
    {[ "file" := "Music/a.mp3"; "Title" := "A"; "Time" := "215" ]};
    {[ "file" := "Music/b.mp3"; "Title" := "B" ]} ].

Definition daemon_listing (songs : list Attrs) : Daemon :=
  mkDaemon [] ∅
    (fun uri => if String.eqb uri "/" then songs
                else if String.eqb uri "Music/a.mp3" then drop 1 (take 2 songs)
                else [])
    ∅ {[ ("Music/a.mp3", "image-nchunks") := "3" ]} (fun _ => None).

Definition world_listing (songs : list Attrs) : World :=
  mkWorld (mkPlayer [live 1; live 2] [] "" []) (daemon_listing songs) (Ok (conn 9)) 40 [].

Definition track_A : Track :=
  mkTrack "mpd://Music/a.mp3" "" "A" "" "" "" "" "" true (215 * Second).
Definition track_B : Track :=
  mkTrack "mpd://Music/b.mp3" "" "B" "" "" "" "" "" false 0.

Lemma Tracks_lists_files_witness :
  exists w', Mpd.Tracks id (world_listing listing) = Return (Some [track_A; track_B], None) w'.
Proof.
  eexists.
  rewrite (Tracks_lists_files id (world_listing listing) (live 1) [live 2] (conn 1)
             (mkRC (Some (conn 1)) false false (40 + expireAfter))
             eq_refl eq_refl ltac:(unfold poolCap; simpl; lia) eq_refl).
  - vm_compute. reflexivity.
  - repeat constructor; intros _; (left; reflexivity) || (right; vm_compute; reflexivity).
Defined.

(** The same listing, with a duration that is not a number of seconds. *)
Definition listing_bad : list Attrs :=
  [ {[ "directory" := "Music" ]};
    {[ "file" := "Music/a.mp3"; "Title" := "A"; "Time" := "3:35" ]};
    {[ "file" := "Music/b.mp3"; "Title" := "B" ]} ].

Lemma Tracks_bad_time_panics_witness :
  exists msg, Mpd.Tracks id (world_listing listing_bad) = Panic msg.
Proof.
  apply (Tracks_bad_time_panics id (world_listing listing_bad) (live 1) [live 2] (conn 1)
           (mkRC (Some (conn 1)) false false (40 + expireAfter))
           [ {[ "directory" := "Music" ]} ]
           {[ "file" := "Music/a.mp3"; "Title" := "A"; "Time" := "3:35" ]}
           [ {[ "file" := "Music/b.mp3"; "Title" := "B" ]} ]);
    try reflexivity.
  - repeat constructor.
  - intros [H|H]; vm_compute in H; discriminate H.
Defined.

Lemma TrackInfo_one_per_identity_witness :
  exists w',
    Mpd.TrackInfo id ["mpd://Music/a.mp3"; "spotify:track:1"; "mpd://Music/z.mp3"]
      (world_listing listing)
    = Return (Some [track_A; zeroTrack; zeroTrack], None) w'.
Proof.
  eexists.
  rewrite (TrackInfo_one_per_identity id
             ["mpd://Music/a.mp3"; "spotify:track:1"; "mpd://Music/z.mp3"]
             (world_listing listing) (live 1) [live 2] (conn 1)
             (mkRC (Some (conn 1)) false false (40 + expireAfter))
             eq_refl eq_refl ltac:(unfold poolCap; simpl; lia) eq_refl eq_refl).
  - vm_compute. reflexivity.
  - constructor; [|constructor; [|constructor; [|constructor]]]; vm_compute;
      [split; [reflexivity | right; reflexivity] | exact I | exact I].
Defined.

End TracksExamples.

(** ** The other queries of [mpd.go] *)

Module QueryMore.
Import GoStrings Strconv Player Mpd PoolFacts SyncFacts SyncMore.

(** *** [Available] *)

Definition Available : M World bool :=
  e <- withMpd ping ;;
  ret (match e with
       | None => true
       | Some _ => false
       end).

(** X22: [Available] answers true exactly when a connection could be had and
    the daemon answered the ping.  It never changes the daemon; the pool
    gets its connection back unless the dial failed, in which case the pool
    is one connection short. *)
Theorem Available_answers (w w' : World) (rc : reusableClient)
    (rest : list reusableClient) (b : bool) :
  clientPool (pl w) = rc :: rest -> Available w = Return b w' ->
  mpd w' = mpd w
  /\ (b = true <-> (exists c rc', acquire rc w = AcqConn c rc')
                   /\ failing (mpd w) CPing = None)
  /\ pool_size w' = match acquire rc w with
                    | AcqErr _ => (pool_size w - 1)%nat
                    | _ => pool_size w
                    end.
Proof.
  intros Hpool. unfold Available, withMpd, pool_size. intros H. minv.
  match goal with
  | Hw : withMpdV _ _ _ = Return _ _ |- _ => rewrite withMpdV_acquire, Hpool in Hw
  end.
  rewrite Hpool.
  destruct (acquire rc w) as [c rc'|e|]; [| |discriminate].
  - minv.
    match goal with
    | Hs : send_pool _ _ = Return _ _ |- _ =>
        unfold send_pool in Hs;
        destruct (_ <? _)%nat; [injection Hs as _ <- | discriminate Hs]
    end.
    unfold ping in *. minv.
    match goal with
    | Hp : Ping _ _ = Return ?r _ |- _ =>
        unfold Ping in Hp; apply command_Return in Hp as [(e & He & -> & ->)|(He & -> & ->)]
    end; cbn [fst snd mpd set_pool set_pl] in *; minv; cbn [snd].
    + split; [reflexivity|]. split.
      * split; [discriminate | intros [_ Hnone]; congruence].
      * cbn [set_pool set_pl pl clientPool]. rewrite length_app. cbn. lia.
    + split; [reflexivity|]. split.
      * split; [eauto | reflexivity].
      * cbn [set_pool set_pl set_mpd pl clientPool]. rewrite length_app. cbn. lia.
  - minv. cbn [snd]. split; [reflexivity|]. split.
    + split; [discriminate | now intros [(c & rc' & [=]) _]].
    + cbn [set_pool set_pl pl clientPool length]. lia.
Qed.

(** *** [Playlist] *)

Section WithParseFloat.

(** [time.Duration(progressf)] for the [progressf] that
    [strconv.ParseFloat(s, 32)] returns: the whole seconds of [s], taken as
    given. *)
Variable elapsed_seconds : string -> Z.

Definition set_Progress (p : Z) (t : PlaylistTrack) : PlaylistTrack :=
  mkPlaylistTrack (pt_Uri t) (QueuedBy t) p.

(** [Player.Playlist]; the slice returned is [None] when it is nil.  The
    callback writes to the copy [plist], the variable [V] of [withMpdV]. *)
Definition Playlist : M World (option (list PlaylistTrack) * option error) :=
  local <- gets (fun w => playlist (pl w)) ;;
  if (length local =? 0)%nat then ret (Some local, None)
  else
    let plist := local in
    res <- withMpdV plist (fun mpdc =>
      r <- Status mpdc ;;
      match r with
      | Err e => ret (plist, Some e)
      | Ok status =>
          match plist with
          | [] => panic "index out of range [0]"
          | cur :: _ =>
              ret (<[0%nat := set_Progress (elapsed_seconds (attr status "elapsed") * Second)
                                cur]> plist, None)
          end
      end) ;;
    match snd res with
    | Some e => ret (None, Some e)
    | None => ret (Some (fst res), None)
    end.

(** X23: [Playlist] on an empty playlist returns it without taking a connection:
    it returns even when the pool is empty.  Otherwise, when it returns
    a playlist, that is the player's own with the progress of the head
    replaced by the daemon's elapsed time and nothing else changed, and
    the player's own playlist and the daemon are as before. *)
Theorem Playlist_head_progress (w : World) :
  (playlist (pl w) = [] -> Playlist w = Return (Some [], None) w)
  /\ (forall w' plist,
         Playlist w = Return (Some plist, None) w' ->
         playlist (pl w') = playlist (pl w) /\ mpd w' = mpd w
         /\ match playlist (pl w) with
            | [] => plist = []
            | cur :: tl =>
                plist = set_Progress
                          (elapsed_seconds (attr (status (mpd w)) "elapsed") * Second) cur
                        :: tl
            end).
Proof.
  split.
  - intros Hempty. unfold Playlist, bind, gets. now rewrite Hempty.
  - intros w' plist. unfold Playlist. intros H. minv.
    destruct (playlist (pl w)) as [|cur tl] eqn:Hplist; cbn [length Nat.eqb] in H.
    { minv. rewrite Hplist. auto. }
    minv.
    match goal with
    | Hw : withMpdV _ _ _ = Return _ _ |- _ => rewrite withMpdV_acquire in Hw
    end.
    destruct (clientPool (pl w)) as [|rc rest]; [discriminate|].
    destruct (acquire rc w) as [c rc'|e|]; [| |discriminate].
    2:{ minv. cbn [snd] in H. unfold ret in H. discriminate H. }
    minv.
    match goal with
    | Hs : send_pool _ _ = Return _ _ |- _ =>
        unfold send_pool in Hs;
        destruct (_ <? _)%nat; [injection Hs as _ <- | discriminate Hs]
    end.
    match goal with
    | Hs : Status _ _ = Return ?r _ |- _ =>
        unfold Status in Hs; apply query_Return in Hs as [-> Hr]; destruct r as [st|e]
    end; minv; cbn [snd fst] in H.
    2:{ unfold ret in H. discriminate H. }
    minv. destruct Hr as [[= ->]|(e & _ & [=])].
    cbn [set_pool set_pl pl playlist mpd]. rewrite Hplist. auto.
Qed.

End WithParseFloat.

(** *** [TrackArt] *)

(** [[]string{"", "=", "==", "==="}] *)
Definition paddings : list string := [""; "="; "=="; "==="].

(** The loop of [TrackArt] over the chunks: [i] is the index of the next
    chunk, [n] the number of iterations left.  [None] when the callback
    returns from inside the loop. *)
Fixpoint read_chunks (mpdc : option Conn) (id : string) (i : nat) (n : nat)
    (chunks : list (option string)) (totalLength : Z)
  : M World (option (list (option string) * Z)) :=
  match n with
  | O => ret (Some (chunks, totalLength))
  | S n' =>
      r <- StickerGet mpdc id ("image-" +:+ FormatInt (Z.of_nat i)) ;;
      match r with
      | Err _ => ret None
      | Ok b64Data =>
          match chunks !! i with
          | None => panic "index out of range"
          | Some _ =>
              read_chunks mpdc id (S i) n' (<[i := Some b64Data]> chunks)
                (totalLength + Z.of_nat (String.length b64Data))
          end
      end
  end.

(** [Player.TrackArt]: the image is the list of the readers that
    [io.MultiReader] reads one after the other into the base64 decoder, a
    reader being the string it reads from and [None] a nil reader; the
    image is [None] when it is nil. *)
Definition TrackArt (uri : string) : M World (option (list (option string)) * string) :=
  res <- withMpdV (None, "") (fun mpdc =>
    let id := uriToMpd uri in
    r <- StickerGet mpdc id "image-nchunks" ;;
    let numChunks := match r with
                     | Ok strNum =>
                         match ParseInt32 strNum with
                         | (num, None) => num
                         | _ => 0
                         end
                     | Err _ => 0
                     end in
    if numChunks =? 0 then ret ((None, ""), None)
    else if numChunks + 1 <? 0 then panic "makeslice: len out of range"
    else
      r <- read_chunks mpdc id 0 (Z.to_nat numChunks)
             (replicate (Z.to_nat (numChunks + 1)) None) 0 ;;
      match r with
      | None => ret ((None, ""), None)
      | Some (chunks, totalLength) =>
          match length chunks with
          | O => panic "index out of range [-1]"
          | S last =>
              ret ((Some (<[last := Some (nth (Z.to_nat (Z.rem totalLength 4)) paddings "")]>
                            chunks),
                    "image/jpeg"), None)
          end
      end) ;;
  ret (fst res).

(** The sticker that holds chunk [i] of the art of [id]. *)
Definition chunk (d : Daemon) (id : string) (i : nat) : option string :=
  stickers d !! (id, "image-" +:+ FormatInt (Z.of_nat i)).

Lemma StickerGet_runs (c : Conn) (id name : string) (w : World) :
  failing (mpd w) CStickerGet = None ->
  StickerGet (Some c) id name w
  = Return (match stickers (mpd w) !! (id, name) with
            | Some v => Ok v
            | None => Err "no such sticker"
            end) w.
Proof.
  intros Hf. unfold StickerGet, command. rewrite Hf.
  destruct (stickers (mpd w) !! (id, name)); now rewrite set_mpd_same.
Qed.

(** The invariant of the loop: the chunks before [i] are read, the slots
    from [i] on are nil. *)
Lemma read_chunks_all (c : Conn) (id : string) (w : World) (n : nat) :
  forall (i : nat) (done : list (option string)) (m : nat) (total : Z),
    failing (mpd w) CStickerGet = None ->
    length done = i -> (n <= m)%nat ->
    (forall k, (i <= k < i + n)%nat -> is_Some (chunk (mpd w) id k)) ->
    read_chunks (Some c) id i n (done ++ replicate m None) total w
    = Return (Some (done ++ map (chunk (mpd w) id) (seq i n) ++ replicate (m - n) None,
                    total + Z.of_nat (sum_list_with
                                        (fun k => String.length (default "" (chunk (mpd w) id k)))
                                        (seq i n)))) w.
Proof.
  induction n as [|n IH]; intros i done m total Hf Hdone Hm Hall;
    cbn [read_chunks seq map sum_list_with app].
  - unfold ret. now rewrite Nat.sub_0_r, Z.add_0_r.
  - rewrite (bind_runs _ _ _ _ _ (StickerGet_runs c id _ w Hf)).
    destruct (Hall i ltac:(lia)) as [data Hdata]. unfold chunk in Hdata |- *.
    rewrite Hdata. destruct m as [|m]; [lia|].
    rewrite <- Hdone, lookup_app_r, Nat.sub_diag by lia. cbn [replicate lookup list_lookup].
    replace (<[length done := Some data]> (done ++ None :: replicate m None))
      with ((done ++ [Some data]) ++ replicate m None).
    2:{ rewrite insert_app_r_alt, Nat.sub_diag by lia. cbn. now rewrite <- app_assoc. }
    rewrite (IH (S (length done)) (done ++ [Some data]) m); try assumption; try lia.
    + cbn [default Nat.sub]. rewrite <- app_assoc. cbn [app].
      do 3 f_equal. unfold chunk, Datatypes.id. lia.
    + rewrite length_app. cbn. lia.
    + intros k Hk. apply Hall. lia.
Qed.

(** The loop returns from the callback at the first chunk that is
    missing. *)
Lemma read_chunks_missing (c : Conn) (id : string) (w : World) (n : nat) :
  forall (i : nat) (done : list (option string)) (m : nat) (total : Z) (miss : nat),
    failing (mpd w) CStickerGet = None ->
    length done = i -> (n <= m)%nat ->
    (i <= miss < i + n)%nat -> chunk (mpd w) id miss = None ->
    (forall k, (i <= k < miss)%nat -> is_Some (chunk (mpd w) id k)) ->
    read_chunks (Some c) id i n (done ++ replicate m None) total w = Return None w.
Proof.
  induction n as [|n IH]; intros i done m total miss Hf Hdone Hm Hmiss Hnone Hall;
    cbn [read_chunks]; [lia|].
  rewrite (bind_runs _ _ _ _ _ (StickerGet_runs c id _ w Hf)).
  destruct (decide (miss = i)) as [->|Hne].
  - unfold chunk in Hnone. now rewrite Hnone.
  - destruct (Hall i ltac:(lia)) as [data Hdata]. unfold chunk in Hdata.
    rewrite Hdata. destruct m as [|m]; [lia|].
    rewrite <- Hdone, lookup_app_r, Nat.sub_diag by lia. cbn [replicate lookup list_lookup].
    replace (<[length done := Some data]> (done ++ None :: replicate m None))
      with ((done ++ [Some data]) ++ replicate m None).
    2:{ rewrite insert_app_r_alt, Nat.sub_diag by lia. cbn. now rewrite <- app_assoc. }
    apply (IH (S (length done)) (done ++ [Some data]) m _ miss); try assumption; try lia.
    + rewrite length_app. cbn. lia.
    + intros k Hk. apply Hall. lia.
Qed.

(** What the sticker "image-nchunks" of [uri] makes [numChunks]. *)
Definition numChunks_of (d : Daemon) (uri : string) : Z :=
  match stickers d !! (uriToMpd uri, "image-nchunks") with
  | Some strNum =>
      match ParseInt32 strNum with
      | (num, None) => num
      | _ => 0
      end
  | None => 0
  end.

Lemma TrackArt_numChunks (c : Conn) (uri : string) (w : World) :
  failing (mpd w) CStickerGet = None ->
  match (match stickers (mpd w) !! (uriToMpd uri, "image-nchunks") with
         | Some v => Ok v
         | None => Err "no such sticker"
         end : result string) with
  | Ok strNum => match ParseInt32 strNum with
                 | (num, None) => num
                 | _ => 0
                 end
  | Err _ => 0
  end = numChunks_of (mpd w) uri.
Proof.
  intros _. unfold numChunks_of.
  now destruct (stickers (mpd w) !! (uriToMpd uri, "image-nchunks")).
Qed.

(** X24: [TrackArt] panics when the sticker "image-nchunks" of the track holds
    a negative number. *)
Theorem TrackArt_negative_panics (uri : string) (w : World) (rc : reusableClient)
    (rest : list reusableClient) (c : Conn) (rc' : reusableClient) :
  clientPool (pl w) = rc :: rest -> acquire rc w = AcqConn c rc' ->
  failing (mpd w) CStickerGet = None ->
  numChunks_of (mpd w) uri < 0 ->
  exists msg, TrackArt uri w = Panic msg.
Proof.
  intros Hpool Hacq Hf Hneg.
  unfold TrackArt. unfold bind at 1. rewrite withMpdV_acquire, Hpool, Hacq.
  unfold bind at 1.
  rewrite (bind_runs _ _ _ _ _ (StickerGet_runs c _ _ (set_pool rest w) Hf)).
  cbn [mpd set_pool set_pl]. rewrite (TrackArt_numChunks c uri w Hf).
  set (n := numChunks_of (mpd w) uri) in *.
  destruct (Z.eqb_spec n 0); [lia|].
  destruct (Z.ltb_spec (n + 1) 0); [unfold panic; eauto|].
  assert (n = -1) as -> by lia. cbn. unfold panic. eauto.
Qed.

(** The string of [k] padding characters. *)
Fixpoint equals (k : nat) : string :=
  match k with
  | O => ""
  | S k' => String "=" (equals k')
  end.

Lemma omap_chunks (d : Daemon) (id : string) (n : nat) :
  forall i,
    (forall k, (i <= k < i + n)%nat -> is_Some (chunk d id k)) ->
    map Some (omap (chunk d id) (seq i n)) = map (chunk d id) (seq i n)
    /\ sum_list_with String.length (omap (chunk d id) (seq i n))
       = sum_list_with (fun k => String.length (default "" (chunk d id k))) (seq i n).
Proof.
  induction n as [|n IH]; intros i Hall; cbn [seq]; [auto|].
  destruct (Hall i ltac:(lia)) as [data Hdata].
  destruct (IH (S i)) as [Hmap Hsum]; [intros k Hk; apply Hall; lia|].
  assert (omap (chunk d id) (i :: seq (S i) n)
          = data :: omap (chunk d id) (seq (S i) n)) as ->
    by (simpl; now rewrite Hdata).
  cbn [map sum_list_with]. now rewrite Hmap, Hsum, Hdata.
Qed.

Lemma equals_length (k : nat) : String.length (equals k) = k.
Proof. induction k; cbn; congruence. Qed.

Lemma paddings_equals (total : nat) :
  nth (Z.to_nat (Z.rem (Z.of_nat total) 4)) paddings "" = equals (total mod 4)%nat.
Proof.
  rewrite Z.rem_mod_nonneg by lia.
  replace (Z.to_nat (Z.of_nat total mod 4)) with (total mod 4)%nat
    by (rewrite <- (Nat2Z.id (total mod 4)%nat), Nat2Z.inj_mod; reflexivity).
  pose proof (Nat.mod_upper_bound total 4 ltac:(lia)) as Hlt.
  destruct (total mod 4)%nat as [|[|[|[|r]]]]; try reflexivity. lia.
Qed.

(** X25: [TrackArt], when a connection can be had, the sticker "image-nchunks"
    holds a positive number [n] and the stickers "image-0" to "image-(n-1)"
    are all there: the image reads the [n] chunks in order and then as
    many "=" as the total length of the chunks has remainder modulo 4, and
    the type is "image/jpeg".  What the decoder reads has a length that is
    a multiple of 4 only when that remainder is 0 or 2. *)
Theorem TrackArt_reads_chunks (uri : string) (w : World) (rc : reusableClient)
    (rest : list reusableClient) (c : Conn) (rc' : reusableClient) :
  clientPool (pl w) = rc :: rest -> acquire rc w = AcqConn c rc' ->
  (length rest < poolCap)%nat ->
  failing (mpd w) CStickerGet = None ->
  0 < numChunks_of (mpd w) uri ->
  (forall k, (k < Z.to_nat (numChunks_of (mpd w) uri))%nat ->
             is_Some (chunk (mpd w) (uriToMpd uri) k)) ->
  let data := omap (chunk (mpd w) (uriToMpd uri))
                (seq 0 (Z.to_nat (numChunks_of (mpd w) uri))) in
  let total := sum_list_with String.length data in
  TrackArt uri w
  = Return (Some (map Some data ++ [Some (equals (total mod 4)%nat)]), "image/jpeg")
      (set_pool (rest ++ [rc']) w)
  /\ length data = Z.to_nat (numChunks_of (mpd w) uri)
  /\ (((total + String.length (equals (total mod 4)%nat)) mod 4 = 0)%nat
      <-> (total mod 4 = 0 \/ total mod 4 = 2)%nat).
Proof.
  intros Hpool Hacq Hcap Hf Hpos Hall data total.
  set (n := numChunks_of (mpd w) uri) in *.
  set (id := uriToMpd uri) in *.
  destruct (omap_chunks (mpd w) id (Z.to_nat n) 0) as [Hmap Hsum];
    [intros k Hk; apply Hall; lia|].
  fold data in Hmap, Hsum. fold total in Hsum.
  assert (Hlen : length data = Z.to_nat n).
  { apply (f_equal length) in Hmap. now rewrite !length_map, length_seq in Hmap. }
  split; [|split; [exact Hlen|]].
  - unfold TrackArt. unfold bind at 1. rewrite withMpdV_acquire, Hpool, Hacq.
    unfold bind at 1.
    rewrite (bind_runs _ _ _ _ _ (StickerGet_runs c _ _ (set_pool rest w) Hf)).
    cbn [mpd set_pool set_pl]. rewrite (TrackArt_numChunks c uri w Hf). fold n. fold id.
    destruct (Z.eqb_spec n 0); [lia|].
    destruct (Z.ltb_spec (n + 1) 0); [lia|].
    replace (Z.to_nat (n + 1)) with (S (Z.to_nat n)) by lia.
    change (set_pl _ w) with (set_pool rest w).
    rewrite (bind_runs _ _ _ _ _
               (read_chunks_all c id (set_pool rest w) (Z.to_nat n) 0 [] (S (Z.to_nat n)) 0
                  Hf eq_refl ltac:(lia) ltac:(intros k Hk; apply Hall; lia))).
    cbn [app mpd set_pool set_pl]. rewrite <- Hmap, <- Hsum.
    replace (S (Z.to_nat n) - Z.to_nat n)%nat with 1%nat by lia. cbn [replicate].
    rewrite length_app, length_map, Hlen. cbn [length].
    replace (Z.to_nat n + 1)%nat with (S (Z.to_nat n)) by lia.
    rewrite Z.add_0_l, paddings_equals.
    rewrite insert_app_r_alt by (rewrite length_map; lia).
    rewrite length_map, Hlen, Nat.sub_diag. cbn [insert list_insert].
    unfold ret, bind, send_pool. apply Nat.ltb_lt in Hcap.
    cbn [set_pool set_pl pl clientPool fst]. now rewrite Hcap.
  - rewrite equals_length, <- Nat.Div0.add_mod_idemp_l.
    pose proof (Nat.mod_upper_bound total 4 ltac:(lia)) as Hlt.
    destruct (total mod 4)%nat as [|[|[|[|r]]]]; cbn; lia.
Qed.

(** X26: [TrackArt] returns no image, and no error, when one of the chunks that
    "image-nchunks" announces is missing. *)
Theorem TrackArt_missing_chunk (uri : string) (w : World) (rc : reusableClient)
    (rest : list reusableClient) (c : Conn) (rc' : reusableClient) (miss : nat) :
  clientPool (pl w) = rc :: rest -> acquire rc w = AcqConn c rc' ->
  (length rest < poolCap)%nat ->
  failing (mpd w) CStickerGet = None ->
  (miss < Z.to_nat (numChunks_of (mpd w) uri))%nat ->
  chunk (mpd w) (uriToMpd uri) miss = None ->
  (forall k, (k < miss)%nat -> is_Some (chunk (mpd w) (uriToMpd uri) k)) ->
  TrackArt uri w = Return (None, "") (set_pool (rest ++ [rc']) w).
Proof.
  intros Hpool Hacq Hcap Hf Hmiss Hnone Hall.
  set (n := numChunks_of (mpd w) uri) in *.
  set (id := uriToMpd uri) in *.
  unfold TrackArt. unfold bind at 1. rewrite withMpdV_acquire, Hpool, Hacq.
  unfold bind at 1.
  rewrite (bind_runs _ _ _ _ _ (StickerGet_runs c _ _ (set_pool rest w) Hf)).
  cbn [mpd set_pool set_pl]. rewrite (TrackArt_numChunks c uri w Hf). fold n. fold id.
  destruct (Z.eqb_spec n 0); [lia|].
  destruct (Z.ltb_spec (n + 1) 0); [lia|].
  replace (Z.to_nat (n + 1)) with (S (Z.to_nat n)) by lia.
  change (set_pl _ w) with (set_pool rest w).
  rewrite (bind_runs _ _ _ _ _
             (read_chunks_missing c id (set_pool rest w) (Z.to_nat n) 0 []
                (S (Z.to_nat n)) 0 miss Hf eq_refl ltac:(lia) ltac:(lia) Hnone
                ltac:(intros k Hk; apply Hall; lia))).
  unfold ret, bind, send_pool. apply Nat.ltb_lt in Hcap.
  cbn [set_pool set_pl pl clientPool fst]. now rewrite Hcap.
Qed.

End QueryMore.

Module QueryExamples.
Import GoStrings Strconv Player Mpd PoolFacts SyncFacts SyncExamples SyncMoreExamples
  QueryMore.

(** The oldest connection has died and the daemon refuses the dial:
    [Available] says no and the pool is left with five connections. *)
Lemma Available_answers_witness :
  Available world_refusing = Return false (after (Available world_refusing) world_refusing)
  /\ pool_size (after (Available world_refusing) world_refusing) = 5%nat.
Proof.
  assert (Hrun : Available world_refusing
                 = Return false (after (Available world_refusing) world_refusing))
    by (vm_compute; reflexivity).
  split; [exact Hrun|].
  destruct (Available_answers world_refusing _ dead
              [live 1; live 2; live 3; live 4; live 5] false eq_refl Hrun)
    as (_ & _ & Hsize).
  rewrite Hsize. reflexivity.
Defined.

(** The daemon is 12 s into the head of the playlist. *)
Lemma Playlist_head_progress_witness :
  Playlist (fun _ => 12) world_a_then_b
  = Return (Some [mkPlaylistTrack "mpd://b.mp3" "system" (12 * Second);
                  mkPlaylistTrack "mpd://c.mp3" "" 0], None)
      (after (Playlist (fun _ => 12) world_a_then_b) world_a_then_b)
  /\ playlist (pl (after (Playlist (fun _ => 12) world_a_then_b) world_a_then_b))
     = playlist (pl world_a_then_b).
Proof.
  assert (Hrun : Playlist (fun _ => 12) world_a_then_b
                 = Return (Some [mkPlaylistTrack "mpd://b.mp3" "system" (12 * Second);
                                 mkPlaylistTrack "mpd://c.mp3" "" 0], None)
                     (after (Playlist (fun _ => 12) world_a_then_b) world_a_then_b))
    by (vm_compute; reflexivity).
  destruct (proj2 (Playlist_head_progress (fun _ => 12) world_a_then_b) _ _ Hrun)
    as (Hown & _ & _).
  split; [exact Hrun | exact Hown].
Defined.

(** The cover of [a.mp3] in chunks. *)
Definition daemon_art (stickers : gmap (string * string) string) : Daemon :=
  mkDaemon [] ∅ (fun _ => []) ∅ stickers (fun _ => None).

Definition world_art (stickers : gmap (string * string) string) : World :=
  mkWorld (mkPlayer [live 1; live 2] [] "" []) (daemon_art stickers) (Ok (conn 9)) 40 [].

Definition two_chunks : gmap (string * string) string :=
  {[ ("a.mp3", "image-nchunks") := "2";
     ("a.mp3", "image-0") := "QUJD";
     ("a.mp3", "image-1") := "RA" ]}.

Lemma TrackArt_reads_chunks_witness :
  exists w',
    TrackArt "mpd://a.mp3" (world_art two_chunks)
    = Return (Some [Some "QUJD"; Some "RA"; Some "=="], "image/jpeg") w'.
Proof.
  assert (Hn : numChunks_of (mpd (world_art two_chunks)) "mpd://a.mp3" = 2)
    by (vm_compute; reflexivity).
  destruct (TrackArt_reads_chunks "mpd://a.mp3" (world_art two_chunks) (live 1) [live 2]
              (conn 1) (mkRC (Some (conn 1)) false false (40 + expireAfter))
              eq_refl eq_refl ltac:(unfold poolCap; simpl; lia) eq_refl
              ltac:(rewrite Hn; lia)) as [Hrun _].
  - rewrite Hn. intros k Hk.
    destruct k as [|[|k]]; [eexists; vm_compute; reflexivity ..|lia].
  - eexists. rewrite Hrun. vm_compute. reflexivity.
Defined.

Lemma TrackArt_negative_panics_witness :
  exists msg,
    TrackArt "mpd://a.mp3" (world_art {[ ("a.mp3", "image-nchunks") := "-1" ]}) = Panic msg.
Proof.
  apply (TrackArt_negative_panics "mpd://a.mp3" _ (live 1) [live 2]
           (conn 1) (mkRC (Some (conn 1)) false false (40 + expireAfter)));
    try reflexivity.
Defined.

Lemma TrackArt_missing_chunk_witness :
  exists w',
    TrackArt "mpd://a.mp3"
      (world_art {[ ("a.mp3", "image-nchunks") := "2"; ("a.mp3", "image-0") := "QUJD" ]})
    = Return (None, "") w'.
Proof.
  eexists.
  apply (TrackArt_missing_chunk "mpd://a.mp3" _ (live 1) [live 2]
           (conn 1) (mkRC (Some (conn 1)) false false (40 + expireAfter)) 1);
    try reflexivity.
  - unfold poolCap. simpl. lia.
  - vm_compute. lia.
  - intros k Hk. destruct k as [|k]; [eexists; vm_compute; reflexivity | lia].
Defined.

End QueryExamples.
